(** * A shallow embedding of the tree-sitter-rpmspec external scanners

    The primary scanner is src/src/scanner.c; the companion scanner that
    wraps the bash tokenizer is src/rpmbash/src/scanner.c.

    The tree-sitter lexer is modelled as a record: the unread input
    [rest] (the current lookahead character is its head, NUL at end of
    input), the current byte position [pos], the position of the last
    [mark_end] call [mark], the token start position [start] (moved by
    skipping advances) and the numeric [result_symbol].  Loops of the C
    code that advance the lexer are written with an explicit fuel argument
    of [S (length rest)], which is enough since every iteration consumes
    at least one character. *)

From Stdlib Require Import Ascii String List ZArith Lia Bool.
Import ListNotations.
Open Scope list_scope.

(** ** Characters *)

Definition NUL : ascii := ascii_of_nat 0.
Definition nl : ascii := ascii_of_nat 10.
Definition cr : ascii := ascii_of_nat 13.
Definition tab : ascii := ascii_of_nat 9.

Definition s2l (s : string) : list ascii := list_ascii_of_string s.

Definition chr_eq (c : ascii) (lit : ascii) : bool := Ascii.eqb c lit.

Definition in_range (lo hi : nat) (c : ascii) : bool :=
  (lo <=? nat_of_ascii c) && (nat_of_ascii c <=? hi).

(** [is_identifier_start]: letter or underscore. *)
Definition is_identifier_start (c : ascii) : bool :=
  in_range 97 122 c || in_range 65 90 c || chr_eq c "_".

(** C [isdigit] in the "C" locale. *)
Definition isdigit (c : ascii) : bool := in_range 48 57 c.

(** C [isspace] in the "C" locale: space, \t, \n, \v, \f, \r. *)
Definition isspace (c : ascii) : bool := chr_eq c " " || in_range 9 13 c.

Definition is_macro_start (c : ascii) : bool :=
  chr_eq c "%" || chr_eq c "{" || chr_eq c "(" || chr_eq c "[" ||
  chr_eq c "!" || chr_eq c "?" || chr_eq c "*" || chr_eq c "#" ||
  is_identifier_start c || isdigit c.

Definition is_identifier_char (c : ascii) : bool :=
  is_identifier_start c || isdigit c.

Definition is_horizontal_space (c : ascii) : bool :=
  chr_eq c " " || chr_eq c tab.

(** ** The lexer *)

Record Lexer := mkLexer {
  rest : list ascii;
  pos : nat;
  mark : nat;
  start : nat;
  result_symbol : nat
}.

Definition lookahead (l : Lexer) : ascii :=
  match rest l with [] => NUL | c :: _ => c end.

Definition eof (l : Lexer) : bool :=
  match rest l with [] => true | _ => false end.

(** [lexer->advance(lexer, skip)]: a skipped character moves the token
    start past it. *)
Definition lex_advance (skip : bool) (l : Lexer) : Lexer :=
  match rest l with
  | [] => l
  | _ :: r =>
      mkLexer r (S (pos l)) (mark l)
        (if skip then S (pos l) else start l) (result_symbol l)
  end.

Definition advance (l : Lexer) : Lexer := lex_advance false l.

Definition mark_end (l : Lexer) : Lexer :=
  mkLexer (rest l) (pos l) (pos l) (start l) (result_symbol l).

Definition set_result (sym : nat) (l : Lexer) : Lexer :=
  mkLexer (rest l) (pos l) (mark l) (start l) sym.

(** A lexer positioned at [p] before [input], as the engine presents it. *)
Definition lexer_at (input : list ascii) (p : nat) : Lexer :=
  mkLexer input p p p 0.

(** [while (pred(lexer->lookahead)) lexer->advance(lexer, skip);] *)
Fixpoint advance_while_f (fuel : nat) (pred : ascii -> bool) (skip : bool)
    (l : Lexer) : Lexer :=
  match fuel with
  | O => l
  | S f =>
      if pred (lookahead l) then advance_while_f f pred skip (lex_advance skip l)
      else l
  end.

Definition advance_while (pred : ascii -> bool) (skip : bool) (l : Lexer)
    : Lexer :=
  advance_while_f (length (rest l)) pred skip l.

(** ** Token types (enum TokenType, in source order) *)

Inductive TokenType :=
  | SIMPLE_MACRO | PARAMETRIC_MACRO_NAME | NEGATED_MACRO | SPECIAL_MACRO
  | ESCAPED_PERCENT
  | TOP_LEVEL_IF | TOP_LEVEL_IFARCH | TOP_LEVEL_IFNARCH | TOP_LEVEL_IFOS
  | TOP_LEVEL_IFNOS
  | SUBSECTION_IF | SUBSECTION_IFARCH | SUBSECTION_IFNARCH | SUBSECTION_IFOS
  | SUBSECTION_IFNOS
  | SCRIPTLET_IF | SCRIPTLET_IFARCH | SCRIPTLET_IFNARCH | SCRIPTLET_IFOS
  | SCRIPTLET_IFNOS
  | FILES_IF | FILES_IFARCH | FILES_IFNARCH | FILES_IFOS | FILES_IFNOS
  | EXPAND_CODE | SCRIPT_CODE
  | SECTION_PREP | SECTION_GENERATE_BUILDREQUIRES | SECTION_CONF
  | SECTION_BUILD | SECTION_INSTALL | SECTION_CHECK | SECTION_CLEAN
  | NEWLINE.

Definition tok_id (t : TokenType) : nat :=
  match t with
  | SIMPLE_MACRO => 0 | PARAMETRIC_MACRO_NAME => 1 | NEGATED_MACRO => 2
  | SPECIAL_MACRO => 3 | ESCAPED_PERCENT => 4
  | TOP_LEVEL_IF => 5 | TOP_LEVEL_IFARCH => 6 | TOP_LEVEL_IFNARCH => 7
  | TOP_LEVEL_IFOS => 8 | TOP_LEVEL_IFNOS => 9
  | SUBSECTION_IF => 10 | SUBSECTION_IFARCH => 11 | SUBSECTION_IFNARCH => 12
  | SUBSECTION_IFOS => 13 | SUBSECTION_IFNOS => 14
  | SCRIPTLET_IF => 15 | SCRIPTLET_IFARCH => 16 | SCRIPTLET_IFNARCH => 17
  | SCRIPTLET_IFOS => 18 | SCRIPTLET_IFNOS => 19
  | FILES_IF => 20 | FILES_IFARCH => 21 | FILES_IFNARCH => 22
  | FILES_IFOS => 23 | FILES_IFNOS => 24
  | EXPAND_CODE => 25 | SCRIPT_CODE => 26
  | SECTION_PREP => 27 | SECTION_GENERATE_BUILDREQUIRES => 28
  | SECTION_CONF => 29 | SECTION_BUILD => 30 | SECTION_INSTALL => 31
  | SECTION_CHECK => 32 | SECTION_CLEAN => 33
  | NEWLINE => 34
  end.

(** [const bool *valid_symbols], indexed by token type. *)
Definition ValidSymbols := TokenType -> bool.

(** ** Keyword tables *)

Definition KEYWORDS : list string :=
  [ "if"; "elif"; "else"; "endif"; "ifarch"; "ifnarch"; "elifarch"; "ifos";
    "ifnos"; "elifos";
    "define"; "global"; "undefine";
    "setup"; "autosetup"; "patch"; "autopatch";
    "echo"; "error"; "expand"; "getenv"; "getncpus"; "len"; "lower";
    "macrobody"; "quote"; "reverse"; "shescape"; "shrink"; "upper";
    "verbose"; "warn";
    "basename"; "dirname"; "exists"; "load"; "suffix"; "uncompress";
    "url2path"; "u2p";
    "gsub"; "sub"; "rep";
    "dnl"; "dump"; "rpmversion"; "trace";
    "expr"; "lua" ]%string.

Definition SUBSECTION_KEYWORDS : list string :=
  [ "package"; "description"; "sourcelist"; "patchlist"; "changelog" ]%string.

Definition SCRIPTLET_KEYWORDS : list string :=
  [ "prep"; "generate_buildrequires"; "conf"; "build"; "install"; "check";
    "clean";
    "pre"; "post"; "preun"; "postun"; "pretrans"; "posttrans"; "preuntrans";
    "postuntrans";
    "triggerin"; "triggerun"; "triggerpostun"; "triggerprein";
    "filetriggerin"; "filetriggerun"; "filetriggerpostun";
    "transfiletriggerin"; "transfiletriggerun"; "transfiletriggerpostun"
  ]%string.

Definition FILES_KEYWORDS : list string :=
  [ "defattr"; "attr"; "config"; "doc"; "docdir"; "dir"; "license"; "verify";
    "ghost"; "exclude"; "artifact"; "missingok"; "readme" ]%string.

(** An identifier buffer holds the stored characters (followed by the NUL
    terminator in C); [len] is the length tracked by the caller, which can
    exceed the stored characters when the identifier did not fit: the
    callers store at most [size - 1] characters, count the rest without
    storing them, and write the NUL at index [min(len, size - 1)].
    [strncmp(id, lit, n) == 0] with [n = strlen(lit)] holds exactly when
    [lit] is a prefix of the NUL-terminated buffer. *)
Fixpoint is_prefix (p s : list ascii) : bool :=
  match p, s with
  | [], _ => true
  | a :: p', b :: s' => Ascii.eqb a b && is_prefix p' s'
  | _ :: _, [] => false
  end.

Definition strequal (literal : string) (id : list ascii) (len : nat) : bool :=
  Nat.eqb len (String.length literal) && is_prefix (s2l literal) id.

Definition is_nil (id : list ascii) (len : nat) : bool := strequal "nil" id len.

(** [for (i = 5; i < len; i++) if (id[i] not a digit) return false;]
    An index past the stored characters reads as NUL: that is the
    terminator at [min(len, size - 1)], and as NUL is not a digit the loop
    returns there, so with a truncated identifier it stops at the NUL of
    the full buffer ([id_buf[63]] in [scan_macro]) and reads no further. *)
Fixpoint digits_from (i n : nat) (id : list ascii) : bool :=
  match n with
  | O => true
  | S n' => isdigit (nth i id NUL) && digits_from (S i) n' id
  end.

Definition is_patch_legacy (id : list ascii) (len : nat) : bool :=
  if len <? 6 then false
  else if negb (is_prefix (s2l "patch") id) then false
  else digits_from 5 (len - 5) id.

Definition matches_keyword_array (str : list ascii) (len : nat)
    (keywords : list string) : bool :=
  existsb (fun kw => strequal kw str len) keywords.

Definition is_scriptlet_keyword (str : list ascii) (len : nat) : bool :=
  matches_keyword_array str len SCRIPTLET_KEYWORDS.

Definition is_subsection_keyword (str : list ascii) (len : nat) : bool :=
  matches_keyword_array str len SUBSECTION_KEYWORDS.

Definition is_section_keyword (str : list ascii) (len : nat) : bool :=
  is_subsection_keyword str len || is_scriptlet_keyword str len ||
  strequal "files" str len.

Definition is_keyword (str : list ascii) (len : nat) : bool :=
  matches_keyword_array str len KEYWORDS ||
  matches_keyword_array str len SUBSECTION_KEYWORDS ||
  matches_keyword_array str len SCRIPTLET_KEYWORDS ||
  strequal "files" str len.

Definition is_files_keyword (str : list ascii) (len : nat) : bool :=
  matches_keyword_array str len FILES_KEYWORDS.

(** ** Content scanners *)

(** The [while (!lexer->eof(lexer))] loop of [scan_expand_content], with
    its locals [brace_depth] and [has_content].  The result is the returned
    [has_content] and the lexer at [done:]. *)
Fixpoint expand_loop (fuel : nat) (brace_depth : Z) (has_content : bool)
    (l : Lexer) : bool * Lexer :=
  match fuel with
  | O => (has_content, l)
  | S f =>
      if eof l then (has_content, l) else
      let c := lookahead l in
      if chr_eq c "%" then
        let l1 := advance (mark_end l) in
        if eof l1 then (true, mark_end l1)
        else
          let c1 := lookahead l1 in
          if chr_eq c1 "%" || chr_eq c1 "#" || chr_eq c1 "*" then
            expand_loop f brace_depth true (mark_end (advance l1))
          else if chr_eq c1 "{" then (has_content, l1)
          else if isdigit c1 then
            expand_loop f brace_depth true
              (mark_end (advance_while isdigit false l1))
          else expand_loop f brace_depth true (mark_end l1)
      else if chr_eq c "{" then
        expand_loop f (brace_depth + 1) true (mark_end (advance l))
      else if chr_eq c "}" then
        if (brace_depth =? 0)%Z then (has_content, l)
        else expand_loop f (brace_depth - 1) true (mark_end (advance l))
      else expand_loop f brace_depth true (mark_end (advance l))
  end.

Definition scan_expand_content (l : Lexer) : bool * Lexer :=
  expand_loop (S (length (rest l))) 0 false l.

Definition is_empty {A : Type} (p : list A) : bool :=
  match p with [] => true | _ => false end.

Definition not_percent (c : ascii) : bool := negb (chr_eq c "%").

(** The brace depth a [%]-free text leaves, [None] when a [}] would close
    at depth 0 inside it. *)
Fixpoint brace_walk (d : Z) (p : list ascii) : option Z :=
  match p with
  | [] => Some d
  | c :: p' =>
      if chr_eq c "{" then brace_walk (d + 1) p'
      else if chr_eq c "}" then
        if (d =? 0)%Z then None else brace_walk (d - 1) p'
      else brace_walk d p'
  end.

(** A character the shell-block scanner copies without a case of its own. *)
Definition shell_plain (c : ascii) : bool :=
  negb (chr_eq c "%" || chr_eq c "(" || chr_eq c ")").

Fixpoint shell_loop (fuel : nat) (paren_depth : Z) (has_content : bool)
    (l : Lexer) : bool * Lexer :=
  match fuel with
  | O => (has_content, l)
  | S f =>
      if eof l then (has_content, l) else
      let c := lookahead l in
      if chr_eq c "%" then
        let l1 := advance (mark_end l) in
        if eof l1 then (true, mark_end l1)
        else if is_macro_start (lookahead l1) then (has_content, l1)
        else shell_loop f paren_depth true (mark_end l1)
      else if chr_eq c "(" then
        shell_loop f (paren_depth + 1) true (mark_end (advance l))
      else if chr_eq c ")" then
        if (paren_depth =? 0)%Z then (has_content, l)
        else shell_loop f (paren_depth - 1) true (mark_end (advance l))
      else shell_loop f paren_depth true (mark_end (advance l))
  end.

Definition scan_shell_content (l : Lexer) : bool * Lexer :=
  shell_loop (S (length (rest l))) 0 false l.

(** ** Section-keyword lookahead *)

(** [while (is_identifier_char(lookahead) && id_len < room) { buf[id_len++]
    = lookahead; advance; }], [room] being the characters still free in
    the buffer (its size minus one, for the NUL). *)
Fixpoint buffer_ident (room : nat) (l : Lexer) : list ascii * Lexer :=
  match room with
  | O => ([], l)
  | S r =>
      if is_identifier_char (lookahead l) then
        let '(b, l') := buffer_ident r (advance l) in (lookahead l :: b, l')
      else ([], l)
  end.

Definition MAX_LOOKAHEAD_LINES : Z := 2000.

(** The locals of the loop of [conditional_body_has_section]. *)
Record CState := mkCState {
  clex : Lexer;
  nesting : Z;
  lines_scanned : Z;
  at_line_start : bool
}.

Inductive COutcome :=
  | CCont (s : CState)
  | CRet (s : CState) (result : bool).

Definition is_cond_opener (id : list ascii) (len : nat) : bool :=
  strequal "if" id len || strequal "ifarch" id len ||
  strequal "ifnarch" id len || strequal "ifos" id len ||
  strequal "ifnos" id len.

(** One iteration of the loop body; [CRet] is a [return] from inside it. *)
Definition cbhs_step (s : CState) : COutcome :=
  let l := clex s in
  let n := nesting s in
  let ln := lines_scanned s in
  let c := lookahead l in
  if chr_eq c cr || chr_eq c nl then
    let l1 := advance l in
    let l2 := if chr_eq c cr && chr_eq (lookahead l1) nl then advance l1
              else l1 in
    CCont (mkCState l2 n (ln + 1) true)
  else if chr_eq c " " || chr_eq c tab then
    CCont (mkCState (advance l) n ln (at_line_start s))
  else if chr_eq c "%" && at_line_start s then
    let '(id, l2) := buffer_ident 31 (advance l) in
    let len := length id in
    if 0 <? len then
      if strequal "endif" id len then
        if (n - 1 =? 0)%Z then CRet (mkCState l2 (n - 1) ln false) false
        else CCont (mkCState l2 (n - 1) ln false)
      else if is_cond_opener id len then CCont (mkCState l2 (n + 1) ln false)
      else if is_section_keyword id len then CRet (mkCState l2 n ln false) true
      else CCont (mkCState l2 n ln false)
    else CCont (mkCState l2 n ln false)
  else CCont (mkCState (advance l) n ln false).

Definition cbhs_guard (s : CState) : bool :=
  negb (eof (clex s)) && (lines_scanned s <? MAX_LOOKAHEAD_LINES)%Z.

(** The loop: the result and the locals at the point it was reported. *)
Fixpoint cbhs_loop (fuel : nat) (s : CState) : bool * CState :=
  match fuel with
  | O => (false, s)
  | S f =>
      if cbhs_guard s then
        match cbhs_step s with
        | CCont s' => cbhs_loop f s'
        | CRet s' b => (b, s')
        end
      else (false, s)
  end.

Definition cbhs_init (l : Lexer) : CState := mkCState l 1 0 true.

Definition cbhs_run (l : Lexer) : bool * CState :=
  cbhs_loop (S (length (rest l))) (cbhs_init l).

Definition conditional_body_has_section (l : Lexer) : bool * Lexer :=
  let '(b, s) := cbhs_run l in (b, clex s).


(** The states the loop passes through: every state on the way passed
    the loop guard and its iteration ended with [continue]. *)
Inductive cbhs_reach : CState -> CState -> Prop :=
  | cbhs_reach_refl : forall s, cbhs_reach s s
  | cbhs_reach_step : forall s s1 s2,
      cbhs_guard s = true -> cbhs_step s = CCont s1 ->
      cbhs_reach s1 s2 -> cbhs_reach s s2.

(** A nested conditional body, as it follows the first [%if]. *)
Definition nested_body : list ascii :=
  s2l " A" ++ [nl] ++ s2l "%if B" ++ [nl] ++ s2l "%endif" ++ [nl] ++
  s2l "%endif".



(** A body with no closer whose only section keyword comes after [n] line
    breaks. *)
Definition late_section_body (n : nat) : list ascii :=
  s2l " A" ++ repeat nl n ++ s2l "%build" ++ [nl].

(** ** The macro matcher *)

(** [while (is_identifier_char(lookahead)) { advance; id_len++; }]: the
    characters consumed past a full buffer, and how many. *)
Fixpoint count_ident_rest_f (fuel : nat) (l : Lexer) : nat * Lexer :=
  match fuel with
  | O => (0, l)
  | S f =>
      if is_identifier_char (lookahead l) then
        let '(k, l') := count_ident_rest_f f (advance l) in (S k, l')
      else (0, l)
  end.

Definition count_ident_rest (l : Lexer) : nat * Lexer :=
  count_ident_rest_f (length (rest l)) l.

Definition scan_macro (l0 : Lexer) (valid : ValidSymbols) : bool * Lexer :=
  let c := lookahead l0 in
  let l := mark_end l0 in
  if chr_eq c "%" then
    if valid ESCAPED_PERCENT then
      (true, set_result (tok_id ESCAPED_PERCENT) (mark_end (advance l)))
    else (false, l)
  else if chr_eq c "!" then
    if negb (valid NEGATED_MACRO) then (false, l) else
    let l1 := advance l in
    if chr_eq (lookahead l1) "?" then (false, l1)
    else if negb (is_identifier_start (lookahead l1)) then (false, l1)
    else
      (true, set_result (tok_id NEGATED_MACRO)
               (mark_end (advance_while is_identifier_char false l1)))
  else if chr_eq c "*" then
    if negb (valid SPECIAL_MACRO) then (false, l) else
    let l1 := advance l in
    let l2 := if chr_eq (lookahead l1) "*" then advance l1 else l1 in
    (true, set_result (tok_id SPECIAL_MACRO) (mark_end l2))
  else if chr_eq c "#" then
    if negb (valid SPECIAL_MACRO) then (false, l) else
    (true, set_result (tok_id SPECIAL_MACRO) (mark_end (advance l)))
  else if isdigit c then
    if negb (valid SPECIAL_MACRO) then (false, l) else
    (true, set_result (tok_id SPECIAL_MACRO)
             (mark_end (advance_while isdigit false l)))
  else if is_identifier_start c then
    if negb (valid SIMPLE_MACRO) then (false, l) else
    let '(id_buf, l1) := buffer_ident 63 l in
    let '(extra, l2) := count_ident_rest l1 in
    let id_len := length id_buf + extra in
    if is_keyword id_buf id_len then (false, l2)
    else if is_patch_legacy id_buf id_len then (false, l2)
    else if is_nil id_buf id_len then
      if valid SPECIAL_MACRO then
        (true, set_result (tok_id SPECIAL_MACRO) (mark_end l2))
      else (false, l2)
    else (true, set_result (tok_id SIMPLE_MACRO) (mark_end l2))
  else (false, l).

(** ** Scanner state and the conditional classifier *)

Record Scanner := mkScanner {
  lookahead_cache_valid : bool;
  lookahead_has_section : bool
}.

Definition conditional_body_has_section_cached (sc : Scanner) (l : Lexer)
    : bool * Scanner * Lexer :=
  if lookahead_cache_valid sc then (lookahead_has_section sc, sc, l)
  else
    let '(result, l') := conditional_body_has_section l in
    (result, mkScanner true result, l').

Record CondTokens := mkCondTokens {
  top : TokenType;
  subsection : TokenType;
  scriptlet : TokenType;
  files : TokenType;
  top_valid : bool;
  subsection_valid : bool;
  scriptlet_valid : bool;
  files_valid : bool
}.

Record CondKeyword := mkCondKeyword {
  kw_name : string;
  kw_top : TokenType;
  kw_subsection : TokenType;
  kw_scriptlet : TokenType;
  kw_files : TokenType
}.

Definition COND_KEYWORDS : list CondKeyword :=
  [ mkCondKeyword "if" TOP_LEVEL_IF SUBSECTION_IF SCRIPTLET_IF FILES_IF;
    mkCondKeyword "ifarch" TOP_LEVEL_IFARCH SUBSECTION_IFARCH SCRIPTLET_IFARCH
      FILES_IFARCH;
    mkCondKeyword "ifnarch" TOP_LEVEL_IFNARCH SUBSECTION_IFNARCH
      SCRIPTLET_IFNARCH FILES_IFNARCH;
    mkCondKeyword "ifos" TOP_LEVEL_IFOS SUBSECTION_IFOS SCRIPTLET_IFOS
      FILES_IFOS;
    mkCondKeyword "ifnos" TOP_LEVEL_IFNOS SUBSECTION_IFNOS SCRIPTLET_IFNOS
      FILES_IFNOS ]%string.

Definition with_cache_invalid (sc : Scanner) : Scanner :=
  mkScanner false (lookahead_has_section sc).

Definition select_conditional_token_type (sc : Scanner) (l : Lexer)
    (ctx : CondTokens) : TokenType * Scanner * Lexer :=
  if files_valid ctx then (files ctx, sc, l)
  else if subsection_valid ctx && negb (top_valid ctx)
          && negb (scriptlet_valid ctx) then (subsection ctx, sc, l)
  else if scriptlet_valid ctx && negb (top_valid ctx)
          && negb (subsection_valid ctx) then
    (scriptlet ctx, with_cache_invalid sc, l)
  else if top_valid ctx && negb (subsection_valid ctx)
          && negb (scriptlet_valid ctx) then
    (top ctx, with_cache_invalid sc, l)
  else if top_valid ctx && (subsection_valid ctx || scriptlet_valid ctx) then
    let '(has_section, sc1, l1) := conditional_body_has_section_cached sc l in
    let sc2 := with_cache_invalid sc1 in
    if has_section then (top ctx, sc2, l1)
    else ((if subsection_valid ctx then subsection ctx else scriptlet ctx),
          sc2, l1)
  else if subsection_valid ctx then (subsection ctx, sc, l)
  else if scriptlet_valid ctx then (scriptlet ctx, sc, l)
  else (top ctx, sc, l).

Definition cond_tokens_of (kw : CondKeyword) (valid : ValidSymbols)
    : CondTokens :=
  mkCondTokens (kw_top kw) (kw_subsection kw) (kw_scriptlet kw) (kw_files kw)
    (valid (kw_top kw)) (valid (kw_subsection kw)) (valid (kw_scriptlet kw))
    (valid (kw_files kw)).

Definition any_conditional_valid (valid : ValidSymbols) : bool :=
  existsb (fun kw => valid (kw_top kw) || valid (kw_subsection kw) ||
                     valid (kw_scriptlet kw) || valid (kw_files kw))
    COND_KEYWORDS.

Fixpoint try_scan_conditional_in (table : list CondKeyword) (sc : Scanner)
    (l : Lexer) (valid : ValidSymbols) (keyword : list ascii)
    (keyword_len : nat) : bool * Scanner * Lexer :=
  match table with
  | [] => (false, sc, l)
  | kw :: table' =>
      if negb (strequal (kw_name kw) keyword keyword_len) then
        try_scan_conditional_in table' sc l valid keyword keyword_len
      else
        let ctx := cond_tokens_of kw valid in
        if negb (top_valid ctx) && negb (subsection_valid ctx) &&
           negb (scriptlet_valid ctx) && negb (files_valid ctx) then
          (false, sc, l)
        else
          let '(t, sc', l') :=
            select_conditional_token_type sc (mark_end l) ctx in
          (true, sc', set_result (tok_id t) l')
  end.

Definition try_scan_conditional (sc : Scanner) (l : Lexer)
    (valid : ValidSymbols) (keyword : list ascii) (keyword_len : nat)
    : bool * Scanner * Lexer :=
  try_scan_conditional_in COND_KEYWORDS sc l valid keyword keyword_len.

(** ** Section tokens, parametric macros and the main scan *)

Definition any_section_token_valid (valid : ValidSymbols) : bool :=
  valid SECTION_PREP || valid SECTION_GENERATE_BUILDREQUIRES ||
  valid SECTION_CONF || valid SECTION_BUILD || valid SECTION_INSTALL ||
  valid SECTION_CHECK || valid SECTION_CLEAN.

Definition in_scriptlet_context (valid : ValidSymbols) : bool :=
  valid SCRIPTLET_IF || valid SCRIPTLET_IFARCH || valid SCRIPTLET_IFNARCH ||
  valid SCRIPTLET_IFOS || valid SCRIPTLET_IFNOS.

Definition SECTION_KEYWORDS_MAP : list (string * nat * TokenType) :=
  [ ("prep", 4, SECTION_PREP);
    ("generate_buildrequires", 22, SECTION_GENERATE_BUILDREQUIRES);
    ("conf", 4, SECTION_CONF);
    ("build", 5, SECTION_BUILD);
    ("install", 7, SECTION_INSTALL);
    ("check", 5, SECTION_CHECK);
    ("clean", 5, SECTION_CLEAN) ]%string.

Definition lookup_section_keyword (id : list ascii) (len : nat)
    : option (string * nat * TokenType) :=
  find (fun kw => let '(name, _, _) := kw in strequal name id len)
    SECTION_KEYWORDS_MAP.

Definition is_cond_keyword (id : list ascii) (len : nat) : bool :=
  existsb (fun kw => strequal (kw_name kw) id len) COND_KEYWORDS.

Definition try_scan_parametric_macro (l : Lexer) (allow_parametric : bool)
    (keyword : list ascii) (keyword_len : nat) : bool * Lexer :=
  if negb allow_parametric then (false, l)
  else if is_keyword keyword keyword_len ||
          is_files_keyword keyword keyword_len ||
          is_patch_legacy keyword keyword_len || is_nil keyword keyword_len
  then (false, l)
  else if negb (is_horizontal_space (lookahead l)) then (false, l)
  else (true, set_result (tok_id PARAMETRIC_MACRO_NAME) (mark_end l)).

(** [consume_percent_and_identifier]: whether it succeeded, the buffer,
    the tracked length [*id_len] and the lexer. *)
Definition consume_percent_and_identifier (l : Lexer) (buf_size : nat)
    : bool * list ascii * nat * Lexer :=
  if negb (chr_eq (lookahead l) "%") then (false, [], 0, l) else
  let l1 := advance l in
  if negb (is_identifier_start (lookahead l1)) then (false, [], 0, l1) else
  let '(id_buf, l2) := buffer_ident (buf_size - 1) l1 in
  let '(extra, l3) := count_ident_rest l2 in
  let id_len := length id_buf + extra in
  (0 <? id_len, id_buf, id_len, l3).

Definition skip_leading_whitespace (l : Lexer) : Lexer :=
  advance_while is_horizontal_space true l.

(** Step 0 of [rpmspec_scan]: [inl] is a returned NEWLINE token, [inr]
    the lexer once the whitespace loop has ended. *)
Fixpoint newline_filter_f (fuel : nat) (valid : ValidSymbols) (l : Lexer)
    : Lexer + Lexer :=
  match fuel with
  | O => inr l
  | S f =>
      let c := lookahead l in
      if isspace c then
        if chr_eq c nl then
          if valid NEWLINE then
            inl (set_result (tok_id NEWLINE) (mark_end (advance l)))
          else newline_filter_f f valid (lex_advance true l)
        else if chr_eq c cr then
          if valid NEWLINE then
            let l1 := advance l in
            let l2 := if chr_eq (lookahead l1) nl then advance l1 else l1 in
            inl (set_result (tok_id NEWLINE) (mark_end l2))
          else newline_filter_f f valid (lex_advance true l)
        else newline_filter_f f valid (lex_advance true l)
      else inr l
  end.

Definition newline_filter (valid : ValidSymbols) (l : Lexer) : Lexer + Lexer :=
  newline_filter_f (S (length (rest l))) valid l.

(** Step 1 of [rpmspec_scan]: [inl] is a returned token, [inr] the lexer
    handed on to step 2 (possibly advanced past [%] and an identifier). *)
Definition scan_percent_tokens (sc : Scanner) (l : Lexer)
    (valid : ValidSymbols) : (Scanner * Lexer) + Lexer :=
  let conditionals_valid := any_conditional_valid valid in
  let parametric_valid := valid PARAMETRIC_MACRO_NAME in
  let sections_valid := any_section_token_valid valid in
  if conditionals_valid || parametric_valid || sections_valid then
    let allow_parametric := negb (in_scriptlet_context valid) in
    let l1 := skip_leading_whitespace l in
    if chr_eq (lookahead l1) "%" then
      let l2 := mark_end l1 in
      let '(ok, keyword, keyword_len, l3) :=
        consume_percent_and_identifier l2 64 in
      if ok then
        let '(matched, sc', l4) :=
          if conditionals_valid && is_cond_keyword keyword keyword_len then
            try_scan_conditional sc l3 valid keyword keyword_len
          else (false, sc, l3) in
        if matched then inl (sc', l4) else
        let section :=
          if sections_valid && negb (is_identifier_char (lookahead l4)) then
            match lookup_section_keyword keyword keyword_len with
            | Some (_, _, t) =>
                if valid t then Some (set_result (tok_id t) (mark_end l4))
                else None
            | None => None
            end
          else None in
        match section with
        | Some l5 => inl (sc', l5)
        | None =>
            let '(pm, l6) :=
              if parametric_valid then
                try_scan_parametric_macro l4 allow_parametric keyword
                  keyword_len
              else (false, l4) in
            if pm then inl (sc', l6) else inr l6
        end
      else inr l3
    else inr l1
  else inr l.

(** Steps 2 and 3 of [rpmspec_scan]. *)
Definition scan_macro_or_content (l : Lexer) (valid : ValidSymbols)
    : bool * Lexer :=
  let macros_valid :=
    valid SIMPLE_MACRO || valid NEGATED_MACRO || valid SPECIAL_MACRO ||
    valid ESCAPED_PERCENT in
  if macros_valid then scan_macro l valid else
  let '(e, l1) := if valid EXPAND_CODE then scan_expand_content l
                  else (false, l) in
  if e then (true, set_result (tok_id EXPAND_CODE) l1) else
  let '(s, l2) := if valid SCRIPT_CODE then scan_shell_content l1
                  else (false, l1) in
  if s then (true, set_result (tok_id SCRIPT_CODE) l2) else (false, l2).

Definition rpmspec_scan (sc : Scanner) (l : Lexer) (valid : ValidSymbols)
    : bool * Scanner * Lexer :=
  let step0 :=
    if negb (valid EXPAND_CODE) && negb (valid SCRIPT_CODE) then
      newline_filter valid l
    else inr l in
  match step0 with
  | inl l' => (true, sc, l')
  | inr l1 =>
      match scan_percent_tokens sc l1 valid with
      | inl (sc', l') => (true, sc', l')
      | inr l2 => let '(b, l3) := scan_macro_or_content l2 valid in (b, sc, l3)
      end
  end.

(** The token ids of the section headers. *)
Definition is_section_sym (n : nat) : bool :=
  existsb (fun kw => let '(_, _, t) := kw in n =? tok_id t)
    SECTION_KEYWORDS_MAP.

(** The admissible-kind array with exactly the listed kinds set. *)
Definition valid_of (ts : list TokenType) : ValidSymbols :=
  fun t => existsb (fun u => tok_id u =? tok_id t) ts.

(** ** State (de)serialization *)

Definition TREE_SITTER_SERIALIZATION_BUFFER_SIZE : nat := 1024.

Definition b2byte (b : bool) : Z := if b then 1%Z else 0%Z.

(** The bytes written to the buffer; their number is the return value. *)
Definition rpmspec_serialize (sc : Scanner) : list Z :=
  if TREE_SITTER_SERIALIZATION_BUFFER_SIZE <? 2 then []
  else [b2byte (lookahead_cache_valid sc); b2byte (lookahead_has_section sc)].

(** [rpmspec_deserialize(scanner, buffer, length)] with [length] the length
    of [buffer]; an absent buffer is the empty list.  The previous state is
    overwritten in every case. *)
Definition rpmspec_deserialize (buffer : list Z) : Scanner :=
  if length buffer <? 2 then mkScanner false false
  else mkScanner (negb (nth 0 buffer 0%Z =? 0)%Z)
                 (negb (nth 1 buffer 0%Z =? 0)%Z).

Definition rpmspec_create : Scanner := mkScanner false false.

(** The scanner states that arise in a parse: the zero-initialized state of
    [create], any state after a scan, and a state restored from what
    [serialize] wrote (or from an absent or short payload). *)
Inductive reachable : Scanner -> Prop :=
  | reach_create : reachable rpmspec_create
  | reach_scan : forall sc l valid,
      reachable sc -> reachable (snd (fst (rpmspec_scan sc l valid)))
  | reach_restore : forall sc,
      reachable sc -> reachable (rpmspec_deserialize (rpmspec_serialize sc))
  | reach_short : forall buf,
      (length buf < 2)%nat -> reachable (rpmspec_deserialize buf).

(** ** The companion scanner wrapping tree-sitter-bash *)

Module RpmBash.

Definition is_macro_name_char (c : ascii) (first : bool) : bool :=
  if first then in_range 97 122 c || in_range 65 90 c || chr_eq c "_"
  else in_range 97 122 c || in_range 65 90 c || in_range 48 57 c ||
       chr_eq c "_".

Definition is_simple_macro (name : list ascii) (len : nat) : bool := 2 <=? len.

Inductive ScanNewlineResult :=
  | SCAN_NOT_AT_NEWLINE
  | SCAN_MATCHED_KEYWORD
  | SCAN_NO_KEYWORD.

(** [while (is_macro_name_char(lookahead, name_len == 0) && name_len <
    sizeof(name_buf) - 1)]: [room] free characters, [first] when nothing
    has been stored yet. *)
Fixpoint read_macro_name (room : nat) (first : bool) (l : Lexer)
    : list ascii * Lexer :=
  match room with
  | O => ([], l)
  | S r =>
      if is_macro_name_char (lookahead l) first then
        let '(b, l') := read_macro_name r false (advance l) in
        (lookahead l :: b, l')
      else ([], l)
  end.

Definition is_peek_space (c : ascii) : bool :=
  chr_eq c " " || chr_eq c tab || chr_eq c nl.

(** The input right after the blank run holds a [%] and a name of at
    least two characters. *)
Definition directive_ahead (r : list ascii) : bool :=
  match r with
  | c0 :: c1 :: c2 :: _ =>
      chr_eq c0 "%" && is_macro_name_char c1 true &&
      is_macro_name_char c2 false
  | _ => false
  end.

Section Wrapper.

(** The wrapped bash scanner is opaque: its payload, the index of its
    NEWLINE token and its scan function. *)
Variable BashPayload : Type.
Variable NEWLINE_SYM : nat.
Variable bash_external_scanner_scan :
  BashPayload -> Lexer -> (nat -> bool) -> bool * BashPayload * Lexer.

Definition scan_newline_before_rpm_statement (l : Lexer)
    (valid : nat -> bool) : ScanNewlineResult * Lexer :=
  if negb (valid NEWLINE_SYM) || negb (chr_eq (lookahead l) nl) then
    (SCAN_NOT_AT_NEWLINE, l)
  else
    let l1 := mark_end (advance (mark_end l)) in
    let l2 := advance_while is_peek_space false l1 in
    if negb (chr_eq (lookahead l2) "%") then (SCAN_NO_KEYWORD, l2) else
    let '(name_buf, l3) := read_macro_name 15 true (advance l2) in
    if is_simple_macro name_buf (length name_buf) then
      (SCAN_MATCHED_KEYWORD, set_result NEWLINE_SYM l3)
    else (SCAN_NO_KEYWORD, l3).

Definition rpmbash_scan (payload : BashPayload) (l : Lexer)
    (valid : nat -> bool) : bool * BashPayload * Lexer :=
  match scan_newline_before_rpm_statement l valid with
  | (SCAN_MATCHED_KEYWORD, l') => (true, payload, l')
  | (SCAN_NO_KEYWORD, l') => (false, payload, l')
  | (SCAN_NOT_AT_NEWLINE, l') => bash_external_scanner_scan payload l' valid
  end.

End Wrapper.

End RpmBash.

(** ** The selection rule of the specification *)

(** The selection rule as the specification words it (section 4.1). *)
Definition spec_conditional_choice (ctx : CondTokens) (has_section : bool)
    : TokenType :=
  let t := top_valid ctx in
  let su := subsection_valid ctx in
  let sc := scriptlet_valid ctx in
  if files_valid ctx then files ctx
  else if su && negb sc && negb t then subsection ctx
  else if sc && negb su && negb t then scriptlet ctx
  else if t && negb su && negb sc then top ctx
  else if t && (su || sc) then
    if has_section then top ctx
    else if su then subsection ctx else scriptlet ctx
  else if su then subsection ctx
  else if sc then scriptlet ctx
  else top ctx.

Definition exclusive_context (ctx : CondTokens) : bool :=
  files_valid ctx ||
  (subsection_valid ctx && negb (scriptlet_valid ctx) && negb (top_valid ctx)) ||
  (scriptlet_valid ctx && negb (subsection_valid ctx) && negb (top_valid ctx)) ||
  (top_valid ctx && negb (subsection_valid ctx) && negb (scriptlet_valid ctx)).

(** ** Predicates of the analysis *)

(** [l'] is [l] moved forward: the position has not decreased and the
    unread input is what is left of [l]'s once the characters between the
    two positions are consumed. *)
Definition fwd (l l' : Lexer) : Prop :=
  (pos l <= pos l')%nat /\ rest l' = skipn (pos l' - pos l) (rest l).

(** The token start is not past the current position. *)
Definition pre_ok (l : Lexer) : Prop := (start l <= pos l)%nat.

(** A non-empty token: its end mark is after its start and not past the
    current position. *)
Definition tok_ok (l : Lexer) : Prop := (start l < mark l /\ mark l <= pos l)%nat.

(** Moved forward with the token start and the end mark untouched. *)
Definition nomark (l l' : Lexer) : Prop :=
  fwd l l' /\ start l' = start l /\ mark l' = mark l.

(** Moved forward with the token start untouched. *)
Definition fwd_keep (l l' : Lexer) : Prop := fwd l l' /\ start l' = start l.

(** The result symbol is the id of a kind marked admissible. *)
Definition admissible (valid : ValidSymbols) (l : Lexer) : Prop :=
  exists t, valid t = true /\ result_symbol l = tok_id t.

(** The token ids of the conditional kinds. *)
Definition is_cond_sym (n : nat) : bool :=
  existsb (fun kw => (n =? tok_id (kw_top kw)) || (n =? tok_id (kw_subsection kw)) ||
                     (n =? tok_id (kw_scriptlet kw)) || (n =? tok_id (kw_files kw)))
    COND_KEYWORDS.

(** The parenthesis depth a [%]-free text leaves, [None] when a [)]
    would close at depth 0 inside it. *)
Fixpoint paren_walk (d : Z) (p : list ascii) : option Z :=
  match p with
  | [] => Some d
  | c :: p' =>
      if chr_eq c "(" then paren_walk (d + 1) p'
      else if chr_eq c ")" then
        if (d =? 0)%Z then None else paren_walk (d - 1) p'
      else paren_walk d p'
  end.

(** The name is an identifier that [is_keyword] reserves, given as
    [scan_macro] gives it: the first 63 characters in the buffer and the
    full length. *)
Definition reserved_name_ok (name : string) : bool :=
  match s2l name with
  | c :: w => is_identifier_start c && forallb is_identifier_char w &&
              is_keyword (firstn 63 (c :: w)) (S (length w))
  | [] => false
  end.

(** * Properties *)

(** ** The lookahead cache along a parse *)

Lemma select_scanner_cases (sc : Scanner) (l : Lexer) (ctx : CondTokens) :
  snd (fst (select_conditional_token_type sc l ctx)) = sc \/
  lookahead_cache_valid (snd (fst (select_conditional_token_type sc l ctx)))
    = false.
Proof.
  unfold select_conditional_token_type.
  destruct (files_valid ctx); [now left|].
  destruct (subsection_valid ctx), (top_valid ctx), (scriptlet_valid ctx);
    simpl; try (now left); try (now right);
    destruct (conditional_body_has_section_cached sc l) as [[[] sc1] l1];
    simpl; now right.
Qed.

Lemma try_scan_conditional_in_scanner_cases table sc l valid kw len :
  snd (fst (try_scan_conditional_in table sc l valid kw len)) = sc \/
  lookahead_cache_valid
    (snd (fst (try_scan_conditional_in table sc l valid kw len))) = false.
Proof.
  induction table as [|k table IH]; simpl; [now left|].
  destruct (negb (strequal (kw_name k) kw len)); [exact IH|].
  destruct (_ && _); [now left|].
  pose proof (select_scanner_cases sc (mark_end l) (cond_tokens_of k valid))
    as H.
  destruct (select_conditional_token_type sc (mark_end l)
              (cond_tokens_of k valid)) as [[t sc'] l']; exact H.
Qed.

Lemma rpmspec_scan_scanner_cases sc l valid :
  snd (fst (rpmspec_scan sc l valid)) = sc \/
  lookahead_cache_valid (snd (fst (rpmspec_scan sc l valid))) = false.
Proof.
  unfold rpmspec_scan.
  destruct (if negb (valid EXPAND_CODE) && negb (valid SCRIPT_CODE)
            then newline_filter valid l else inr l) as [l0|l1]; [now left|].
  unfold scan_percent_tokens.
  destruct (any_conditional_valid valid || valid PARAMETRIC_MACRO_NAME ||
            any_section_token_valid valid);
    [|destruct (scan_macro_or_content l1 valid); now left].
  destruct (chr_eq (lookahead (skip_leading_whitespace l1)) "%");
    [|destruct (scan_macro_or_content _ valid); now left].
  destruct (consume_percent_and_identifier
              (mark_end (skip_leading_whitespace l1)) 64)
    as [[[ok kw] len] l3].
  destruct ok; [|destruct (scan_macro_or_content l3 valid); now left].
  pose proof (try_scan_conditional_in_scanner_cases COND_KEYWORDS sc l3
                valid kw len) as H.
  unfold try_scan_conditional.
  destruct (any_conditional_valid valid && is_cond_keyword kw len).
  - destruct (try_scan_conditional_in COND_KEYWORDS sc l3 valid kw len)
      as [[m sc'] l4].
    destruct m; [exact H|].
    destruct (if any_section_token_valid valid &&
                 negb (is_identifier_char (lookahead l4)) then _ else None)
      as [l5|]; [exact H|].
    destruct (if valid PARAMETRIC_MACRO_NAME then _ else _) as [[] l6];
      [exact H|].
    destruct (scan_macro_or_content l6 valid); now left.
  - destruct (if any_section_token_valid valid &&
                 negb (is_identifier_char (lookahead l3)) then _ else None)
      as [l5|]; [now left|].
    destruct (if valid PARAMETRIC_MACRO_NAME then _ else _) as [[] l6];
      [now left|].
    destruct (scan_macro_or_content l6 valid); now left.
Qed.

Lemma reachable_cache_invalid (sc : Scanner) :
  reachable sc -> lookahead_cache_valid sc = false.
Proof.
  induction 1 as [| sc l valid _ IH | sc _ IH | buf Hb].
  - reflexivity.
  - destruct (rpmspec_scan_scanner_cases sc l valid) as [-> | H]; auto.
  - destruct sc as [v h]; simpl in IH; subst v.
    unfold rpmspec_serialize, rpmspec_deserialize; simpl.
    reflexivity.
  - unfold rpmspec_deserialize.
    apply Nat.ltb_lt in Hb; rewrite Hb; reflexivity.
Qed.

(** C1: for every row of the conditional keyword table and every set of
    admissible kinds, on every scanner state that arises in a parse the
    classifier picks the kind by the priority files, exclusive choice,
    lookahead (a body with a section keyword gives the top-level variant,
    otherwise subsection before scriptlet), fallback subsection, scriptlet,
    top; the lookahead being the scan of the conditional body. *)
Theorem conditional_choice_priority (kw : CondKeyword) (valid : ValidSymbols)
    (sc : Scanner) (l : Lexer) :
  In kw COND_KEYWORDS -> reachable sc ->
  fst (fst (select_conditional_token_type sc l (cond_tokens_of kw valid))) =
  spec_conditional_choice (cond_tokens_of kw valid)
    (fst (conditional_body_has_section l)).
Proof.
  intros _ Hr.
  pose proof (reachable_cache_invalid sc Hr) as Hc.
  destruct sc as [v h]; simpl in Hc; subst v.
  unfold select_conditional_token_type, spec_conditional_choice,
    conditional_body_has_section_cached; simpl.
  destruct (conditional_body_has_section l) as [hs l'] eqn:E; simpl.
  destruct (valid (kw_files kw)), (valid (kw_subsection kw)),
    (valid (kw_top kw)), (valid (kw_scriptlet kw)), hs; reflexivity.
Qed.

(** C3: the cache is invalid after any decision that consulted it, after
    any decision in an exclusive context (on the states arising in a
    parse), and after every scan invocation. *)
Theorem lookahead_cache_single_use :
  (forall sc l ctx,
     files_valid ctx = false -> top_valid ctx = true ->
     subsection_valid ctx || scriptlet_valid ctx = true ->
     lookahead_cache_valid
       (snd (fst (select_conditional_token_type sc l ctx))) = false) /\
  (forall sc l ctx,
     reachable sc -> exclusive_context ctx = true ->
     lookahead_cache_valid
       (snd (fst (select_conditional_token_type sc l ctx))) = false) /\
  (forall sc l valid,
     reachable sc ->
     lookahead_cache_valid (snd (fst (rpmspec_scan sc l valid))) = false).
Proof.
  split; [|split].
  - intros sc l ctx Hf Ht Hs.
    unfold select_conditional_token_type; rewrite Hf, Ht.
    destruct (subsection_valid ctx), (scriptlet_valid ctx);
      try discriminate; simpl;
      destruct (conditional_body_has_section_cached sc l) as [[[] sc1] l1];
      reflexivity.
  - intros sc l ctx Hr _.
    destruct (select_scanner_cases sc l ctx) as [-> | H]; auto.
    now apply reachable_cache_invalid.
  - intros sc l valid Hr.
    apply reachable_cache_invalid, reach_scan, Hr.
Qed.

(** The subsection-only branch leaves the cache as it was: the invariant
    above rests on the cache never being valid on entry. *)
Lemma select_subsection_only_keeps_cache (l : Lexer) (ctx : CondTokens) :
  files_valid ctx = false -> subsection_valid ctx = true ->
  top_valid ctx = false -> scriptlet_valid ctx = false ->
  snd (fst (select_conditional_token_type (mkScanner true true) l ctx)) =
  mkScanner true true.
Proof.
  intros Hf Hs Ht Hc; unfold select_conditional_token_type.
  now rewrite Hf, Hs, Ht, Hc.
Qed.

(** ** Serialization *)

(** C9: [serialize] writes exactly the two flag bytes, [deserialize] of
    them gives back the state, and a payload shorter than two bytes
    (absent included) resets the cache to invalid/false. *)
Theorem serialize_roundtrip :
  (forall sc,
     rpmspec_serialize sc =
       [b2byte (lookahead_cache_valid sc); b2byte (lookahead_has_section sc)] /\
     length (rpmspec_serialize sc) = 2%nat /\
     rpmspec_deserialize (rpmspec_serialize sc) = sc) /\
  (forall buf, (length buf < 2)%nat -> rpmspec_deserialize buf = mkScanner false false).
Proof.
  split.
  - intros [[] []]; repeat split.
  - intros buf Hb; unfold rpmspec_deserialize.
    apply Nat.ltb_lt in Hb; now rewrite Hb.
Qed.

(** ** Lexer loops over a known prefix *)

Lemma lex_advance_cons (skip : bool) (c : ascii) (r : list ascii)
    (p m s rs : nat) :
  lex_advance skip (mkLexer (c :: r) p m s rs) =
  mkLexer r (S p) m (if skip then S p else s) rs.
Proof. reflexivity. Qed.

Lemma lex_advance_length (skip : bool) (l : Lexer) :
  length (rest (lex_advance skip l)) = pred (length (rest l)).
Proof. destruct l as [[|c r] p m s rs]; reflexivity. Qed.

Section AdvanceWhile.

Variable pred : ascii -> bool.
Hypothesis pred_nul : pred NUL = false.

Lemma advance_while_f_app (skip : bool) :
  forall w r f l,
    rest l = w ++ r -> forallb pred w = true -> pred (hd NUL r) = false ->
    (length w <= f)%nat ->
    advance_while_f f pred skip l =
    mkLexer r (pos l + length w) (mark l)
      (if skip && (0 <? length w) then pos l + length w else start l)
      (result_symbol l).
Proof.
  induction w as [|c w IH]; intros r f l Hl Hw Hr Hf;
    destruct l as [rl p m s rs]; simpl in *; subst rl.
  - destruct f as [|f]; simpl.
    + rewrite Nat.add_0_r; destruct skip; reflexivity.
    + unfold lookahead; simpl.
      destruct r as [|c r]; simpl in *; rewrite ?pred_nul, ?Hr;
        rewrite Nat.add_0_r; destruct skip; reflexivity.
  - apply andb_prop in Hw as [Hc Hw].
    destruct f as [|f]; [lia|]; simpl.
    unfold lookahead; simpl; rewrite Hc, lex_advance_cons.
    rewrite (IH r f); simpl; auto; [|lia].
    f_equal; try lia.
    destruct skip, w; simpl; lia.
Qed.

Lemma advance_while_app (skip : bool) :
  forall w r l,
    rest l = w ++ r -> forallb pred w = true -> pred (hd NUL r) = false ->
    advance_while pred skip l =
    mkLexer r (pos l + length w) (mark l)
      (if skip && (0 <? length w) then pos l + length w else start l)
      (result_symbol l).
Proof.
  intros w r l Hl Hw Hr; unfold advance_while.
  apply advance_while_f_app; auto.
  rewrite Hl, length_app; lia.
Qed.

End AdvanceWhile.

Lemma count_ident_rest_f_app :
  forall w r f l,
    rest l = w ++ r -> forallb is_identifier_char w = true ->
    is_identifier_char (hd NUL r) = false -> (length w <= f)%nat ->
    count_ident_rest_f f l =
    (length w, mkLexer r (pos l + length w) (mark l) (start l)
                 (result_symbol l)).
Proof.
  induction w as [|c w IH]; intros r f l Hl Hw Hr Hf;
    destruct l as [rl p m s rs]; simpl in *; subst rl.
  - destruct f as [|f]; simpl; rewrite Nat.add_0_r; [reflexivity|].
    unfold lookahead; simpl.
    destruct r as [|c r]; simpl in *; rewrite ?Hr; reflexivity.
  - apply andb_prop in Hw as [Hc Hw].
    destruct f as [|f]; [lia|]; simpl.
    unfold lookahead; simpl; rewrite Hc.
    unfold advance; rewrite lex_advance_cons.
    rewrite (IH r f); simpl; auto; [|lia].
    do 2 f_equal; lia.
Qed.

Lemma count_ident_rest_app :
  forall w r l,
    rest l = w ++ r -> forallb is_identifier_char w = true ->
    is_identifier_char (hd NUL r) = false ->
    count_ident_rest l =
    (length w, mkLexer r (pos l + length w) (mark l) (start l)
                 (result_symbol l)).
Proof.
  intros w r l Hl Hw Hr; unfold count_ident_rest.
  apply count_ident_rest_f_app; auto.
  rewrite Hl, length_app; lia.
Qed.

Lemma buffer_ident_app :
  forall w r room l,
    rest l = w ++ r -> forallb is_identifier_char w = true ->
    (length w <= room)%nat ->
    (length w = room \/ is_identifier_char (hd NUL r) = false) ->
    buffer_ident room l =
    (w, mkLexer r (pos l + length w) (mark l) (start l) (result_symbol l)).
Proof.
  induction w as [|c w IH]; intros r room l Hl Hw Hroom Hr;
    destruct l as [rl p m s rs]; simpl in *; subst rl.
  - destruct room as [|room]; simpl; rewrite Nat.add_0_r; [reflexivity|].
    destruct Hr as [Hr|Hr]; [discriminate|].
    unfold lookahead; simpl.
    destruct r as [|c r]; simpl in *; rewrite ?Hr; reflexivity.
  - apply andb_prop in Hw as [Hc Hw].
    destruct room as [|room]; [lia|]; simpl.
    unfold lookahead at 1; simpl; rewrite Hc.
    unfold advance; rewrite lex_advance_cons.
    rewrite (IH r room); simpl; auto;
      [| lia | destruct Hr; [left; lia | right; assumption]].
    do 2 f_equal; lia.
Qed.

Lemma buffer_ident_length_rest (room : nat) (l : Lexer) :
  (length (rest (snd (buffer_ident room l))) <= length (rest l))%nat.
Proof.
  revert l; induction room as [|room IH]; intros l; simpl; [lia|].
  destruct (is_identifier_char (lookahead l)); simpl; [|lia].
  specialize (IH (advance l)).
  destruct (buffer_ident room (advance l)) as [b l']; simpl in *.
  unfold advance in IH; rewrite lex_advance_length in IH; lia.
Qed.

(** [consume_percent_and_identifier] on [%] followed by a complete
    identifier [w]: it succeeds, stores the first 63 characters and
    tracks the full length. *)
Lemma consume_percent_and_identifier_app :
  forall c w r l,
    rest l = "%"%char :: c :: w ++ r -> is_identifier_start c = true ->
    forallb is_identifier_char w = true ->
    is_identifier_char (hd NUL r) = false ->
    consume_percent_and_identifier l 64 =
    (true, firstn 63 (c :: w), S (length w),
     mkLexer r (pos l + S (S (length w))) (mark l) (start l)
       (result_symbol l)).
Proof.
  intros c w r l Hl Hc Hw Hr.
  destruct l as [rl p m s rs]; cbn [rest] in Hl; subst rl.
  assert (Hid : is_identifier_char c = true)
    by (unfold is_identifier_char; now rewrite Hc).
  assert (Hall : forallb is_identifier_char (c :: w) = true)
    by (cbn [forallb]; now rewrite Hid, Hw).
  pose proof (firstn_skipn 63 (c :: w)) as Hfs.
  rewrite <- Hfs in Hall.
  rewrite forallb_app in Hall; apply andb_prop in Hall as [H1 H2].
  assert (Hb : buffer_ident 63 (mkLexer (c :: w ++ r) (S p) m s rs) =
               (firstn 63 (c :: w),
                mkLexer (skipn 63 (c :: w) ++ r)
                  (S p + length (firstn 63 (c :: w))) m s rs)).
  { apply (buffer_ident_app (firstn 63 (c :: w)) (skipn 63 (c :: w) ++ r) 63
             (mkLexer (c :: w ++ r) (S p) m s rs)).
    - cbn [rest]; change (c :: w ++ r) with ((c :: w) ++ r).
      rewrite <- Hfs at 1; now rewrite app_assoc.
    - exact H1.
    - rewrite length_firstn; lia.
    - destruct (Nat.le_gt_cases 63 (length (c :: w))) as [Hle|Hgt].
      + left; rewrite length_firstn; lia.
      + right; rewrite skipn_all2 by lia; exact Hr. }
  unfold consume_percent_and_identifier.
  unfold lookahead at 1; cbn [rest].
  replace (negb (chr_eq "%"%char "%"%char)) with false by reflexivity.
  cbv iota.
  unfold advance; rewrite lex_advance_cons.
  unfold lookahead at 1; cbn [rest]; rewrite Hc; cbn [negb].
  replace (64 - 1)%nat with 63%nat by reflexivity.
  rewrite Hb.
  rewrite (count_ident_rest_app (skipn 63 (c :: w)) r); cbn [rest pos mark start result_symbol]; auto.
  apply (f_equal (@length ascii)) in Hfs; rewrite length_app in Hfs.
  cbn [length] in Hfs.
  replace (S p + length (firstn 63 (c :: w)) + length (skipn 63 (c :: w)))%nat
    with (p + S (S (length w)))%nat by lia.
  rewrite Hfs; reflexivity.
Qed.

(** ** The macro matcher *)

Ltac side_goal := first [reflexivity | assumption | discriminate | cbn; lia].

Lemma digits_from_cons (x : ascii) (xs : list ascii) :
  forall n i, digits_from (S i) n (x :: xs) = digits_from i n xs.
Proof.
  induction n as [|n IH]; intros i; [reflexivity|].
  cbn [digits_from]; rewrite IH; reflexivity.
Qed.

Lemma digits_from_all (ds : list ascii) :
  digits_from 0 (length ds) ds = forallb isdigit ds.
Proof.
  induction ds as [|d ds IH]; [reflexivity|].
  cbn [length digits_from forallb nth]; now rewrite digits_from_cons, IH.
Qed.

Lemma identifier_start_not_special (c : ascii) :
  is_identifier_start c = true ->
  chr_eq c "%" = false /\ chr_eq c "!" = false /\ chr_eq c "*" = false /\
  chr_eq c "#" = false /\ isdigit c = false.
Proof.
  destruct c as [[] [] [] [] [] [] [] []]; vm_compute; intros H;
    first [discriminate | repeat split].
Qed.

(** The identifier path of [scan_macro], for an identifier that fits the
    63-character buffer. *)
Lemma scan_macro_ident (c : ascii) (w r : list ascii) (l : Lexer)
    (valid : ValidSymbols) :
  rest l = c :: w ++ r -> is_identifier_start c = true ->
  forallb is_identifier_char w = true ->
  is_identifier_char (hd NUL r) = false -> (length w < 63)%nat ->
  valid SIMPLE_MACRO = true ->
  scan_macro l valid =
  (let id := c :: w in
   let len := S (length w) in
   let l2 := mkLexer r (pos l + len) (pos l) (start l) (result_symbol l) in
   if is_keyword id len then (false, l2)
   else if is_patch_legacy id len then (false, l2)
   else if is_nil id len then
     if valid SPECIAL_MACRO then
       (true, set_result (tok_id SPECIAL_MACRO) (mark_end l2))
     else (false, l2)
   else (true, set_result (tok_id SIMPLE_MACRO) (mark_end l2))).
Proof.
  intros Hl Hc Hw Hr Hlen Hv.
  destruct (identifier_start_not_special c Hc) as (H1 & H2 & H3 & H4 & H5).
  assert (Hid : is_identifier_char c = true)
    by (unfold is_identifier_char; now rewrite Hc).
  assert (Hla : lookahead l = c) by (unfold lookahead; now rewrite Hl).
  unfold scan_macro; rewrite Hla.
  rewrite H1, H2, H3, H4, H5, Hc, Hv; cbn [negb].
  rewrite (buffer_ident_app (c :: w) r 63 (mark_end l)); cbn [rest];
    [| exact Hl | cbn [forallb]; now rewrite Hid, Hw
     | cbn [length]; lia | right; exact Hr].
  rewrite (count_ident_rest_app [] r); cbn [rest pos mark start result_symbol];
    auto.
  cbn [length]; rewrite !Nat.add_0_r.
  reflexivity.
Qed.

Lemma scan_macro_bang (w r : list ascii) (l : Lexer) (valid : ValidSymbols) :
  rest l = "!"%char :: w ++ r -> valid NEGATED_MACRO = true ->
  w <> [] -> is_identifier_start (hd NUL w) = true ->
  forallb is_identifier_char w = true ->
  is_identifier_char (hd NUL r) = false ->
  scan_macro l valid =
  (true, mkLexer r (pos l + S (length w)) (pos l + S (length w)) (start l)
           (tok_id NEGATED_MACRO)).
Proof.
  intros Hl Hv Hne Hs Hw Hr.
  destruct w as [|c w]; [congruence|]; cbn [hd] in Hs.
  assert (Hq : chr_eq c "?" = false)
    by (destruct c as [[] [] [] [] [] [] [] []]; vm_compute in Hs |- *;
        first [discriminate | reflexivity]).
  destruct l as [rl p m s rs]; cbn [rest] in Hl; subst rl.
  assert (Hla : lookahead (mkLexer ("!"%char :: (c :: w) ++ r) p m s rs)
                = "!"%char) by reflexivity.
  unfold scan_macro; rewrite Hla.
  replace (chr_eq "!" "%") with false by reflexivity.
  replace (chr_eq "!" "!") with true by reflexivity.
  rewrite Hv; cbn [negb].
  assert (Ha : advance (mark_end (mkLexer ("!"%char :: (c :: w) ++ r) p m s rs))
               = mkLexer ((c :: w) ++ r) (S p) p s rs) by reflexivity.
  rewrite Ha.
  assert (Hlc : lookahead (mkLexer ((c :: w) ++ r) (S p) p s rs) = c)
    by reflexivity.
  rewrite Hlc, Hq, Hs; cbn [negb].
  rewrite (advance_while_app is_identifier_char eq_refl false (c :: w) r);
    auto.
  unfold set_result, mark_end; cbn [pos mark start result_symbol rest andb].
  f_equal; f_equal; lia.
Qed.

(** C6: the macro matcher just after [%]: [define] declines (reserved),
    [patch] followed by digits declines (legacy patch), [nil] gives the
    special-macro kind and never the simple-macro kind, [!foo] gives a
    negated macro spanning [!foo], [!?x] declines. *)
Theorem macro_matcher_examples :
  (forall r p valid, is_identifier_char (hd NUL r) = false ->
     fst (scan_macro (lexer_at (s2l "define" ++ r) p) valid) = false) /\
  (forall r p valid, is_identifier_char (hd NUL r) = false ->
     fst (scan_macro (lexer_at (s2l "patch0123" ++ r) p) valid) = false) /\
  (forall ds r p valid, ds <> [] -> forallb isdigit ds = true ->
     (length ds <= 58)%nat -> is_identifier_char (hd NUL r) = false ->
     fst (scan_macro (lexer_at (s2l "patch" ++ ds ++ r) p) valid) = false) /\
  (forall r p valid, is_identifier_char (hd NUL r) = false ->
     valid SIMPLE_MACRO = true -> valid SPECIAL_MACRO = true ->
     scan_macro (lexer_at (s2l "nil" ++ r) p) valid =
     (true, mkLexer r (p + 3) (p + 3) p (tok_id SPECIAL_MACRO))) /\
  (forall r p valid, is_identifier_char (hd NUL r) = false ->
     fst (scan_macro (lexer_at (s2l "nil" ++ r) p) valid) = true ->
     result_symbol (snd (scan_macro (lexer_at (s2l "nil" ++ r) p) valid)) =
     tok_id SPECIAL_MACRO) /\
  (forall r p valid, is_identifier_char (hd NUL r) = false ->
     valid NEGATED_MACRO = true ->
     scan_macro (lexer_at (s2l "!foo" ++ r) p) valid =
     (true, mkLexer r (p + 4) (p + 4) p (tok_id NEGATED_MACRO))) /\
  (forall r p valid,
     fst (scan_macro (lexer_at (s2l "!?" ++ r) p) valid) = false).
Proof.
  assert (Hnil : forall r p valid, is_identifier_char (hd NUL r) = false ->
            valid SIMPLE_MACRO = true ->
            scan_macro (lexer_at (s2l "nil" ++ r) p) valid =
            (if valid SPECIAL_MACRO then
               (true, mkLexer r (p + 3) (p + 3) p (tok_id SPECIAL_MACRO))
             else (false, mkLexer r (p + 3) p p 0))).
  { intros r p valid Hr Hv.
    rewrite (scan_macro_ident "n" (s2l "il") r) by side_goal.
    destruct (valid SPECIAL_MACRO); reflexivity. }
  assert (Hsimple_off : forall w l valid, valid SIMPLE_MACRO = false ->
            is_identifier_start (hd NUL w) = true -> rest l = w ->
            fst (scan_macro l valid) = false).
  { intros w l valid Hv Hs Hl.
    destruct w as [|c w]; cbn [hd] in Hs; [discriminate|].
    destruct (identifier_start_not_special c Hs) as (H1 & H2 & H3 & H4 & H5).
    assert (Hla : lookahead l = c) by (unfold lookahead; now rewrite Hl).
    unfold scan_macro; rewrite Hla.
    now rewrite H1, H2, H3, H4, H5, Hs, Hv. }
  split; [|split; [|split; [|split; [|split; [|split]]]]].
  - intros r p valid Hr.
    destruct (valid SIMPLE_MACRO) eqn:Hv.
    + rewrite (scan_macro_ident "d" (s2l "efine") r) by side_goal; reflexivity.
    + eapply Hsimple_off; eauto; reflexivity.
  - intros r p valid Hr.
    destruct (valid SIMPLE_MACRO) eqn:Hv.
    + rewrite (scan_macro_ident "p" (s2l "atch0123") r) by side_goal; reflexivity.
    + eapply Hsimple_off; eauto; reflexivity.
  - intros ds r p valid Hne Hds Hlen Hr.
    assert (Hdc : forallb is_identifier_char (s2l "atch" ++ ds) = true).
    { rewrite forallb_app; apply andb_true_intro; split; [reflexivity|].
      rewrite forallb_forall in Hds |- *; intros x Hx.
      unfold is_identifier_char; rewrite (Hds x Hx); apply orb_true_r. }
    assert (Hl63 : (length (s2l "atch" ++ ds) < 63)%nat)
      by (rewrite length_app; cbn; lia).
    destruct (valid SIMPLE_MACRO) eqn:Hv.
    + rewrite (scan_macro_ident "p" (s2l "atch" ++ ds) r) by side_goal.
      cbv zeta.
      destruct (is_keyword _ _); [reflexivity|].
      assert (Hp : is_patch_legacy ("p"%char :: s2l "atch" ++ ds)
                     (S (length (s2l "atch" ++ ds))) = true).
      { unfold is_patch_legacy.
        rewrite length_app; cbn [length s2l list_ascii_of_string app].
        destruct ds as [|d ds']; [congruence|]; cbn [length].
        replace (S (S (S (S (S (S (length ds')))))) <? 6) with false
          by (symmetry; apply Nat.ltb_ge; lia).
        replace (S (S (S (S (S (S (length ds')))))) - 5)%nat
          with (length (d :: ds')) by (cbn; lia).
        cbn -[digits_from length].
        rewrite !digits_from_cons.
        change (S (length ds')) with (length (d :: ds')).
        rewrite digits_from_all; exact Hds. }
      now rewrite Hp.
    + eapply Hsimple_off; eauto; reflexivity.
  - intros r p valid Hr Hv Hsp; now rewrite Hnil, Hsp.
  - intros r p valid Hr.
    destruct (valid SIMPLE_MACRO) eqn:Hv.
    + rewrite Hnil by auto; destruct (valid SPECIAL_MACRO); simpl;
        [reflexivity | discriminate].
    + intros H; exfalso.
      rewrite (Hsimple_off (s2l "nil" ++ r)) in H; auto; discriminate.
  - intros r p valid Hr Hv.
    rewrite (scan_macro_bang (s2l "foo") r) by side_goal.
    reflexivity.
  - intros r p valid.
    unfold scan_macro, lookahead; cbn [rest lexer_at s2l list_ascii_of_string app hd].
    destruct (valid NEGATED_MACRO); reflexivity.
Qed.

(** ** The content scanners *)

Lemma expand_loop_text :
  forall p r f d d' h l,
    rest l = p ++ r -> forallb not_percent p = true ->
    brace_walk d p = Some d' ->
    expand_loop (length p + f) d h l =
    expand_loop f d' (h || negb (is_empty p))
      (mkLexer r (pos l + length p)
         (if is_empty p then mark l else pos l + length p) (start l)
         (result_symbol l)).
Proof.
  induction p as [|c p IH]; intros r f d d' h l Hl Hp Hw;
    destruct l as [rl ps m s rs]; cbn [rest] in Hl; subst rl.
  - cbn in Hw |- *; injection Hw as <-.
    rewrite orb_false_r, Nat.add_0_r; reflexivity.
  - cbn [forallb] in Hp; apply andb_prop in Hp as [Hc Hp].
    unfold not_percent in Hc; apply negb_true_iff in Hc.
    cbn [length plus app expand_loop].
    assert (Hla : lookahead (mkLexer (c :: p ++ r) ps m s rs) = c)
      by reflexivity.
    assert (He : eof (mkLexer (c :: p ++ r) ps m s rs) = false)
      by reflexivity.
    rewrite He; cbv zeta; rewrite Hla, Hc.
    assert (Ha : mark_end (advance (mkLexer (c :: p ++ r) ps m s rs)) =
                 mkLexer (p ++ r) (S ps) (S ps) s rs) by reflexivity.
    cbn [brace_walk] in Hw.
    destruct (chr_eq c "{").
    + rewrite Ha, (IH r f (d + 1)%Z d'); auto.
      cbn [pos mark start result_symbol negb].
      rewrite orb_true_r; destruct p; cbn [is_empty length];
        f_equal; f_equal; lia.
    + destruct (chr_eq c "}").
      * destruct (d =? 0)%Z; [discriminate|].
        rewrite Ha, (IH r f (d - 1)%Z d'); auto.
        cbn [pos mark start result_symbol negb].
        rewrite orb_true_r; destruct p; cbn [is_empty length];
          f_equal; f_equal; lia.
      * rewrite Ha, (IH r f d d'); auto.
        cbn [pos mark start result_symbol negb].
        rewrite orb_true_r; destruct p; cbn [is_empty length];
          f_equal; f_equal; lia.
Qed.

Lemma expand_loop_percent (c : ascii) (r : list ascii) (f : nat) (d : Z)
    (h : bool) (l : Lexer) :
  rest l = "%"%char :: c :: r ->
  expand_loop (S f) d h l =
  (let l1 := mkLexer (c :: r) (S (pos l)) (pos l) (start l) (result_symbol l) in
   if chr_eq c "%" || chr_eq c "#" || chr_eq c "*" then
     expand_loop f d true (mark_end (advance l1))
   else if chr_eq c "{" then (h, l1)
   else if isdigit c then
     expand_loop f d true (mark_end (advance_while isdigit false l1))
   else expand_loop f d true (mark_end l1)).
Proof.
  intros Hl; destruct l as [rl ps m s rs]; cbn [rest] in Hl; subst rl.
  reflexivity.
Qed.

(** C7 (what the code does): the expand-block scanner stops before the
    zero-depth closing brace or before [%{]; [%%], [%#], [%*] and [%]
    followed by digits are consumed as content, and so is a [%] followed by
    anything else (such as [%name]); a [%] at the end of input is
    included. *)
Theorem expand_content_boundaries :
  (forall p r p0, forallb not_percent p = true -> brace_walk 0 p = Some 0%Z ->
     scan_expand_content (lexer_at (p ++ "}"%char :: r) p0) =
     (negb (is_empty p),
      mkLexer ("}"%char :: r) (p0 + length p) (p0 + length p) p0 0)) /\
  (forall p r p0 d, forallb not_percent p = true -> brace_walk 0 p = Some d ->
     scan_expand_content (lexer_at (p ++ "%"%char :: "{"%char :: r) p0) =
     (negb (is_empty p),
      mkLexer ("{"%char :: r) (S (p0 + length p)) (p0 + length p) p0 0)) /\
  (forall f d h l c r, rest l = "%"%char :: c :: r ->
     chr_eq c "%" || chr_eq c "#" || chr_eq c "*" = true ->
     expand_loop (S f) d h l =
     expand_loop f d true
       (mkLexer r (S (S (pos l))) (S (S (pos l))) (start l) (result_symbol l))) /\
  (forall f d h l ds r, rest l = "%"%char :: ds ++ r -> ds <> [] ->
     forallb isdigit ds = true -> isdigit (hd NUL r) = false ->
     expand_loop (S f) d h l =
     expand_loop f d true
       (mkLexer r (S (pos l + length ds)) (S (pos l + length ds)) (start l)
          (result_symbol l))) /\
  (forall f d h l c r, rest l = "%"%char :: c :: r ->
     chr_eq c "%" || chr_eq c "#" || chr_eq c "*" || chr_eq c "{" ||
       isdigit c = false ->
     expand_loop (S f) d h l =
     expand_loop f d true
       (mkLexer (c :: r) (S (pos l)) (S (pos l)) (start l) (result_symbol l))) /\
  (forall f d h l, rest l = ["%"%char] ->
     expand_loop (S f) d h l =
     (true, mkLexer [] (S (pos l)) (S (pos l)) (start l) (result_symbol l))) /\
  scan_expand_content (lexer_at (s2l " a {b} c}") 9) =
    (true, mkLexer ["}"%char] 17 17 9 0).
Proof.
  split; [|split; [|split; [|split; [|split; [|split]]]]].
  - intros p r p0 Hp Hw; unfold scan_expand_content.
    cbn [rest lexer_at].
    rewrite length_app; cbn [length].
    replace (S (length p + S (length r))) with (length p + S (S (length r)))%nat
      by lia.
    rewrite (expand_loop_text p ("}"%char :: r) _ 0 0); auto.
    cbn [pos mark start result_symbol lexer_at orb].
    destruct (is_empty p) eqn:Hn.
    + destruct p; [|discriminate]; cbn; rewrite Nat.add_0_r; reflexivity.
    + reflexivity.
  - intros p r p0 d Hp Hw; unfold scan_expand_content.
    cbn [rest lexer_at].
    rewrite length_app; cbn [length].
    replace (S (length p + S (S (length r))))
      with (length p + S (S (S (length r))))%nat by lia.
    rewrite (expand_loop_text p ("%"%char :: "{"%char :: r) _ 0 d) by auto.
    reflexivity.
  - intros f d h l c r Hl Hc.
    rewrite (expand_loop_percent c r) by exact Hl; cbv zeta; rewrite Hc.
    reflexivity.
  - intros f d h l ds r Hl Hne Hds Hr.
    destruct ds as [|c ds']; [congruence|].
    rewrite (expand_loop_percent c (ds' ++ r)) by exact Hl; cbv zeta.
    cbn [forallb] in Hds; apply andb_prop in Hds as [Hc Hds'].
    assert (Hs : chr_eq c "%" || chr_eq c "#" || chr_eq c "*" || chr_eq c "{"
                 = false)
      by (destruct c as [[] [] [] [] [] [] [] []]; vm_compute in Hc |- *;
          first [discriminate | reflexivity]).
    apply orb_false_iff in Hs as [Hs H4]; rewrite Hs, H4, Hc.
    rewrite (advance_while_app isdigit eq_refl false (c :: ds') r);
      [| reflexivity | cbn [forallb]; now rewrite Hc, Hds' | exact Hr].
    unfold mark_end; cbn [pos mark start result_symbol rest length].
    f_equal; f_equal; lia.
  - intros f d h l c r Hl Hc.
    rewrite (expand_loop_percent c r) by exact Hl; cbv zeta.
    apply orb_false_iff in Hc as [Hc H5]; apply orb_false_iff in Hc as [Hc H4].
    rewrite Hc, H4, H5; reflexivity.
  - intros f d h l Hl; destruct l as [rl ps m s rs]; cbn [rest] in Hl; subst rl.
    reflexivity.
  - vm_compute; reflexivity.
Qed.

(** C7: the code departs from its contract here.  [scan_expand_content]
    is to stop at a [%] that could start a macro, so that the grammar
    parses inner macros, and [%f] could start one ([is_macro_start], the
    test [scan_shell_content] stops on); yet its default case consumes
    the [%], and the span of [a%foo}] runs over [%foo] up to the closing
    brace instead of ending before the [%]. *)
Lemma expand_content_percent_name_counterexample :
  is_macro_start "f" = true /\
  scan_expand_content (lexer_at (s2l "a%foo}") 0) =
    (true, mkLexer ["}"%char] 5 5 0 0).
Proof. split; vm_compute; reflexivity. Qed.

Lemma shell_loop_text :
  forall p r f d h l,
    rest l = p ++ r -> forallb shell_plain p = true ->
    shell_loop (length p + f) d h l =
    shell_loop f d (h || negb (is_empty p))
      (mkLexer r (pos l + length p)
         (if is_empty p then mark l else pos l + length p) (start l)
         (result_symbol l)).
Proof.
  induction p as [|c p IH]; intros r f d h l Hl Hp;
    destruct l as [rl ps m s rs]; cbn [rest] in Hl; subst rl.
  - cbn; rewrite orb_false_r, Nat.add_0_r; reflexivity.
  - cbn [forallb] in Hp; apply andb_prop in Hp as [Hc Hp].
    unfold shell_plain in Hc; apply negb_true_iff in Hc.
    apply orb_false_iff in Hc as [Hc H2]; apply orb_false_iff in Hc as [Hc H1].
    cbn [length plus app shell_loop].
    assert (Hla : lookahead (mkLexer (c :: p ++ r) ps m s rs) = c)
      by reflexivity.
    assert (He : eof (mkLexer (c :: p ++ r) ps m s rs) = false)
      by reflexivity.
    rewrite He; cbv zeta; rewrite Hla, Hc, H1, H2.
    assert (Ha : mark_end (advance (mkLexer (c :: p ++ r) ps m s rs)) =
                 mkLexer (p ++ r) (S ps) (S ps) s rs) by reflexivity.
    rewrite Ha, (IH r f d); auto.
    cbn [pos mark start result_symbol negb].
    rewrite orb_true_r; destruct p; cbn [is_empty length];
      f_equal; f_equal; lia.
Qed.

Lemma shell_loop_percent (c : ascii) (r : list ascii) (f : nat) (d : Z)
    (h : bool) (l : Lexer) :
  rest l = "%"%char :: c :: r ->
  shell_loop (S f) d h l =
  if is_macro_start c then
    (h, mkLexer (c :: r) (S (pos l)) (pos l) (start l) (result_symbol l))
  else
    shell_loop f d true
      (mkLexer (c :: r) (S (pos l)) (S (pos l)) (start l) (result_symbol l)).
Proof.
  intros Hl; destruct l as [rl ps m s rs]; cbn [rest] in Hl; subst rl.
  reflexivity.
Qed.

(** C8: in the shell-block scanner a [%] ends the span, which then stops
    just before the [%], exactly when the next character is a macro
    introducer ([is_macro_start]: a letter or [_], a digit, or one of
    [% { ( [ ! ? * #]); after any other character the [%] is consumed as
    content and the scan continues after it.  For [echo ${var%.*}]
    followed by the closing parenthesis the whole text is one span. *)
Theorem shell_percent_boundary :
  (forall f d h l c r, rest l = "%"%char :: c :: r ->
     shell_loop (S f) d h l =
     if is_macro_start c then
       (h, mkLexer (c :: r) (S (pos l)) (pos l) (start l) (result_symbol l))
     else
       shell_loop f d true
         (mkLexer (c :: r) (S (pos l)) (S (pos l)) (start l)
            (result_symbol l))) /\
  (forall p c r p0, forallb shell_plain p = true -> is_macro_start c = true ->
     scan_shell_content (lexer_at (p ++ "%"%char :: c :: r) p0) =
     (negb (is_empty p),
      mkLexer (c :: r) (S (p0 + length p)) (p0 + length p) p0 0)) /\
  (forall p c r p0, forallb shell_plain p = true -> is_macro_start c = false ->
     scan_shell_content (lexer_at (p ++ "%"%char :: c :: r) p0) =
     shell_loop (S (length (c :: r))) 0 true
       (mkLexer (c :: r) (S (p0 + length p)) (S (p0 + length p)) p0 0)) /\
  is_macro_start "." = false /\
  scan_shell_content (lexer_at (s2l "echo ${var%.*})") 0) =
    (true, mkLexer [")"%char] 14 14 0 0).
Proof.
  split; [|split; [|split; [|split]]].
  - intros f d h l c r; apply shell_loop_percent.
  - intros p c r p0 Hp Hc; unfold scan_shell_content; cbn [rest lexer_at].
    rewrite length_app; cbn [length].
    replace (S (length p + S (S (length r))))
      with (length p + S (S (S (length r))))%nat by lia.
    rewrite (shell_loop_text p ("%"%char :: c :: r)) by auto.
    rewrite (shell_loop_percent c r) by reflexivity; rewrite Hc.
    cbn [pos mark start result_symbol lexer_at orb]; reflexivity.
  - intros p c r p0 Hp Hc; unfold scan_shell_content; cbn [rest lexer_at].
    rewrite length_app; cbn [length].
    replace (S (length p + S (S (length r))))
      with (length p + S (S (S (length r))))%nat by lia.
    rewrite (shell_loop_text p ("%"%char :: c :: r)) by auto.
    rewrite (shell_loop_percent c r) by reflexivity; rewrite Hc.
    cbn [pos mark start result_symbol lexer_at orb]; reflexivity.
  - reflexivity.
  - vm_compute; reflexivity.
Qed.

Lemma read_macro_name_mark (n : nat) :
  forall first l,
    mark (snd (RpmBash.read_macro_name n first l)) = mark l /\
    start (snd (RpmBash.read_macro_name n first l)) = start l.
Proof.
  induction n as [|n IH]; intros first l; [split; reflexivity|].
  cbn [RpmBash.read_macro_name].
  destruct (RpmBash.is_macro_name_char (lookahead l) first);
    [|split; reflexivity].
  specialize (IH false (advance l)).
  destruct (RpmBash.read_macro_name n false (advance l)) as [b l'].
  cbn [snd] in IH |- *; destruct IH as [-> ->].
  destruct l as [[|c r] ps m s rs]; split; reflexivity.
Qed.

Lemma read_macro_name_two (n : nat) (c1 c2 : ascii) (r : list ascii) (l : Lexer) :
  rest l = c1 :: c2 :: r ->
  RpmBash.is_macro_name_char c1 true = true ->
  RpmBash.is_macro_name_char c2 false = true ->
  exists b l', RpmBash.read_macro_name (S (S n)) true l = (c1 :: c2 :: b, l').
Proof.
  intros Hl H1 H2; destruct l as [rl ps m s rs]; cbn [rest] in Hl; subst rl.
  cbn [RpmBash.read_macro_name].
  assert (Hla : lookahead (mkLexer (c1 :: c2 :: r) ps m s rs) = c1)
    by reflexivity.
  assert (Hlb : lookahead (advance (mkLexer (c1 :: c2 :: r) ps m s rs)) = c2)
    by reflexivity.
  rewrite Hla, H1, Hlb, H2.
  destruct (RpmBash.read_macro_name n false
              (advance (advance (mkLexer (c1 :: c2 :: r) ps m s rs))))
    as [b l'].
  exists b, l'; reflexivity.
Qed.

Lemma read_macro_name_short (n : nat) (l : Lexer) :
  match rest l with
  | c1 :: c2 :: _ =>
      RpmBash.is_macro_name_char c1 true && RpmBash.is_macro_name_char c2 false
  | _ => false
  end = false ->
  length (fst (RpmBash.read_macro_name n true l)) < 2.
Proof.
  intros H; destruct n as [|n]; [cbn; lia|].
  destruct l as [rl ps m s rs]; cbn [rest] in H.
  destruct rl as [|c1 rl]; [cbn; lia|].
  cbn [RpmBash.read_macro_name].
  assert (Hla : lookahead (mkLexer (c1 :: rl) ps m s rs) = c1) by reflexivity.
  rewrite Hla.
  destruct (RpmBash.is_macro_name_char c1 true) eqn:H1; [|cbn; lia].
  destruct n as [|n]; [cbn; lia|].
  cbn [RpmBash.read_macro_name].
  destruct rl as [|c2 rl].
  - cbn; lia.
  - change (true && RpmBash.is_macro_name_char c2 false = false) in H.
    cbn [andb] in H.
    assert (Hlb : lookahead (advance (mkLexer (c1 :: c2 :: rl) ps m s rs)) = c2)
      by reflexivity.
    rewrite Hlb, H; cbn; lia.
Qed.

(** C5: for the bash-wrapping scanner at a newline where NEWLINE is
    admissible, with the next non-blank input after the run of spaces, tabs
    and newlines being [%] and a name of at least two characters, the scan
    succeeds with a NEWLINE token whose end mark is right after the newline
    (the directive is not included); otherwise it reports no token, with a
    result that does not involve the wrapped bash scanner at all. *)
Theorem newline_peek_terminator (BP : Type) (NS : nat)
    (bash : BP -> Lexer -> (nat -> bool) -> bool * BP * Lexer)
    (payload : BP) (l : Lexer) (valid : nat -> bool) (ws r : list ascii) :
  valid NS = true -> rest l = nl :: ws ++ r ->
  forallb RpmBash.is_peek_space ws = true ->
  RpmBash.is_peek_space (hd NUL r) = false ->
  (RpmBash.directive_ahead r = true ->
   exists l', RpmBash.rpmbash_scan BP NS bash payload l valid =
              (true, payload, l') /\
              mark l' = S (pos l) /\
              start l' = start l /\ result_symbol l' = NS) /\
  (RpmBash.directive_ahead r = false ->
   RpmBash.rpmbash_scan BP NS bash payload l valid =
   (false, payload,
    snd (RpmBash.scan_newline_before_rpm_statement NS l valid))).
Proof.
  intros Hv Hl Hws Hr; destruct l as [rl ps m s rs]; cbn [rest] in Hl;
    subst rl; cbn [pos mark start].
  assert (Hpeek :
    advance_while RpmBash.is_peek_space false
      (mark_end (advance (mark_end (mkLexer (nl :: ws ++ r) ps m s rs)))) =
    mkLexer r (S ps + length ws) (S ps) s rs).
  { rewrite (advance_while_app RpmBash.is_peek_space eq_refl false ws r);
      [reflexivity | reflexivity | exact Hws | exact Hr]. }
  unfold RpmBash.rpmbash_scan, RpmBash.scan_newline_before_rpm_statement.
  rewrite Hv; cbv zeta.
  replace (negb true || negb (chr_eq (lookahead (mkLexer (nl :: ws ++ r) ps m s rs)) nl))
    with false by reflexivity.
  cbv iota; rewrite Hpeek.
  split; intros Hd.
  - destruct r as [|c0 [|c1 [|c2 r']]]; try discriminate.
    cbn [RpmBash.directive_ahead] in Hd.
    apply andb_prop in Hd as [Hd H2]; apply andb_prop in Hd as [H0 H1].
    replace (chr_eq (lookahead (mkLexer (c0 :: c1 :: c2 :: r')
                                  (S ps + length ws) (S ps) s rs)) "%")
      with true by (symmetry; exact H0).
    cbv iota.
    destruct (read_macro_name_two 13 c1 c2 r'
                (advance (mkLexer (c0 :: c1 :: c2 :: r')
                            (S ps + length ws) (S ps) s rs)))
      as [b [l' E]]; [reflexivity | exact H1 | exact H2 |].
    pose proof (read_macro_name_mark 15 true
                  (advance (mkLexer (c0 :: c1 :: c2 :: r')
                              (S ps + length ws) (S ps) s rs))) as Hm.
    rewrite E in Hm; cbn [snd] in Hm; destruct Hm as [Hm Hs].
    cbn [negb]; rewrite E; unfold RpmBash.is_simple_macro; cbn [length].
    replace (2 <=? S (S (length b))) with true by reflexivity.
    eexists; split; [reflexivity|].
    unfold set_result; cbn [mark start result_symbol]; rewrite Hm, Hs.
    repeat split; reflexivity.
  - destruct r as [|c0 r']; [reflexivity|].
    destruct (chr_eq c0 "%") eqn:H0.
    + assert (Hsh : match r' with
                    | c1 :: c2 :: _ =>
                        RpmBash.is_macro_name_char c1 true &&
                        RpmBash.is_macro_name_char c2 false
                    | _ => false
                    end = false).
      { destruct r' as [|c1 [|c2 r'']]; try reflexivity.
        cbn [RpmBash.directive_ahead] in Hd; rewrite H0 in Hd.
        exact Hd. }
      pose proof (read_macro_name_short 15
                    (advance (mkLexer (c0 :: r') (S ps + length ws) (S ps) s rs))
                    Hsh) as Hlen.
      replace (chr_eq (lookahead (mkLexer (c0 :: r')
                                    (S ps + length ws) (S ps) s rs)) "%")
        with true by (symmetry; exact H0).
      cbn [negb].
      destruct (RpmBash.read_macro_name 15 true
                  (advance (mkLexer (c0 :: r') (S ps + length ws) (S ps) s rs)))
        as [nb l3] eqn:E.
      cbn [fst] in Hlen; unfold RpmBash.is_simple_macro.
      replace (2 <=? length nb) with false
        by (symmetry; apply Nat.leb_gt; lia).
      reflexivity.
    + replace (chr_eq (lookahead (mkLexer (c0 :: r')
                                    (S ps + length ws) (S ps) s rs)) "%")
        with false by (symmetry; exact H0).
      reflexivity.
Qed.

Lemma cbhs_step_decreases (s s' : CState) :
  cbhs_guard s = true -> cbhs_step s = CCont s' ->
  (length (rest (clex s')) < length (rest (clex s)))%nat.
Proof.
  destruct s as [[[|c r] p m st rs] n ln als]; [discriminate|].
  intros _ Hs; unfold cbhs_step in Hs; cbn [clex nesting lines_scanned
    at_line_start lookahead rest] in Hs.
  destruct (chr_eq c cr || chr_eq c nl).
  - destruct (chr_eq c cr && chr_eq (lookahead (advance
       (mkLexer (c :: r) p m st rs))) nl);
      injection Hs as <-; cbn [clex]; unfold advance;
      rewrite ?lex_advance_length; cbn; lia.
  - destruct (chr_eq c " " || chr_eq c tab).
    + injection Hs as <-; cbn; lia.
    + destruct (chr_eq c "%" && als).
      * pose proof (buffer_ident_length_rest 31
                      (advance (mkLexer (c :: r) p m st rs))) as Hb.
        destruct (buffer_ident 31 (advance (mkLexer (c :: r) p m st rs)))
          as [id l2].
        cbn [snd rest advance lex_advance length] in Hb.
        repeat match type of Hs with
               | context [if ?b then _ else _] => destruct b
               end; try discriminate; injection Hs as <-; cbn [clex rest length]; lia.
      * injection Hs as <-; cbn; lia.
Qed.

Lemma cbhs_loop_reach_false (s s0 : CState) :
  cbhs_reach s s0 -> cbhs_guard s0 = false ->
  forall f, (length (rest (clex s)) < f)%nat -> cbhs_loop f s = (false, s0).
Proof.
  induction 1 as [s|s s1 s2 Hg Hs _ IH]; intros Hg0 f Hf;
    (destruct f as [|f]; [lia|]); cbn [cbhs_loop].
  - rewrite Hg0; reflexivity.
  - rewrite Hg, Hs; apply IH; [exact Hg0|].
    pose proof (cbhs_step_decreases s s1 Hg Hs); lia.
Qed.

Lemma cbhs_loop_cases (f : nat) :
  forall s, (length (rest (clex s)) < f)%nat ->
  let '(b, s') := cbhs_loop f s in
  (cbhs_reach s s' /\ cbhs_guard s' = false /\ b = false) \/
  (exists s0, cbhs_reach s s0 /\ cbhs_guard s0 = true /\
              cbhs_step s0 = CRet s' b).
Proof.
  induction f as [|f IH]; intros s Hf; [lia|]; cbn [cbhs_loop].
  destruct (cbhs_guard s) eqn:Hg.
  - destruct (cbhs_step s) as [s1|s' b] eqn:Hs.
    + pose proof (cbhs_step_decreases s s1 Hg Hs) as Hd.
      specialize (IH s1 ltac:(lia)).
      destruct (cbhs_loop f s1) as [b s'].
      destruct IH as [(Hr & Hg' & ->) | (s0 & Hr & Hg0 & Hs0)].
      * left; split; [econstructor; eauto | split; auto].
      * right; exists s0; split; [econstructor; eauto | split; auto].
    + right; exists s; split; [constructor | split; auto].
  - left; split; [constructor | split; auto].
Qed.







Lemma is_prefix_full (p w : list ascii) :
  is_prefix p w = true -> length w = length p -> w = p.
Proof.
  revert w; induction p as [|a p IH]; intros [|b w] H Hl; try discriminate;
    [reflexivity|].
  cbn [is_prefix] in H; apply andb_prop in H as [Hab H].
  apply Ascii.eqb_eq in Hab; subst b; f_equal; apply IH; auto.
Qed.

Lemma s2l_length (lit : string) : length (s2l lit) = String.length lit.
Proof. induction lit as [|a lit IH]; cbn; [reflexivity | f_equal; exact IH]. Qed.

Lemma strequal_full (lit : string) (w : list ascii) :
  strequal lit w (length w) = true -> w = s2l lit.
Proof.
  unfold strequal; intros H; apply andb_prop in H as [Hl H].
  apply Nat.eqb_eq in Hl; apply is_prefix_full; [exact H|].
  rewrite s2l_length; exact Hl.
Qed.



(** C4 (as the code has it): once the loop reaches a state where the cap
    of 2000 scanned lines is hit or the input is exhausted, the lookahead
    reports [false]; it reports [true] only from a line-start section
    keyword met before the cap, whether or not the body has a closer.  A
    section keyword after 2000 line breaks is missed, one after 1999 is
    found. *)
Theorem lookahead_cap_and_eof :
  (forall l s0, cbhs_reach (cbhs_init l) s0 -> cbhs_guard s0 = false ->
     cbhs_run l = (false, s0)) /\
  (forall s0, cbhs_guard s0 = false <->
     eof (clex s0) = true \/ (MAX_LOOKAHEAD_LINES <= lines_scanned s0)%Z) /\
  (forall l s', cbhs_run l = (true, s') ->
     exists s0, cbhs_reach (cbhs_init l) s0 /\ cbhs_guard s0 = true /\
       (lines_scanned s0 < MAX_LOOKAHEAD_LINES)%Z /\
       cbhs_step s0 = CRet s' true) /\
  fst (conditional_body_has_section (lexer_at (late_section_body 2000) 3))
    = false /\
  fst (conditional_body_has_section (lexer_at (late_section_body 1999) 3))
    = true.
Proof.
  split; [|split; [|split; [|split]]].
  - intros l s0 Hr Hg; unfold cbhs_run.
    apply (cbhs_loop_reach_false _ _ Hr Hg); cbn; lia.
  - intros s0; unfold cbhs_guard.
    destruct (eof (clex s0)); cbn [negb andb].
    + split; [intros _; left; reflexivity | reflexivity].
    + rewrite Z.ltb_ge; split; [intros H; right; exact H |].
      intros [H|H]; [discriminate | exact H].
  - intros l s' H; unfold cbhs_run in H.
    pose proof (cbhs_loop_cases (S (length (rest l))) (cbhs_init l)
                  ltac:(cbn; lia)) as Hc.
    rewrite H in Hc.
    destruct Hc as [(_ & _ & Hf) | (s0 & Hr & Hg & Hs0)]; [discriminate|].
    exists s0; split; [exact Hr | split; [exact Hg | split; [| exact Hs0]]].
    unfold cbhs_guard in Hg; apply andb_prop in Hg as [_ Hg].
    apply Z.ltb_lt; exact Hg.
  - vm_compute; reflexivity.
  - vm_compute; reflexivity.
Qed.

(** C4 as stated fails: this body has no closer at all, the scan neither
    hits the cap nor the end of input, and the lookahead reports [true]
    because of the [%build] line. *)
Lemma lookahead_no_closer_counterexample :
  late_section_body 1 = s2l " A" ++ [nl] ++ s2l "%build" ++ [nl] /\
  fst (conditional_body_has_section (lexer_at (late_section_body 1) 3)) = true.
Proof. split; vm_compute; reflexivity. Qed.

Lemma span_split (pred : ascii -> bool) (Hn : pred NUL = false) :
  forall xs, exists w r,
    xs = w ++ r /\ forallb pred w = true /\ pred (hd NUL r) = false.
Proof.
  induction xs as [|c xs IH].
  - exists [], []; auto.
  - destruct (pred c) eqn:Hc.
    + destruct IH as (w & r & -> & Hw & Hr).
      exists (c :: w), r; cbn [forallb app]; rewrite Hc, Hw; auto.
    + exists [], (c :: xs); auto.
Qed.

Lemma newline_filter_f_cases (f : nat) (valid : ValidSymbols) :
  forall l,
  match newline_filter_f f valid l with
  | inl l' => result_symbol l' = tok_id NEWLINE
  | inr l' => exists ws, rest l = ws ++ rest l' /\ forallb isspace ws = true /\
                         pos l' = pos l + length ws /\
                         start l' = (if is_empty ws then start l
                                     else pos l + length ws)
  end.
Proof.
  induction f as [|f IH]; intros [[|c r] p m s rs].
  - exists []; cbn; auto.
  - exists []; cbn; auto.
  - exists []; cbn; auto.
  - pose proof (IH (mkLexer r (S p) m (S p) rs)) as IHr.
    cbn [newline_filter_f lookahead rest].
    change (lex_advance true (mkLexer (c :: r) p m s rs))
      with (mkLexer r (S p) m (S p) rs).
    destruct (isspace c) eqn:Hs; [| exists []; cbn; auto].
    assert (Hrec :
      match newline_filter_f f valid (mkLexer r (S p) m (S p) rs) with
      | inl l' => result_symbol l' = tok_id NEWLINE
      | inr l' => exists ws, c :: r = ws ++ rest l' /\
                    forallb isspace ws = true /\ pos l' = p + length ws /\
                    start l' = (if is_empty ws then s else p + length ws)
      end).
    { destruct (newline_filter_f f valid (mkLexer r (S p) m (S p) rs));
        [exact IHr|].
      destruct IHr as (ws & Hr & Hw & Hp & Hst); cbn [rest pos start] in Hr, Hp, Hst.
      exists (c :: ws); cbn [forallb app length is_empty]; rewrite Hs, Hw, <- Hr.
      split; [reflexivity | split; [reflexivity | split; [lia|]]].
      rewrite Hst; destruct ws; cbn [is_empty length]; lia. }
    cbn [rest pos].
    destruct (chr_eq c nl); [destruct (valid NEWLINE); [reflexivity | exact Hrec]|].
    destruct (chr_eq c cr); [destruct (valid NEWLINE); [reflexivity | exact Hrec]|].
    exact Hrec.
Qed.

Lemma try_scan_conditional_in_false (table : list CondKeyword) :
  forall sc l valid kw len sc' l',
    try_scan_conditional_in table sc l valid kw len = (false, sc', l') ->
    sc' = sc /\ l' = l.
Proof.
  induction table as [|k table IH]; intros sc l valid kw len sc' l' H;
    cbn [try_scan_conditional_in] in H.
  - injection H as <- <-; auto.
  - destruct (negb (strequal (kw_name k) kw len)); [eapply IH; exact H|].
    destruct (negb (top_valid (cond_tokens_of k valid)) &&
              negb (subsection_valid (cond_tokens_of k valid)) &&
              negb (scriptlet_valid (cond_tokens_of k valid)) &&
              negb (files_valid (cond_tokens_of k valid))).
    + injection H as <- <-; auto.
    + destruct (select_conditional_token_type sc (mark_end l)
                  (cond_tokens_of k valid)) as [[t sc1] l1].
      discriminate.
Qed.

Lemma select_token_cases (sc : Scanner) (l : Lexer) (ctx : CondTokens) :
  let t := fst (fst (select_conditional_token_type sc l ctx)) in
  t = top ctx \/ t = subsection ctx \/ t = scriptlet ctx \/ t = files ctx.
Proof.
  unfold select_conditional_token_type; cbv zeta.
  destruct (files_valid ctx); [auto|].
  destruct (subsection_valid ctx && negb (top_valid ctx) &&
            negb (scriptlet_valid ctx)); [auto|].
  destruct (scriptlet_valid ctx && negb (top_valid ctx) &&
            negb (subsection_valid ctx)); [auto|].
  destruct (top_valid ctx && negb (subsection_valid ctx) &&
            negb (scriptlet_valid ctx)); [auto|].
  destruct (top_valid ctx && (subsection_valid ctx || scriptlet_valid ctx)).
  - destruct (conditional_body_has_section_cached sc l) as [[[] sc1] l1];
      cbn [fst]; [auto|].
    destruct (subsection_valid ctx); auto.
  - destruct (subsection_valid ctx); [auto|].
    destruct (scriptlet_valid ctx); auto.
Qed.

Lemma try_scan_conditional_in_true (table : list CondKeyword) :
  Forall (fun k => is_section_sym (tok_id (kw_top k)) = false /\
                   is_section_sym (tok_id (kw_subsection k)) = false /\
                   is_section_sym (tok_id (kw_scriptlet k)) = false /\
                   is_section_sym (tok_id (kw_files k)) = false) table ->
  forall sc l valid kw len sc' l',
    try_scan_conditional_in table sc l valid kw len = (true, sc', l') ->
    is_section_sym (result_symbol l') = false.
Proof.
  induction table as [|k table IH]; intros Hf sc l valid kw len sc' l' H;
    cbn [try_scan_conditional_in] in H; [discriminate|].
  inversion Hf as [|k0 table0 Hk Hf']; subst k0 table0.
  destruct (negb (strequal (kw_name k) kw len)); [eapply IH; eauto|].
  destruct (negb (top_valid (cond_tokens_of k valid)) &&
            negb (subsection_valid (cond_tokens_of k valid)) &&
            negb (scriptlet_valid (cond_tokens_of k valid)) &&
            negb (files_valid (cond_tokens_of k valid))); [discriminate|].
  pose proof (select_token_cases sc (mark_end l) (cond_tokens_of k valid))
    as Ht; cbv zeta in Ht.
  destruct (select_conditional_token_type sc (mark_end l)
              (cond_tokens_of k valid)) as [[t sc1] l1].
  injection H as _ <-; cbn [fst result_symbol set_result] in Ht |- *.
  destruct Hk as (H1 & H2 & H3 & H4).
  destruct Ht as [ -> | [ -> | [ -> | -> ] ] ]; assumption.
Qed.

Lemma try_scan_conditional_true (sc : Scanner) (l : Lexer)
    (valid : ValidSymbols) (kw : list ascii) (len : nat) (sc' : Scanner)
    (l' : Lexer) :
  try_scan_conditional sc l valid kw len = (true, sc', l') ->
  is_section_sym (result_symbol l') = false.
Proof.
  apply try_scan_conditional_in_true.
  repeat constructor.
Qed.

Lemma scan_macro_true (l : Lexer) (valid : ValidSymbols) (l' : Lexer) :
  scan_macro l valid = (true, l') -> is_section_sym (result_symbol l') = false.
Proof.
  unfold scan_macro; cbv zeta; intros H.
  repeat match type of H with
         | context [if ?b then _ else _] => destruct b
         | context [let '(_, _) := ?x in _] => destruct x
         end; try discriminate; injection H as <-; reflexivity.
Qed.

Lemma scan_macro_or_content_true (l : Lexer) (valid : ValidSymbols)
    (l' : Lexer) :
  scan_macro_or_content l valid = (true, l') ->
  is_section_sym (result_symbol l') = false.
Proof.
  unfold scan_macro_or_content; cbv zeta; intros H.
  destruct (valid SIMPLE_MACRO || valid NEGATED_MACRO || valid SPECIAL_MACRO ||
            valid ESCAPED_PERCENT); [exact (scan_macro_true l valid l' H)|].
  repeat match type of H with
         | context [if ?b then _ else _] => destruct b
         | context [let '(_, _) := ?x in _] => destruct x
         end; try discriminate; injection H as <-; reflexivity.
Qed.

Lemma try_scan_parametric_macro_true (l : Lexer) (a : bool) (kw : list ascii)
    (len : nat) (l' : Lexer) :
  try_scan_parametric_macro l a kw len = (true, l') ->
  result_symbol l' = tok_id PARAMETRIC_MACRO_NAME.
Proof.
  unfold try_scan_parametric_macro; intros H.
  repeat match type of H with
         | context [if ?b then _ else _] => destruct b
         end; try discriminate; injection H as <-; reflexivity.
Qed.

Lemma consume_percent_fail (l : Lexer) :
  chr_eq (lookahead l) "%" = true ->
  is_identifier_start (lookahead (advance l)) = false ->
  consume_percent_and_identifier l 64 = (false, [], 0, advance l).
Proof.
  intros H1 H2; unfold consume_percent_and_identifier; cbv zeta.
  rewrite H1, H2; reflexivity.
Qed.

Lemma lookup_section_keyword_some (kw : list ascii) (len : nat)
    (name : string) (n : nat) (t : TokenType) :
  lookup_section_keyword kw len = Some (name, n, t) ->
  In (name, n, t) SECTION_KEYWORDS_MAP /\ strequal name kw len = true.
Proof.
  unfold lookup_section_keyword; intros H.
  apply find_some in H as [Hin Hs]; split; [exact Hin | exact Hs].
Qed.

Lemma section_keyword_short (name : string) (n : nat) (t : TokenType) :
  In (name, n, t) SECTION_KEYWORDS_MAP -> (String.length name <= 63)%nat.
Proof.
  intros H; repeat (destruct H as [H|H]; [injection H as <- <- <-; cbn; lia|]).
  destruct H.
Qed.

Lemma scan_percent_tokens_section (sc : Scanner) (l : Lexer)
    (valid : ValidSymbols) (sc' : Scanner) (l' : Lexer) :
  scan_percent_tokens sc l valid = inl (sc', l') ->
  is_section_sym (result_symbol l') = true ->
  exists ws name n t w r,
    rest l = ws ++ "%"%char :: w ++ r /\
    forallb is_horizontal_space ws = true /\
    w = s2l name /\ In (name, n, t) SECTION_KEYWORDS_MAP /\
    is_identifier_char (hd NUL r) = false /\
    result_symbol l' = tok_id t /\
    mark l' = pos l + length ws + S (length w).
Proof.
  intros H Hs; unfold scan_percent_tokens in H; cbv zeta in H.
  destruct (any_conditional_valid valid || valid PARAMETRIC_MACRO_NAME ||
            any_section_token_valid valid); [|discriminate].
  destruct (span_split is_horizontal_space eq_refl (rest l))
    as (ws & xs & Hl & Hws & Hxs).
  assert (Hsk : skip_leading_whitespace l =
                mkLexer xs (pos l + length ws) (mark l)
                  (if true && (0 <? length ws) then pos l + length ws
                   else start l) (result_symbol l))
    by (apply advance_while_app; auto).
  rewrite Hsk in H.
  set (L1 := mkLexer xs (pos l + length ws) (mark l)
               (if true && (0 <? length ws) then pos l + length ws
                else start l) (result_symbol l)) in H.
  destruct (chr_eq (lookahead L1) "%") eqn:Hp; [|discriminate].
  destruct xs as [|c0 xs]; [discriminate|].
  unfold L1, lookahead, chr_eq in Hp; cbn [rest] in Hp.
  apply Ascii.eqb_eq in Hp; subst c0.
  destruct (consume_percent_and_identifier (mark_end L1) 64)
    as [[[ok kw] len] l3] eqn:Ec.
  clear Hsk.
  destruct ok; [|discriminate].
  destruct xs as [|c xs].
  { rewrite consume_percent_fail in Ec; [discriminate | reflexivity |
      reflexivity]. }
  destruct (is_identifier_start c) eqn:Hc.
  2:{ rewrite consume_percent_fail in Ec; [discriminate | reflexivity |
      exact Hc]. }
  destruct (span_split is_identifier_char eq_refl xs)
    as (w' & r & -> & Hw' & Hr).
  rewrite (consume_percent_and_identifier_app c w' r) in Ec by
    first [reflexivity | assumption].
  remember (firstn 63 (c :: w')) as kw0 eqn:Ekw.
  injection Ec as <- <- <-; rename kw0 into kw.
  set (L3 := mkLexer r (pos l + length ws + S (S (length w')))
               (pos l + length ws)
               (if 0 <? length ws then pos l + length ws else start l)
               (result_symbol l)) in H.
  destruct (if any_conditional_valid valid && is_cond_keyword kw (S (length w'))
            then try_scan_conditional sc L3 valid kw (S (length w'))
            else (false, sc, L3)) as [[matched sc1] l4] eqn:Em.
  destruct matched; cbv beta iota in H.
  { injection H as <- <-.
    destruct (any_conditional_valid valid && is_cond_keyword kw (S (length w')));
      [|discriminate].
    rewrite (try_scan_conditional_true _ _ _ _ _ _ _ Em) in Hs; discriminate. }
  assert (Hl4 : l4 = L3).
  { destruct (any_conditional_valid valid && is_cond_keyword kw (S (length w'))).
    - apply try_scan_conditional_in_false in Em; destruct Em as [_ ->]; reflexivity.
    - injection Em as _ <-; reflexivity. }
  subst l4.
  assert (Hpm : forall l6,
            (if valid PARAMETRIC_MACRO_NAME then
               try_scan_parametric_macro L3 (negb (in_scriptlet_context valid))
                 kw (S (length w'))
             else (false, L3)) = (true, l6) ->
            result_symbol l6 = tok_id PARAMETRIC_MACRO_NAME).
  { intros l6 E; destruct (valid PARAMETRIC_MACRO_NAME); [|discriminate].
    exact (try_scan_parametric_macro_true _ _ _ _ _ E). }
  assert (Hnone : (if valid PARAMETRIC_MACRO_NAME then
               try_scan_parametric_macro L3 (negb (in_scriptlet_context valid))
                 kw (S (length w'))
             else (false, L3)) = (true, l') -> False).
  { intros E; rewrite (Hpm l' E) in Hs; discriminate. }
  destruct (any_section_token_valid valid &&
            negb (is_identifier_char (lookahead L3))) eqn:Hsv.
  2:{ cbv beta iota in H.
      destruct (if valid PARAMETRIC_MACRO_NAME then
                  try_scan_parametric_macro L3
                    (negb (in_scriptlet_context valid)) kw (S (length w'))
                else (false, L3)) as [[] l6] eqn:Ep; [|discriminate].
      injection H as <- <-; exfalso; apply Hnone; reflexivity. }
  destruct (lookup_section_keyword kw (S (length w'))) as [[[name n] t]|]
    eqn:El.
  2:{ cbv beta iota in H.
      destruct (if valid PARAMETRIC_MACRO_NAME then
                  try_scan_parametric_macro L3
                    (negb (in_scriptlet_context valid)) kw (S (length w'))
                else (false, L3)) as [[] l6] eqn:Ep; [|discriminate].
      injection H as <- <-; exfalso; apply Hnone; reflexivity. }
  destruct (valid t).
  2:{ cbv beta iota in H.
      destruct (if valid PARAMETRIC_MACRO_NAME then
                  try_scan_parametric_macro L3
                    (negb (in_scriptlet_context valid)) kw (S (length w'))
                else (false, L3)) as [[] l6] eqn:Ep; [|discriminate].
      injection H as <- <-; exfalso; apply Hnone; reflexivity. }
  cbv beta iota in H; injection H as <- <-.
  apply lookup_section_keyword_some in El as [Hin Heq].
  pose proof (section_keyword_short name n t Hin) as Hshort.
  assert (Hlen : S (length w') = String.length name).
  { unfold strequal in Heq; apply andb_prop in Heq as [Heq _].
    apply Nat.eqb_eq; exact Heq. }
  assert (Hkw : kw = c :: w')
    by (rewrite Ekw; apply firstn_all2; cbn [length]; lia).
  rewrite Hkw in Heq.
  change (S (length w')) with (length (c :: w')) in Heq.
  apply strequal_full in Heq.
  exists ws, name, n, t, (c :: w'), r.
  split; [exact Hl|]. split; [exact Hws|]. split; [exact Heq|].
  split; [exact Hin|]. split; [exact Hr|]. split; [reflexivity|].
  unfold L3; cbn [mark pos set_result mark_end length]; lia.
Qed.

Lemma horizontal_isspace (ws : list ascii) :
  forallb is_horizontal_space ws = true -> forallb isspace ws = true.
Proof.
  induction ws as [|c ws IH]; [reflexivity|]; cbn [forallb].
  intros H; apply andb_prop in H as [Hc H]; rewrite (IH H), andb_true_r.
  unfold is_horizontal_space in Hc; apply orb_prop in Hc as [Hc|Hc];
    unfold chr_eq in Hc; apply Ascii.eqb_eq in Hc; subst c; reflexivity.
Qed.

Lemma scan_after_filter_section (sc : Scanner) (l1 : Lexer)
    (valid : ValidSymbols) (sc' : Scanner) (l' : Lexer) :
  match scan_percent_tokens sc l1 valid with
  | inl (sc2, l2) => (true, sc2, l2)
  | inr l2 => let '(b, l3) := scan_macro_or_content l2 valid in (b, sc, l3)
  end = (true, sc', l') ->
  is_section_sym (result_symbol l') = true ->
  exists ws name n t w r,
    rest l1 = ws ++ "%"%char :: w ++ r /\
    forallb isspace ws = true /\
    w = s2l name /\ In (name, n, t) SECTION_KEYWORDS_MAP /\
    is_identifier_char (hd NUL r) = false /\
    result_symbol l' = tok_id t /\
    mark l' = pos l1 + length ws + S (length w).
Proof.
  intros H Hs.
  destruct (scan_percent_tokens sc l1 valid) as [[sc2 l2]|l2] eqn:Ep.
  - injection H as _ <-.
    destruct (scan_percent_tokens_section sc l1 valid sc2 l2 Ep Hs)
      as (ws & name & n & t & w & r & Hl & Hws & Hw & Hin & Hr & Hres & Hm).
    exists ws, name, n, t, w, r; repeat split; auto.
    apply horizontal_isspace; exact Hws.
  - destruct (scan_macro_or_content l2 valid) as [b l3] eqn:Em.
    injection H as -> _ <-.
    rewrite (scan_macro_or_content_true l2 valid l3 Em) in Hs; discriminate.
Qed.

Lemma rpmspec_scan_section_shape (sc : Scanner) (l : Lexer)
    (valid : ValidSymbols) (sc' : Scanner) (l' : Lexer) :
  rpmspec_scan sc l valid = (true, sc', l') ->
  is_section_sym (result_symbol l') = true ->
  exists ws name n t w r,
    rest l = ws ++ "%"%char :: w ++ r /\
    forallb isspace ws = true /\
    w = s2l name /\ In (name, n, t) SECTION_KEYWORDS_MAP /\
    is_identifier_char (hd NUL r) = false /\
    result_symbol l' = tok_id t /\
    mark l' = pos l + length ws + S (length w).
Proof.
  intros H Hs; unfold rpmspec_scan in H; cbv zeta in H.
  destruct (negb (valid EXPAND_CODE) && negb (valid SCRIPT_CODE)).
  - unfold newline_filter in H.
    pose proof (newline_filter_f_cases (S (length (rest l))) valid l) as Hnf.
    destruct (newline_filter_f (S (length (rest l))) valid l) as [l1|l1].
    + injection H as _ <-; rewrite Hnf in Hs; vm_compute in Hs; discriminate.
    + destruct Hnf as (ws0 & Hl0 & Hws0 & Hp0 & _).
      destruct (scan_after_filter_section sc l1 valid sc' l' H Hs)
        as (ws & name & n & t & w & r & Hl & Hws & Hw & Hin & Hr & Hres & Hm).
      exists (ws0 ++ ws), name, n, t, w, r.
      rewrite Hl0, Hl, <- app_assoc, forallb_app, Hws0, Hws, Hm, Hp0,
        length_app.
      repeat split; auto; lia.
  - exact (scan_after_filter_section sc l valid sc' l' H Hs).
Qed.

(** C10: every section-header token the scanner emits comes from a
    [%]-prefixed identifier (after blanks) that is exactly a section
    keyword and is followed by a non-identifier character; the token ends
    right after the keyword.  So an identifier that runs on past a section
    keyword never yields a section-header token.  With [%configure], the
    identifier falls through to the parametric-macro matcher (a
    [PARAMETRIC_MACRO_NAME] when it is admissible and a blank follows) or
    is handed on to the plain-macro stage past the identifier, while
    [%conf] itself gives the [conf] header. *)
Theorem section_token_boundary :
  (forall sc l valid sc' l',
     rpmspec_scan sc l valid = (true, sc', l') ->
     is_section_sym (result_symbol l') = true ->
     exists ws name n t w r,
       rest l = ws ++ "%"%char :: w ++ r /\
       forallb isspace ws = true /\
       w = s2l name /\ In (name, n, t) SECTION_KEYWORDS_MAP /\
       is_identifier_char (hd NUL r) = false /\
       result_symbol l' = tok_id t /\
       mark l' = pos l + length ws + S (length w)) /\
  (forall sc l valid name n t ext r sc' l',
     In (name, n, t) SECTION_KEYWORDS_MAP -> ext <> [] ->
     forallb is_identifier_char ext = true ->
     rest l = "%"%char :: s2l name ++ ext ++ r ->
     rpmspec_scan sc l valid = (true, sc', l') ->
     is_section_sym (result_symbol l') = false) /\
  rpmspec_scan rpmspec_create (lexer_at (s2l "%configure --prefix") 0)
    (valid_of [SECTION_CONF; PARAMETRIC_MACRO_NAME]) =
    (true, rpmspec_create,
     mkLexer (s2l " --prefix") 10 10 0 (tok_id PARAMETRIC_MACRO_NAME)) /\
  scan_percent_tokens rpmspec_create (lexer_at (s2l "%configure" ++ [nl]) 0)
    (valid_of [SECTION_CONF; SIMPLE_MACRO]) = inr (mkLexer [nl] 10 0 0 0) /\
  fst (fst (rpmspec_scan rpmspec_create (lexer_at (s2l "%configure" ++ [nl]) 0)
              (valid_of [SECTION_CONF; SIMPLE_MACRO]))) = false /\
  rpmspec_scan rpmspec_create (lexer_at (s2l "%conf" ++ [nl]) 0)
    (valid_of [SECTION_CONF; SIMPLE_MACRO]) =
    (true, rpmspec_create, mkLexer [nl] 5 5 0 (tok_id SECTION_CONF)).
Proof.
  split; [|split; [|split; [|split; [|split]]]].
  - exact rpmspec_scan_section_shape.
  - intros sc l valid name n t ext r sc' l' Hin Hext Hexti Hl H.
    destruct (is_section_sym (result_symbol l')) eqn:Hs; [exfalso|reflexivity].
    destruct (rpmspec_scan_section_shape sc l valid sc' l' H Hs)
      as (ws & name' & n' & t' & w & r' & Hl' & Hws & Hw & Hin' & Hr' & _ & _).
    rewrite Hl in Hl'; subst w.
    destruct ws as [|c ws].
    2:{ injection Hl' as Hc _; subst c; discriminate Hws. }
    cbn [app] in Hl'; injection Hl' as Hl'.
    destruct ext as [|e ext]; [congruence|].
    cbn [forallb] in Hexti; apply andb_prop in Hexti as [He _].
    repeat (destruct Hin as [Hin|Hin]; [injection Hin as <- <- <-|]);
      [| | | | | | | destruct Hin];
    (repeat (destruct Hin' as [Hin'|Hin']; [injection Hin' as <- <- <-|]);
      [| | | | | | | destruct Hin']);
    cbn in Hl'; inversion Hl'; subst; cbn [hd] in Hr'; congruence.
  - vm_compute; reflexivity.
  - vm_compute; reflexivity.
  - vm_compute; reflexivity.
  - vm_compute; reflexivity.
Qed.

(** ** The main scan: token extent, admissible kinds and token shapes *)

Lemma fwd_refl (l : Lexer) : fwd l l.
Proof. split; [lia|]; rewrite Nat.sub_diag; reflexivity. Qed.

Lemma fwd_trans (l1 l2 l3 : Lexer) : fwd l1 l2 -> fwd l2 l3 -> fwd l1 l3.
Proof.
  intros [H1 E1] [H2 E2]; split; [lia|].
  rewrite E2, E1, skipn_skipn; f_equal; lia.
Qed.

Lemma fwd_adv (b : bool) (l : Lexer) : fwd l (lex_advance b l).
Proof.
  destruct l as [[|c r] p m s rs]; [apply fwd_refl|].
  split; cbn [lex_advance rest pos]; [lia|].
  replace (S p - p)%nat with 1%nat by lia; reflexivity.
Qed.

Lemma fwd_mark (l : Lexer) : fwd l (mark_end l).
Proof.
  unfold fwd; destruct l as [rl p m s rs]; cbn [mark_end set_result rest pos].
  rewrite Nat.sub_diag; split; [lia | reflexivity].
Qed.

Lemma fwd_set (n : nat) (l : Lexer) : fwd l (set_result n l).
Proof.
  unfold fwd; destruct l as [rl p m s rs]; cbn [mark_end set_result rest pos].
  rewrite Nat.sub_diag; split; [lia | reflexivity].
Qed.

Lemma nomark_refl (l : Lexer) : nomark l l.
Proof. split; [apply fwd_refl | auto]. Qed.

Lemma nomark_trans (l1 l2 l3 : Lexer) :
  nomark l1 l2 -> nomark l2 l3 -> nomark l1 l3.
Proof.
  intros (F1 & S1 & M1) (F2 & S2 & M2).
  split; [eapply fwd_trans; eauto | split; congruence].
Qed.

Lemma nomark_adv (l : Lexer) : nomark l (advance l).
Proof.
  split; [apply fwd_adv|].
  destruct l as [[|c r] p m s rs]; split; reflexivity.
Qed.

Lemma pos_adv (b : bool) (l : Lexer) :
  eof l = false -> pos (lex_advance b l) = S (pos l).
Proof. destruct l as [[|c r] p m s rs]; cbn; congruence. Qed.

Lemma eof_of_lookahead (l : Lexer) (c : ascii) :
  chr_eq (lookahead l) c = true -> chr_eq c NUL = false -> eof l = false.
Proof.
  destruct l as [[|c' r] p m s rs]; [|reflexivity].
  unfold lookahead, chr_eq; cbn [rest]; intros H; apply Ascii.eqb_eq in H; subst c.
  rewrite Ascii.eqb_refl; discriminate.
Qed.

Lemma pre_adv (b : bool) (l : Lexer) : pre_ok l -> pre_ok (lex_advance b l).
Proof.
  unfold pre_ok; destruct l as [[|c r] p m s rs]; cbn; [auto|].
  destruct b; lia.
Qed.

Lemma pre_nomark (l l' : Lexer) : nomark l l' -> pre_ok l -> pre_ok l'.
Proof.
  unfold pre_ok; intros ((Hp & _) & Hs & _); rewrite Hs; lia.
Qed.

Lemma tok_nomark (l l' : Lexer) : nomark l l' -> tok_ok l -> tok_ok l'.
Proof.
  unfold tok_ok; intros ((Hp & _) & Hs & Hm); rewrite Hs, Hm; lia.
Qed.

Lemma tok_mark (l : Lexer) : (start l < pos l)%nat -> tok_ok (mark_end l).
Proof. destruct l; unfold tok_ok; cbn; lia. Qed.

Lemma nomark_fwd (l l' : Lexer) : nomark l l' -> fwd l l'.
Proof. intros [F _]; exact F. Qed.

Lemma nomark_consumed (l l' : Lexer) :
  nomark l l' -> (start l < pos l)%nat -> (start l' < pos l')%nat.
Proof. intros ((Hp & _) & Hs & _); rewrite Hs; lia. Qed.

(** Loops that advance without skipping and without marking. *)

Lemma advance_while_f_nomark (pred : ascii -> bool) :
  forall f l, nomark l (advance_while_f f pred false l).
Proof.
  induction f as [|f IH]; intros l; cbn [advance_while_f]; [apply nomark_refl|].
  destruct (pred (lookahead l)); [|apply nomark_refl].
  eapply nomark_trans; [apply nomark_adv | apply IH].
Qed.

Lemma advance_while_f_skip (pred : ascii -> bool) :
  forall f l, pre_ok l ->
    pre_ok (advance_while_f f pred true l) /\
    fwd l (advance_while_f f pred true l) /\
    mark (advance_while_f f pred true l) = mark l.
Proof.
  induction f as [|f IH]; intros l Hl; cbn [advance_while_f];
    [split; [exact Hl | split; [apply fwd_refl | reflexivity]]|].
  destruct (pred (lookahead l)); [|split; [exact Hl | split; [apply fwd_refl | reflexivity]]].
  destruct (IH (lex_advance true l) (pre_adv true l Hl)) as (H1 & H2 & H3).
  split; [exact H1|]; split; [eapply fwd_trans; [apply fwd_adv | exact H2]|].
  rewrite H3; destruct l as [[|c r] p m s rs]; reflexivity.
Qed.

Lemma buffer_ident_nomark (room : nat) :
  forall l, nomark l (snd (buffer_ident room l)).
Proof.
  induction room as [|room IH]; intros l; cbn [buffer_ident]; [apply nomark_refl|].
  destruct (is_identifier_char (lookahead l)); [|apply nomark_refl].
  specialize (IH (advance l)).
  destruct (buffer_ident room (advance l)) as [b l']; cbn [snd] in *.
  eapply nomark_trans; [apply nomark_adv | exact IH].
Qed.

Lemma count_ident_rest_f_nomark (f : nat) :
  forall l, nomark l (snd (count_ident_rest_f f l)).
Proof.
  induction f as [|f IH]; intros l; cbn [count_ident_rest_f]; [apply nomark_refl|].
  destruct (is_identifier_char (lookahead l)); [|apply nomark_refl].
  specialize (IH (advance l)).
  destruct (count_ident_rest_f f (advance l)) as [k l']; cbn [snd] in *.
  eapply nomark_trans; [apply nomark_adv | exact IH].
Qed.

Lemma cbhs_step_nomark (s : CState) :
  match cbhs_step s with
  | CCont s' => nomark (clex s) (clex s')
  | CRet s' _ => nomark (clex s) (clex s')
  end.
Proof.
  unfold cbhs_step; cbv zeta.
  destruct (chr_eq (lookahead (clex s)) cr || chr_eq (lookahead (clex s)) nl).
  { cbn [clex]; destruct (chr_eq (lookahead (clex s)) cr &&
                          chr_eq (lookahead (advance (clex s))) nl);
      [eapply nomark_trans; apply nomark_adv | apply nomark_adv]. }
  destruct (chr_eq (lookahead (clex s)) " " || chr_eq (lookahead (clex s)) tab).
  { apply nomark_adv. }
  destruct (chr_eq (lookahead (clex s)) "%" && at_line_start s);
    [|apply nomark_adv].
  pose proof (buffer_ident_nomark 31 (advance (clex s))) as Hb.
  destruct (buffer_ident 31 (advance (clex s))) as [id l2]; cbn [snd] in Hb.
  assert (H : nomark (clex s) l2) by (eapply nomark_trans; [apply nomark_adv | exact Hb]).
  repeat match goal with
         | |- context [if ?b then _ else _] => destruct b
         end; exact H.
Qed.

Lemma cbhs_loop_nomark (f : nat) :
  forall s, nomark (clex s) (clex (snd (cbhs_loop f s))).
Proof.
  induction f as [|f IH]; intros s; cbn [cbhs_loop]; [apply nomark_refl|].
  destruct (cbhs_guard s); [|apply nomark_refl].
  pose proof (cbhs_step_nomark s) as Hs.
  destruct (cbhs_step s) as [s'|s' b]; [|exact Hs].
  eapply nomark_trans; [exact Hs | apply IH].
Qed.

Lemma cached_nomark (sc : Scanner) (l : Lexer) :
  nomark l (snd (conditional_body_has_section_cached sc l)).
Proof.
  unfold conditional_body_has_section_cached.
  destruct (lookahead_cache_valid sc); [apply nomark_refl|].
  unfold conditional_body_has_section.
  pose proof (cbhs_loop_nomark (S (length (rest l))) (cbhs_init l)) as H.
  unfold cbhs_run; destruct (cbhs_loop (S (length (rest l))) (cbhs_init l))
    as [b s]; exact H.
Qed.

Lemma select_nomark (sc : Scanner) (l : Lexer) (ctx : CondTokens) :
  nomark l (snd (select_conditional_token_type sc l ctx)).
Proof.
  unfold select_conditional_token_type.
  repeat match goal with
         | |- context [if ?b then _ else _] =>
             lazymatch b with
             | context [conditional_body_has_section_cached] => fail
             | _ => destruct b
             end
         end; try apply nomark_refl.
  all: pose proof (cached_nomark sc l) as H;
    destruct (conditional_body_has_section_cached sc l) as [[hs sc1] l1];
    cbn [snd] in H |- *;
    destruct hs; try destruct (subsection_valid ctx); exact H.
Qed.

Lemma fwd_keep_refl (l : Lexer) : fwd_keep l l.
Proof. split; [apply fwd_refl | reflexivity]. Qed.

Lemma fwd_keep_trans (l1 l2 l3 : Lexer) :
  fwd_keep l1 l2 -> fwd_keep l2 l3 -> fwd_keep l1 l3.
Proof.
  intros [F1 S1] [F2 S2]; split; [eapply fwd_trans; eauto | congruence].
Qed.

Lemma fwd_keep_adv (l : Lexer) : fwd_keep l (advance l).
Proof. destruct (nomark_adv l) as (F & S & _); split; assumption. Qed.

Lemma fwd_keep_mark (l : Lexer) : fwd_keep l (mark_end l).
Proof. split; [apply fwd_mark | destruct l; reflexivity]. Qed.

Lemma fwd_keep_set (n : nat) (l : Lexer) : fwd_keep l (set_result n l).
Proof. split; [apply fwd_set | destruct l; reflexivity]. Qed.

Lemma nomark_keep (l l' : Lexer) : nomark l l' -> fwd_keep l l'.
Proof. intros (F & S & _); split; assumption. Qed.

Lemma pre_keep (l l' : Lexer) : fwd_keep l l' -> pre_ok l -> pre_ok l'.
Proof. unfold pre_ok; intros ((Hp & _) & Hs); rewrite Hs; lia. Qed.

Lemma cons_keep (l l' : Lexer) :
  fwd_keep l l' -> (start l < pos l)%nat -> (start l' < pos l')%nat.
Proof. intros ((Hp & _) & Hs); rewrite Hs; lia. Qed.

Lemma cons_adv (l : Lexer) :
  pre_ok l -> eof l = false -> (start (advance l) < pos (advance l))%nat.
Proof.
  unfold pre_ok; intros H He; unfold advance; rewrite (pos_adv false l He).
  destruct l as [[|c r] p m s rs]; cbn in *; [discriminate | lia].
Qed.

Lemma tok_set (n : nat) (l : Lexer) : tok_ok l -> tok_ok (set_result n l).
Proof. destruct l; exact (fun H => H). Qed.

Lemma tok_remark (l : Lexer) : tok_ok l -> tok_ok (mark_end l).
Proof. destruct l; unfold tok_ok; cbn; lia. Qed.

Lemma tok_adv (l : Lexer) : tok_ok l -> tok_ok (advance l).
Proof. intros H; apply (tok_nomark l); [apply nomark_adv | exact H]. Qed.

Lemma pre_mark (l : Lexer) : pre_ok l -> pre_ok (mark_end l).
Proof. destruct l; exact (fun H => H). Qed.

Lemma eof_mark (l : Lexer) : eof (mark_end l) = eof l.
Proof. destruct l; reflexivity. Qed.

Lemma lookahead_mark (l : Lexer) : lookahead (mark_end l) = lookahead l.
Proof. destruct l; reflexivity. Qed.

Lemma advance_while_keep (pred : ascii -> bool) (l : Lexer) :
  fwd_keep l (advance_while pred false l).
Proof. apply nomark_keep, advance_while_f_nomark. Qed.

Lemma buffer_ident_consumes (r : nat) (l : Lexer) (b : list ascii)
    (l1 : Lexer) :
  buffer_ident (S r) l = (b, l1) -> is_identifier_char (lookahead l) = true ->
  nomark (advance l) l1.
Proof.
  intros H Hc; cbn [buffer_ident] in H; rewrite Hc in H.
  pose proof (buffer_ident_nomark r (advance l)) as Hn.
  destruct (buffer_ident r (advance l)) as [b' l']; injection H as _ <-.
  exact Hn.
Qed.

Lemma count_ident_rest_keep (l : Lexer) :
  fwd_keep l (snd (count_ident_rest l)).
Proof. apply nomark_keep, count_ident_rest_f_nomark. Qed.

Lemma ident_start_char (c : ascii) :
  is_identifier_start c = true -> is_identifier_char c = true.
Proof. unfold is_identifier_char; intros H; now rewrite H. Qed.

Lemma chr_eq_true (c d : ascii) : chr_eq c d = true -> c = d.
Proof. unfold chr_eq; apply Ascii.eqb_eq. Qed.

Lemma expand_loop_ok (f : nat) :
  forall d h l,
    let '(b, l') := expand_loop f d h l in
    fwd_keep l l' /\
    (pre_ok l -> (h = true -> tok_ok l) -> b = true -> tok_ok l').
Proof.
  induction f as [|f IH]; intros d h l; cbn [expand_loop].
  { split; [apply fwd_keep_refl | auto]. }
  destruct (eof l) eqn:He.
  { split; [apply fwd_keep_refl | auto]. }
  cbv zeta.
  assert (Hc1 : pre_ok l -> (start (advance (mark_end l)) < pos (advance (mark_end l)))%nat)
    by (intros Hp; apply cons_adv; [apply pre_mark, Hp | rewrite eof_mark; exact He]).
  assert (Hc0 : pre_ok l -> (start (advance l) < pos (advance l))%nat)
    by (intros Hp; apply cons_adv; assumption).
  assert (K1 : fwd_keep l (advance (mark_end l)))
    by (eapply fwd_keep_trans; [apply fwd_keep_mark | apply fwd_keep_adv]).
  destruct (chr_eq (lookahead l) "%") eqn:Hp.
  - destruct (eof (advance (mark_end l))) eqn:He1.
    { split; [eapply fwd_keep_trans; [exact K1 | apply fwd_keep_mark]|].
      intros Hpre _ _; apply tok_mark, Hc1, Hpre. }
    set (l1 := advance (mark_end l)) in *.
    destruct (chr_eq (lookahead l1) "%" || chr_eq (lookahead l1) "#" ||
              chr_eq (lookahead l1) "*").
    { pose proof (IH d true (mark_end (advance l1))) as Hr.
      destruct (expand_loop f d true (mark_end (advance l1))) as [b l'].
      destruct Hr as [Kr Tr].
      assert (K : fwd_keep l (mark_end (advance l1))).
      { eapply fwd_keep_trans; [exact K1|].
        eapply fwd_keep_trans; [apply fwd_keep_adv | apply fwd_keep_mark]. }
      split; [eapply fwd_keep_trans; eauto|].
      intros Hpre _ Hb; apply Tr; auto.
      - apply (pre_keep l); auto.
      - intros _; apply tok_mark.
        apply (cons_keep l1); [apply fwd_keep_adv | apply Hc1, Hpre]. }
    destruct (chr_eq (lookahead l1) "{").
    { split; [exact K1|].
      intros Hpre Hh Hb; subst h.
      specialize (Hh eq_refl).
      unfold l1; apply tok_adv, tok_remark, Hh. }
    destruct (isdigit (lookahead l1)).
    { pose proof (IH d true (mark_end (advance_while isdigit false l1))) as Hr.
      destruct (expand_loop f d true (mark_end (advance_while isdigit false l1)))
        as [b l'].
      destruct Hr as [Kr Tr].
      assert (K : fwd_keep l (mark_end (advance_while isdigit false l1))).
      { eapply fwd_keep_trans; [exact K1|].
        eapply fwd_keep_trans; [apply advance_while_keep | apply fwd_keep_mark]. }
      split; [eapply fwd_keep_trans; eauto|].
      intros Hpre _ Hb; apply Tr; auto.
      - apply (pre_keep l); auto.
      - intros _; apply tok_mark.
        apply (cons_keep l1); [apply advance_while_keep | apply Hc1, Hpre]. }
    { pose proof (IH d true (mark_end l1)) as Hr.
      destruct (expand_loop f d true (mark_end l1)) as [b l'].
      destruct Hr as [Kr Tr].
      assert (K : fwd_keep l (mark_end l1))
        by (eapply fwd_keep_trans; [exact K1 | apply fwd_keep_mark]).
      split; [eapply fwd_keep_trans; eauto|].
      intros Hpre _ Hb; apply Tr; auto.
      - apply (pre_keep l); auto.
      - intros _; apply tok_mark, Hc1, Hpre. }
  - assert (K2 : fwd_keep l (mark_end (advance l)))
      by (eapply fwd_keep_trans; [apply fwd_keep_adv | apply fwd_keep_mark]).
    assert (T2 : pre_ok l -> tok_ok (mark_end (advance l)))
      by (intros Hpre; apply tok_mark, Hc0, Hpre).
    destruct (chr_eq (lookahead l) "{").
    { pose proof (IH (d + 1)%Z true (mark_end (advance l))) as Hr.
      destruct (expand_loop f (d + 1)%Z true (mark_end (advance l))) as [b l'].
      destruct Hr as [Kr Tr].
      split; [eapply fwd_keep_trans; eauto|].
      intros Hpre _ Hb; apply Tr; auto; apply (pre_keep l); auto. }
    destruct (chr_eq (lookahead l) "}").
    { destruct (d =? 0)%Z.
      { split; [apply fwd_keep_refl|]. intros _ Hh Hb; subst h; auto. }
      pose proof (IH (d - 1)%Z true (mark_end (advance l))) as Hr.
      destruct (expand_loop f (d - 1)%Z true (mark_end (advance l))) as [b l'].
      destruct Hr as [Kr Tr].
      split; [eapply fwd_keep_trans; eauto|].
      intros Hpre _ Hb; apply Tr; auto; apply (pre_keep l); auto. }
    pose proof (IH d true (mark_end (advance l))) as Hr.
    destruct (expand_loop f d true (mark_end (advance l))) as [b l'].
    destruct Hr as [Kr Tr].
    split; [eapply fwd_keep_trans; eauto|].
    intros Hpre _ Hb; apply Tr; auto; apply (pre_keep l); auto.
Qed.

Lemma shell_loop_ok (f : nat) :
  forall d h l,
    let '(b, l') := shell_loop f d h l in
    fwd_keep l l' /\
    (pre_ok l -> (h = true -> tok_ok l) -> b = true -> tok_ok l').
Proof.
  induction f as [|f IH]; intros d h l; cbn [shell_loop].
  { split; [apply fwd_keep_refl | auto]. }
  destruct (eof l) eqn:He.
  { split; [apply fwd_keep_refl | auto]. }
  cbv zeta.
  assert (Hc1 : pre_ok l -> (start (advance (mark_end l)) < pos (advance (mark_end l)))%nat)
    by (intros Hp; apply cons_adv; [apply pre_mark, Hp | rewrite eof_mark; exact He]).
  assert (Hc0 : pre_ok l -> (start (advance l) < pos (advance l))%nat)
    by (intros Hp; apply cons_adv; assumption).
  assert (K1 : fwd_keep l (advance (mark_end l)))
    by (eapply fwd_keep_trans; [apply fwd_keep_mark | apply fwd_keep_adv]).
  destruct (chr_eq (lookahead l) "%") eqn:Hp.
  - destruct (eof (advance (mark_end l))) eqn:He1.
    { split; [eapply fwd_keep_trans; [exact K1 | apply fwd_keep_mark]|].
      intros Hpre _ _; apply tok_mark, Hc1, Hpre. }
    set (l1 := advance (mark_end l)) in *.
    destruct (is_macro_start (lookahead l1)).
    { split; [exact K1|].
      intros Hpre Hh Hb; subst h.
      specialize (Hh eq_refl).
      unfold l1; apply tok_adv, tok_remark, Hh. }
    { pose proof (IH d true (mark_end l1)) as Hr.
      destruct (shell_loop f d true (mark_end l1)) as [b l'].
      destruct Hr as [Kr Tr].
      assert (K : fwd_keep l (mark_end l1))
        by (eapply fwd_keep_trans; [exact K1 | apply fwd_keep_mark]).
      split; [eapply fwd_keep_trans; eauto|].
      intros Hpre _ Hb; apply Tr; auto.
      - apply (pre_keep l); auto.
      - intros _; apply tok_mark, Hc1, Hpre. }
  - assert (K2 : fwd_keep l (mark_end (advance l)))
      by (eapply fwd_keep_trans; [apply fwd_keep_adv | apply fwd_keep_mark]).
    destruct (chr_eq (lookahead l) "(").
    { pose proof (IH (d + 1)%Z true (mark_end (advance l))) as Hr.
      destruct (shell_loop f (d + 1)%Z true (mark_end (advance l))) as [b l'].
      destruct Hr as [Kr Tr].
      split; [eapply fwd_keep_trans; eauto|].
      intros Hpre _ Hb; apply Tr; auto; [apply (pre_keep l); auto|].
      intros _; apply tok_mark, Hc0, Hpre. }
    destruct (chr_eq (lookahead l) ")").
    { destruct (d =? 0)%Z.
      { split; [apply fwd_keep_refl|]. intros _ Hh Hb; subst h; auto. }
      pose proof (IH (d - 1)%Z true (mark_end (advance l))) as Hr.
      destruct (shell_loop f (d - 1)%Z true (mark_end (advance l))) as [b l'].
      destruct Hr as [Kr Tr].
      split; [eapply fwd_keep_trans; eauto|].
      intros Hpre _ Hb; apply Tr; auto; [apply (pre_keep l); auto|].
      intros _; apply tok_mark, Hc0, Hpre. }
    pose proof (IH d true (mark_end (advance l))) as Hr.
    destruct (shell_loop f d true (mark_end (advance l))) as [b l'].
    destruct Hr as [Kr Tr].
    split; [eapply fwd_keep_trans; eauto|].
    intros Hpre _ Hb; apply Tr; auto; [apply (pre_keep l); auto|].
    intros _; apply tok_mark, Hc0, Hpre.
Qed.

Lemma admissible_set (valid : ValidSymbols) (t : TokenType) (l : Lexer) :
  valid t = true -> admissible valid (set_result (tok_id t) l).
Proof. intros H; exists t; split; [exact H | destruct l; reflexivity]. Qed.

Lemma advance_while_first (pred : ascii -> bool) (l : Lexer) :
  pred (lookahead l) = true ->
  fwd_keep (advance l) (advance_while pred false l).
Proof.
  intros H; unfold advance_while; destruct l as [[|c r] p m s rs].
  - apply fwd_keep_refl.
  - cbn [rest length advance_while_f]; rewrite H.
    apply nomark_keep, advance_while_f_nomark.
Qed.

Lemma scan_macro_ok (l : Lexer) (valid : ValidSymbols) :
  let '(b, l') := scan_macro l valid in
  fwd_keep l l' /\
  (b = true -> admissible valid l' /\ (pre_ok l -> tok_ok l')).
Proof.
  unfold scan_macro; cbv zeta.
  assert (K0 : fwd_keep l (mark_end l)) by apply fwd_keep_mark.
  assert (P0 : pre_ok l -> pre_ok (mark_end l)) by apply pre_mark.
  assert (C0 : forall c, chr_eq (lookahead l) c = true -> chr_eq c NUL = false ->
            pre_ok l -> (start (advance (mark_end l)) < pos (advance (mark_end l)))%nat).
  { intros c Hc Hn Hp; apply cons_adv; [apply pre_mark, Hp|].
    rewrite eof_mark; exact (eof_of_lookahead l c Hc Hn). }
  assert (K1 : fwd_keep l (advance (mark_end l)))
    by (eapply fwd_keep_trans; [exact K0 | apply fwd_keep_adv]).
  destruct (chr_eq (lookahead l) "%") eqn:H1.
  { destruct (valid ESCAPED_PERCENT) eqn:Hv; [|split; [exact K0 | discriminate]].
    split.
    - eapply fwd_keep_trans; [exact K1|].
      eapply fwd_keep_trans; [apply fwd_keep_mark | apply fwd_keep_set].
    - intros _; split; [apply admissible_set, Hv|].
      intros Hp; apply tok_set, tok_mark, (C0 "%"%char H1 eq_refl Hp). }
  destruct (chr_eq (lookahead l) "!") eqn:H2.
  { destruct (valid NEGATED_MACRO) eqn:Hv; cbn [negb];
      [|split; [exact K0 | discriminate]].
    destruct (chr_eq (lookahead (advance (mark_end l))) "?");
      [split; [exact K1 | discriminate]|].
    destruct (is_identifier_start (lookahead (advance (mark_end l)))); cbn [negb];
      [|split; [exact K1 | discriminate]].
    assert (K2 : fwd_keep l (advance_while is_identifier_char false
                               (advance (mark_end l))))
      by (eapply fwd_keep_trans; [exact K1 | apply advance_while_keep]).
    split.
    - eapply fwd_keep_trans; [exact K2|].
      eapply fwd_keep_trans; [apply fwd_keep_mark | apply fwd_keep_set].
    - intros _; split; [apply admissible_set, Hv|].
      intros Hp; apply tok_set, tok_mark.
      apply (cons_keep (advance (mark_end l))); [apply advance_while_keep|].
      exact (C0 "!"%char H2 eq_refl Hp). }
  destruct (chr_eq (lookahead l) "*") eqn:H3.
  { destruct (valid SPECIAL_MACRO) eqn:Hv; cbn [negb];
      [|split; [exact K0 | discriminate]].
    set (l1 := advance (mark_end l)) in *.
    assert (K2 : fwd_keep l1 (if chr_eq (lookahead l1) "*" then advance l1 else l1))
      by (destruct (chr_eq (lookahead l1) "*");
          [apply fwd_keep_adv | apply fwd_keep_refl]).
    split.
    - eapply fwd_keep_trans; [exact K1|].
      eapply fwd_keep_trans; [exact K2|].
      eapply fwd_keep_trans; [apply fwd_keep_mark | apply fwd_keep_set].
    - intros _; split; [apply admissible_set, Hv|].
      intros Hp; apply tok_set, tok_mark.
      apply (cons_keep l1); [exact K2 | exact (C0 "*"%char H3 eq_refl Hp)]. }
  destruct (chr_eq (lookahead l) "#") eqn:H4.
  { destruct (valid SPECIAL_MACRO) eqn:Hv; cbn [negb];
      [|split; [exact K0 | discriminate]].
    split.
    - eapply fwd_keep_trans; [exact K1|].
      eapply fwd_keep_trans; [apply fwd_keep_mark | apply fwd_keep_set].
    - intros _; split; [apply admissible_set, Hv|].
      intros Hp; apply tok_set, tok_mark, (C0 "#"%char H4 eq_refl Hp). }
  destruct (isdigit (lookahead l)) eqn:H5.
  { destruct (valid SPECIAL_MACRO) eqn:Hv; cbn [negb];
      [|split; [exact K0 | discriminate]].
    (* the first digit is consumed by the loop *)
    assert (Hne : eof (mark_end l) = false).
    { rewrite eof_mark; destruct l as [[|c r] p m s rs]; [|reflexivity].
      discriminate H5. }
    assert (K2 : fwd_keep (advance (mark_end l))
                   (advance_while isdigit false (mark_end l)))
      by (apply advance_while_first; rewrite lookahead_mark; exact H5).
    split.
    - eapply fwd_keep_trans; [exact K1|].
      eapply fwd_keep_trans; [exact K2|].
      eapply fwd_keep_trans; [apply fwd_keep_mark | apply fwd_keep_set].
    - intros _; split; [apply admissible_set, Hv|].
      intros Hp; apply tok_set, tok_mark.
      apply (cons_keep (advance (mark_end l))); [exact K2|].
      apply cons_adv; [apply pre_mark, Hp | exact Hne]. }
  destruct (is_identifier_start (lookahead l)) eqn:H6;
    [|split; [exact K0 | discriminate]].
  destruct (valid SIMPLE_MACRO) eqn:Hv; cbn [negb];
    [|split; [exact K0 | discriminate]].
  destruct (buffer_ident 63 (mark_end l)) as [id l1] eqn:Eb.
  pose proof (buffer_ident_consumes 62 (mark_end l) id l1 Eb) as Hb.
  rewrite lookahead_mark in Hb; specialize (Hb (ident_start_char _ H6)).
  pose proof (count_ident_rest_keep l1) as Hk.
  destruct (count_ident_rest l1) as [extra l2]; cbn [snd] in Hk.
  assert (K2 : fwd_keep l l2).
  { eapply fwd_keep_trans; [exact K1|].
    eapply fwd_keep_trans; [apply nomark_keep, Hb | exact Hk]. }
  assert (C2 : pre_ok l -> (start l2 < pos l2)%nat).
  { intros Hp; apply (cons_keep l1); [exact Hk|].
    apply (cons_keep (advance (mark_end l))); [apply nomark_keep, Hb|].
    apply cons_adv; [apply pre_mark, Hp|].
    rewrite eof_mark; destruct l as [[|c r] p m s rs]; [|reflexivity].
    discriminate H6. }
  assert (KT : fwd_keep l (set_result 0 (mark_end l2)) /\
               (pre_ok l -> tok_ok (set_result 0 (mark_end l2)))).
  { split.
    - eapply fwd_keep_trans; [exact K2|].
      eapply fwd_keep_trans; [apply fwd_keep_mark | apply fwd_keep_set].
    - intros Hp; apply tok_set, tok_mark, C2, Hp. }
  destruct (is_keyword id (length id + extra)); [split; [exact K2 | discriminate]|].
  destruct (is_patch_legacy id (length id + extra)); [split; [exact K2 | discriminate]|].
  destruct (is_nil id (length id + extra)).
  - destruct (valid SPECIAL_MACRO) eqn:Hs; [|split; [exact K2 | discriminate]].
    split.
    + eapply fwd_keep_trans; [exact K2|].
      eapply fwd_keep_trans; [apply fwd_keep_mark | apply fwd_keep_set].
    + intros _; split; [apply admissible_set, Hs|].
      intros Hp; apply tok_set, tok_mark, C2, Hp.
  - split; [apply KT|].
    intros _; split; [apply admissible_set, Hv | apply KT].
Qed.

Lemma scan_macro_or_content_ok (l : Lexer) (valid : ValidSymbols) :
  let '(b, l') := scan_macro_or_content l valid in
  fwd_keep l l' /\
  (b = true -> admissible valid l' /\ (pre_ok l -> tok_ok l')).
Proof.
  unfold scan_macro_or_content; cbv zeta.
  destruct (valid SIMPLE_MACRO || valid NEGATED_MACRO || valid SPECIAL_MACRO ||
            valid ESCAPED_PERCENT); [apply scan_macro_ok|].
  assert (E : let '(e, l1) := if valid EXPAND_CODE then scan_expand_content l
                              else (false, l) in
              fwd_keep l l1 /\ (e = true -> valid EXPAND_CODE = true /\
                                            (pre_ok l -> tok_ok l1))).
  { destruct (valid EXPAND_CODE); [|split; [apply fwd_keep_refl | discriminate]].
    unfold scan_expand_content.
    pose proof (expand_loop_ok (S (length (rest l))) 0%Z false l) as H.
    destruct (expand_loop (S (length (rest l))) 0%Z false l) as [e l1].
    destruct H as [K T]; split; [exact K|].
    intros He; split; [reflexivity|]; intros Hp; apply T; auto; discriminate. }
  destruct (if valid EXPAND_CODE then scan_expand_content l else (false, l))
    as [e l1].
  destruct E as [K1 T1].
  destruct e.
  { destruct (T1 eq_refl) as [Hv Tk].
    split; [eapply fwd_keep_trans; [exact K1 | apply fwd_keep_set]|].
    intros _; split; [apply admissible_set, Hv|].
    intros Hp; apply tok_set, Tk, Hp. }
  assert (S2 : let '(s, l2) := if valid SCRIPT_CODE then scan_shell_content l1
                               else (false, l1) in
              fwd_keep l1 l2 /\ (s = true -> valid SCRIPT_CODE = true /\
                                            (pre_ok l1 -> tok_ok l2))).
  { destruct (valid SCRIPT_CODE); [|split; [apply fwd_keep_refl | discriminate]].
    unfold scan_shell_content.
    pose proof (shell_loop_ok (S (length (rest l1))) 0%Z false l1) as H.
    destruct (shell_loop (S (length (rest l1))) 0%Z false l1) as [s l2].
    destruct H as [K T]; split; [exact K|].
    intros Hs; split; [reflexivity|]; intros Hp; apply T; auto; discriminate. }
  destruct (if valid SCRIPT_CODE then scan_shell_content l1 else (false, l1))
    as [s l2].
  destruct S2 as [K2 T2].
  destruct s.
  { destruct (T2 eq_refl) as [Hv Tk].
    split; [eapply fwd_keep_trans; [exact K1|];
            eapply fwd_keep_trans; [exact K2 | apply fwd_keep_set]|].
    intros _; split; [apply admissible_set, Hv|].
    intros Hp; apply tok_set, Tk, (pre_keep l); auto. }
  split; [eapply fwd_keep_trans; eauto | discriminate].
Qed.

Lemma consume_ok (l : Lexer) (n : nat) :
  let '(ok, _, _, l') := consume_percent_and_identifier l n in
  nomark l l' /\ (ok = true -> (S (pos l) <= pos l')%nat).
Proof.
  unfold consume_percent_and_identifier.
  destruct (chr_eq (lookahead l) "%") eqn:Hp; cbn [negb];
    [|split; [apply nomark_refl | discriminate]].
  assert (He : eof l = false) by exact (eof_of_lookahead l "%" Hp eq_refl).
  destruct (is_identifier_start (lookahead (advance l))); cbn [negb];
    [|split; [apply nomark_adv | discriminate]].
  pose proof (buffer_ident_nomark (n - 1) (advance l)) as Hb.
  destruct (buffer_ident (n - 1) (advance l)) as [id l2]; cbn [snd] in Hb.
  pose proof (count_ident_rest_f_nomark (length (rest l2)) l2) as Hc.
  unfold count_ident_rest.
  destruct (count_ident_rest_f (length (rest l2)) l2) as [extra l3];
    cbn [snd] in Hc.
  assert (N : nomark l l3)
    by (eapply nomark_trans; [apply nomark_adv|];
        eapply nomark_trans; [exact Hb | exact Hc]).
  split; [exact N|]; intros _.
  destruct N as [[_ _] _].
  destruct Hb as [[Hb _] _]; destruct Hc as [[Hc _] _].
  unfold advance in Hb; rewrite (pos_adv false l He) in Hb; lia.
Qed.

Lemma select_valid (sc : Scanner) (l : Lexer) (ctx : CondTokens) :
  top_valid ctx || subsection_valid ctx || scriptlet_valid ctx ||
  files_valid ctx = true ->
  let t := fst (fst (select_conditional_token_type sc l ctx)) in
  (t = top ctx /\ top_valid ctx = true) \/
  (t = subsection ctx /\ subsection_valid ctx = true) \/
  (t = scriptlet ctx /\ scriptlet_valid ctx = true) \/
  (t = files ctx /\ files_valid ctx = true).
Proof.
  intros H; unfold select_conditional_token_type; cbv zeta.
  destruct ctx as [tp su scr fi [] [] [] []]; cbn in H |- *; auto;
    try discriminate;
  destruct (conditional_body_has_section_cached sc l) as [[[] sc1] l1];
    cbn; auto.
Qed.

Lemma try_scan_conditional_in_emit (table : list CondKeyword) :
  forall sc l valid kw len sc' l',
    try_scan_conditional_in table sc l valid kw len = (true, sc', l') ->
    exists k t, In k table /\ strequal (kw_name k) kw len = true /\
      (t = kw_top k \/ t = kw_subsection k \/ t = kw_scriptlet k \/
       t = kw_files k) /\
      valid t = true /\ result_symbol l' = tok_id t /\
      fwd l l' /\ start l' = start l /\ mark l' = pos l.
Proof.
  induction table as [|k table IH]; intros sc l valid kw len sc' l' H;
    cbn [try_scan_conditional_in] in H; [discriminate|].
  destruct (strequal (kw_name k) kw len) eqn:Hs; cbn [negb] in H.
  2:{ destruct (IH sc l valid kw len sc' l' H) as (k' & t & Hin & R).
      exists k', t; split; [right; exact Hin | exact R]. }
  destruct (negb (top_valid (cond_tokens_of k valid)) &&
            negb (subsection_valid (cond_tokens_of k valid)) &&
            negb (scriptlet_valid (cond_tokens_of k valid)) &&
            negb (files_valid (cond_tokens_of k valid))) eqn:Hn;
    [discriminate|].
  assert (Hany : top_valid (cond_tokens_of k valid) ||
                 subsection_valid (cond_tokens_of k valid) ||
                 scriptlet_valid (cond_tokens_of k valid) ||
                 files_valid (cond_tokens_of k valid) = true).
  { destruct (top_valid (cond_tokens_of k valid)),
      (subsection_valid (cond_tokens_of k valid)),
      (scriptlet_valid (cond_tokens_of k valid)),
      (files_valid (cond_tokens_of k valid)); cbn in Hn |- *; congruence. }
  pose proof (select_valid sc (mark_end l) (cond_tokens_of k valid) Hany) as Hv.
  pose proof (select_nomark sc (mark_end l) (cond_tokens_of k valid)) as Hm.
  cbv zeta in Hv.
  destruct (select_conditional_token_type sc (mark_end l)
              (cond_tokens_of k valid)) as [[t sc1] l1].
  injection H as <- <-; cbn [fst snd] in Hv, Hm.
  exists k, t; split; [left; reflexivity|]; split; [exact Hs|].
  split.
  { destruct Hv as [[ -> _] | [[ -> _] | [[ -> _] | [ -> _]]]]; auto. }
  split.
  { destruct Hv as [[ -> H] | [[ -> H] | [[ -> H] | [ -> H]]]]; exact H. }
  destruct Hm as (F & Hst & Hmk).
  split; [destruct l1; reflexivity|].
  split; [eapply fwd_trans; [apply fwd_mark|];
          eapply fwd_trans; [exact F | apply fwd_set]|].
  split; destruct l1, l; cbn in *; congruence.
Qed.

Lemma cond_sym_of (k : CondKeyword) (t : TokenType) :
  In k COND_KEYWORDS ->
  (t = kw_top k \/ t = kw_subsection k \/ t = kw_scriptlet k \/
   t = kw_files k) ->
  is_cond_sym (tok_id t) = true.
Proof.
  intros Hin Ht; unfold is_cond_sym; apply existsb_exists; exists k.
  split; [exact Hin|].
  destruct Ht as [ -> | [ -> | [ -> | -> ]]]; rewrite Nat.eqb_refl, ?orb_true_r;
    reflexivity.
Qed.

Lemma newline_filter_f_ok (f : nat) (valid : ValidSymbols) :
  forall l,
  match newline_filter_f f valid l with
  | inl l' => fwd l l' /\ admissible valid l' /\ (pre_ok l -> tok_ok l')
  | inr l' => fwd l l' /\ (pre_ok l -> pre_ok l')
  end.
Proof.
  induction f as [|f IH]; intros l; cbn [newline_filter_f].
  { split; [apply fwd_refl | auto]. }
  cbv zeta.
  assert (R : match newline_filter_f f valid (lex_advance true l) with
              | inl l' => fwd l l' /\ admissible valid l' /\ (pre_ok l -> tok_ok l')
              | inr l' => fwd l l' /\ (pre_ok l -> pre_ok l')
              end).
  { pose proof (IH (lex_advance true l)) as H.
    destruct (newline_filter_f f valid (lex_advance true l)) as [l'|l'];
      destruct H as [F T].
    - split; [eapply fwd_trans; [apply fwd_adv | exact F]|].
      destruct T as [A T]; split; [exact A|]; intros Hp; apply T, pre_adv, Hp.
    - split; [eapply fwd_trans; [apply fwd_adv | exact F]|].
      intros Hp; apply T, pre_adv, Hp. }
  destruct (isspace (lookahead l)); [|split; [apply fwd_refl | auto]].
  destruct (chr_eq (lookahead l) nl) eqn:Hn.
  { destruct (valid NEWLINE) eqn:Hv; [|exact R].
    split; [eapply fwd_trans; [apply fwd_adv|];
            eapply fwd_trans; [apply fwd_mark | apply fwd_set]|].
    split; [apply admissible_set, Hv|].
    intros Hp; apply tok_set, tok_mark, cons_adv; [exact Hp|].
    exact (eof_of_lookahead l nl Hn eq_refl). }
  destruct (chr_eq (lookahead l) cr) eqn:Hc; [|exact R].
  destruct (valid NEWLINE) eqn:Hv; [|exact R].
  set (l1 := advance l).
  assert (K : fwd_keep l1 (if chr_eq (lookahead l1) nl then advance l1 else l1))
    by (destruct (chr_eq (lookahead l1) nl); [apply fwd_keep_adv | apply fwd_keep_refl]).
  split.
  { eapply fwd_trans; [apply fwd_adv|].
    eapply fwd_trans; [apply K|].
    eapply fwd_trans; [apply fwd_mark | apply fwd_set]. }
  split; [apply admissible_set, Hv|].
  intros Hp; apply tok_set, tok_mark.
  apply (cons_keep l1); [exact K|].
  apply cons_adv; [exact Hp | exact (eof_of_lookahead l cr Hc eq_refl)].
Qed.

Lemma skip_leading_whitespace_ok (l : Lexer) :
  fwd l (skip_leading_whitespace l) /\
  (pre_ok l -> pre_ok (skip_leading_whitespace l)) /\
  mark (skip_leading_whitespace l) = mark l.
Proof.
  unfold skip_leading_whitespace, advance_while.
  generalize (length (rest l)) as f; intros f.
  revert l; induction f as [|f IH]; intros l; cbn [advance_while_f].
  { split; [apply fwd_refl | auto]. }
  destruct (is_horizontal_space (lookahead l)); [|split; [apply fwd_refl | auto]].
  destruct (IH (lex_advance true l)) as (F & P & M).
  split; [eapply fwd_trans; [apply fwd_adv | exact F]|].
  split; [intros Hp; apply P, pre_adv, Hp|].
  rewrite M; destruct l as [[|c r] p m s rs]; reflexivity.
Qed.

Lemma scan_percent_tokens_ok (sc : Scanner) (l : Lexer) (valid : ValidSymbols) :
  match scan_percent_tokens sc l valid with
  | inl (sc', l') =>
      fwd l l' /\ admissible valid l' /\
      (sc' = sc \/ is_cond_sym (result_symbol l') = true) /\
      (pre_ok l -> tok_ok l')
  | inr l' => fwd l l' /\ (pre_ok l -> pre_ok l')
  end.
Proof.
  unfold scan_percent_tokens; cbv zeta.
  destruct (any_conditional_valid valid || valid PARAMETRIC_MACRO_NAME ||
            any_section_token_valid valid);
    [|split; [apply fwd_refl | auto]].
  destruct (skip_leading_whitespace_ok l) as (F1 & P1 & _).
  set (l1 := skip_leading_whitespace l) in *.
  destruct (chr_eq (lookahead l1) "%"); [|split; [exact F1 | exact P1]].
  pose proof (consume_ok (mark_end l1) 64) as Hc.
  destruct (consume_percent_and_identifier (mark_end l1) 64)
    as [[[ok kw] len] l3] eqn:Ec.
  destruct Hc as [N3 Q3].
  assert (F3 : fwd l l3)
    by (eapply fwd_trans; [exact F1|];
        eapply fwd_trans; [apply fwd_mark | apply N3]).
  assert (P3 : pre_ok l -> pre_ok l3).
  { intros Hp; apply (pre_keep (mark_end l1)); [apply nomark_keep, N3|].
    apply pre_mark, P1, Hp. }
  destruct ok; [|split; [exact F3 | exact P3]].
  specialize (Q3 eq_refl).
  assert (C3 : pre_ok l -> (start l3 < pos l3)%nat).
  { intros Hp; specialize (P1 Hp); unfold pre_ok in P1.
    destruct N3 as (_ & Hs & _); rewrite Hs.
    destruct l1; cbn in *; lia. }
  assert (T3 : pre_ok l -> tok_ok (mark_end l3))
    by (intros Hp; apply tok_mark, C3, Hp).
  destruct (if any_conditional_valid valid && is_cond_keyword kw len
            then try_scan_conditional sc l3 valid kw len
            else (false, sc, l3)) as [[matched sc1] l4] eqn:Em.
  destruct matched.
  { destruct (any_conditional_valid valid && is_cond_keyword kw len);
      [|discriminate].
    destruct (try_scan_conditional_in_emit COND_KEYWORDS sc l3 valid kw len
                sc1 l4 Em)
      as (k & t & Hin & _ & Ht & Hv & Hr & F4 & S4 & M4).
    split; [eapply fwd_trans; eauto|].
    split; [exists t; auto|].
    split; [right; rewrite Hr; exact (cond_sym_of k t Hin Ht)|].
    intros Hp; specialize (C3 Hp); destruct F4 as [F4 _].
    unfold tok_ok; rewrite S4, M4; lia. }
  assert (E4 : sc1 = sc /\ l4 = l3).
  { destruct (any_conditional_valid valid && is_cond_keyword kw len).
    - exact (try_scan_conditional_in_false _ _ _ _ _ _ _ _ Em).
    - injection Em as <- <-; auto. }
  destruct E4 as [-> ->].
  assert (Sec : forall l5,
            (if any_section_token_valid valid &&
                negb (is_identifier_char (lookahead l3)) then
               match lookup_section_keyword kw len with
               | Some (_, _, t) =>
                   if valid t then Some (set_result (tok_id t) (mark_end l3))
                   else None
               | None => None
               end
             else None) = Some l5 ->
            admissible valid l5 /\ l5 = set_result (result_symbol l5) (mark_end l3)).
  { intros l5 E.
    destruct (any_section_token_valid valid &&
              negb (is_identifier_char (lookahead l3))); [|discriminate].
    destruct (lookup_section_keyword kw len) as [[[nm n] t]|]; [|discriminate].
    destruct (valid t) eqn:Hv; [|discriminate].
    injection E as <-; split; [apply admissible_set, Hv|].
    destruct l3; reflexivity. }
  destruct (if any_section_token_valid valid &&
               negb (is_identifier_char (lookahead l3)) then
              match lookup_section_keyword kw len with
              | Some (_, _, t) =>
                  if valid t then Some (set_result (tok_id t) (mark_end l3))
                  else None
              | None => None
              end
            else None) as [l5|] eqn:Es.
  { destruct (Sec l5 eq_refl) as [A E5].
    split; [rewrite E5; eapply fwd_trans; [exact F3|];
            eapply fwd_trans; [apply fwd_mark | apply fwd_set]|].
    split; [exact A|]; split; [left; reflexivity|].
    intros Hp; rewrite E5; apply tok_set, T3, Hp. }
  destruct (if valid PARAMETRIC_MACRO_NAME then
              try_scan_parametric_macro l3 (negb (in_scriptlet_context valid))
                kw len
            else (false, l3)) as [pm l6] eqn:Ep.
  destruct pm.
  { destruct (valid PARAMETRIC_MACRO_NAME) eqn:Hv; [|discriminate].
    unfold try_scan_parametric_macro in Ep.
    repeat match type of Ep with
           | context [if ?b then _ else _] => destruct b
           end; try discriminate.
    injection Ep as <-.
    split; [eapply fwd_trans; [exact F3|];
            eapply fwd_trans; [apply fwd_mark | apply fwd_set]|].
    split; [apply (admissible_set valid PARAMETRIC_MACRO_NAME), Hv|].
    split; [left; reflexivity|].
    intros Hp; apply tok_set, T3, Hp. }
  assert (E6 : l6 = l3).
  { destruct (valid PARAMETRIC_MACRO_NAME); [|congruence].
    unfold try_scan_parametric_macro in Ep.
    repeat match type of Ep with
           | context [if ?b then _ else _] => destruct b
           end; congruence. }
  subst l6; split; [exact F3 | exact P3].
Qed.

Lemma rpmspec_scan_ok (sc : Scanner) (l : Lexer) (valid : ValidSymbols) :
  let '(b, sc', l') := rpmspec_scan sc l valid in
  fwd l l' /\
  (b = true -> admissible valid l' /\ (pre_ok l -> tok_ok l')) /\
  (sc' = sc \/ (b = true /\ is_cond_sym (result_symbol l') = true)).
Proof.
  unfold rpmspec_scan; cbv zeta.
  assert (After : forall l1, fwd l l1 -> (pre_ok l -> pre_ok l1) ->
    let '(b, sc', l') :=
      match scan_percent_tokens sc l1 valid with
      | inl (sc', l') => (true, sc', l')
      | inr l2 => let '(b, l3) := scan_macro_or_content l2 valid in (b, sc, l3)
      end in
    fwd l l' /\
    (b = true -> admissible valid l' /\ (pre_ok l -> tok_ok l')) /\
    (sc' = sc \/ (b = true /\ is_cond_sym (result_symbol l') = true))).
  { intros l1 F1 P1.
    pose proof (scan_percent_tokens_ok sc l1 valid) as H.
    destruct (scan_percent_tokens sc l1 valid) as [[sc' l']|l2].
    - destruct H as (F & A & S & T).
      split; [eapply fwd_trans; eauto|].
      split; [intros _; split; [exact A | intros Hp; apply T, P1, Hp]|].
      destruct S as [S|S]; [left; exact S | right; split; [reflexivity | exact S]].
    - destruct H as (F & P).
      pose proof (scan_macro_or_content_ok l2 valid) as Hm.
      destruct (scan_macro_or_content l2 valid) as [b l3].
      destruct Hm as [[K _] T].
      split; [eapply fwd_trans; [exact F1|]; eapply fwd_trans; eauto|].
      split; [|left; reflexivity].
      intros Hb; destruct (T Hb) as [A T']; split; [exact A|].
      intros Hp; apply T', P, P1, Hp. }
  destruct (negb (valid EXPAND_CODE) && negb (valid SCRIPT_CODE));
    [|apply After; [apply fwd_refl | auto]].
  unfold newline_filter.
  pose proof (newline_filter_f_ok (S (length (rest l))) valid l) as H.
  destruct (newline_filter_f (S (length (rest l))) valid l) as [l'|l1].
  - destruct H as (F & A & T).
    split; [exact F|]; split; [intros _; auto | left; reflexivity].
  - destruct H as [F P]; apply After; auto.
Qed.

Lemma cond_keyword_short (k : CondKeyword) :
  In k COND_KEYWORDS -> (String.length (kw_name k) <= 63)%nat.
Proof.
  intros H; repeat (destruct H as [H|H]; [subst k; cbn; lia|]); destruct H.
Qed.

Lemma scan_percent_tokens_cond (sc : Scanner) (l : Lexer)
    (valid : ValidSymbols) (sc' : Scanner) (l' : Lexer) :
  scan_percent_tokens sc l valid = inl (sc', l') ->
  is_cond_sym (result_symbol l') = true ->
  exists ws k t w r,
    rest l = ws ++ "%"%char :: w ++ r /\
    forallb is_horizontal_space ws = true /\
    In k COND_KEYWORDS /\ w = s2l (kw_name k) /\
    is_identifier_char (hd NUL r) = false /\
    (t = kw_top k \/ t = kw_subsection k \/ t = kw_scriptlet k \/
     t = kw_files k) /\ valid t = true /\
    result_symbol l' = tok_id t /\
    mark l' = pos l + length ws + S (length w) /\
    start l' = (if is_empty ws then start l else pos l + length ws).
Proof.
  intros H Hs; unfold scan_percent_tokens in H; cbv zeta in H.
  destruct (any_conditional_valid valid || valid PARAMETRIC_MACRO_NAME ||
            any_section_token_valid valid); [|discriminate].
  destruct (span_split is_horizontal_space eq_refl (rest l))
    as (ws & xs & Hl & Hws & Hxs).
  assert (Hsk : skip_leading_whitespace l =
                mkLexer xs (pos l + length ws) (mark l)
                  (if true && (0 <? length ws) then pos l + length ws
                   else start l) (result_symbol l))
    by (apply advance_while_app; auto).
  rewrite Hsk in H.
  set (L1 := mkLexer xs (pos l + length ws) (mark l)
               (if true && (0 <? length ws) then pos l + length ws
                else start l) (result_symbol l)) in H.
  destruct (chr_eq (lookahead L1) "%") eqn:Hp; [|discriminate].
  destruct xs as [|c0 xs]; [discriminate|].
  unfold L1, lookahead, chr_eq in Hp; cbn [rest] in Hp.
  apply Ascii.eqb_eq in Hp; subst c0.
  destruct (consume_percent_and_identifier (mark_end L1) 64)
    as [[[ok kw] len] l3] eqn:Ec.
  clear Hsk.
  destruct ok; [|discriminate].
  destruct xs as [|c xs].
  { rewrite consume_percent_fail in Ec; [discriminate | reflexivity |
      reflexivity]. }
  destruct (is_identifier_start c) eqn:Hc.
  2:{ rewrite consume_percent_fail in Ec; [discriminate | reflexivity |
      exact Hc]. }
  destruct (span_split is_identifier_char eq_refl xs)
    as (w' & r & -> & Hw' & Hr).
  rewrite (consume_percent_and_identifier_app c w' r) in Ec by
    first [reflexivity | assumption].
  remember (firstn 63 (c :: w')) as kw0 eqn:Ekw.
  injection Ec as <- <- <-; rename kw0 into kw.
  set (L3 := mkLexer r (pos l + length ws + S (S (length w')))
               (pos l + length ws)
               (if 0 <? length ws then pos l + length ws else start l)
               (result_symbol l)) in H.
  destruct (if any_conditional_valid valid && is_cond_keyword kw (S (length w'))
            then try_scan_conditional sc L3 valid kw (S (length w'))
            else (false, sc, L3)) as [[matched sc1] l4] eqn:Em.
  destruct matched; cbv beta iota in H.
  - injection H as <- <-.
    destruct (any_conditional_valid valid && is_cond_keyword kw (S (length w')));
      [|discriminate].
    destruct (try_scan_conditional_in_emit COND_KEYWORDS sc L3 valid kw
                (S (length w')) sc1 l4 Em)
      as (k & t & Hin & Heq & Ht & Hv & Hres & _ & Hst & Hm).
    pose proof (cond_keyword_short k Hin) as Hshort.
    assert (Hlen : S (length w') = String.length (kw_name k)).
    { unfold strequal in Heq; apply andb_prop in Heq as [Heq _].
      apply Nat.eqb_eq; exact Heq. }
    assert (Hkw : kw = c :: w')
      by (rewrite Ekw; apply firstn_all2; cbn [length]; lia).
    rewrite Hkw in Heq.
    change (S (length w')) with (length (c :: w')) in Heq.
    apply strequal_full in Heq.
    exists ws, k, t, (c :: w'), r.
    split; [exact Hl|]. split; [exact Hws|]. split; [exact Hin|].
    split; [exact Heq|]. split; [exact Hr|]. split; [exact Ht|].
    split; [exact Hv|]. split; [exact Hres|].
    split; [rewrite Hm; unfold L3; cbn [pos length]; lia|].
    rewrite Hst; unfold L3; cbn [start]; destruct ws; reflexivity.
  - exfalso.
    assert (Hl4 : l4 = L3).
    { destruct (any_conditional_valid valid && is_cond_keyword kw (S (length w'))).
      - apply try_scan_conditional_in_false in Em; destruct Em as [_ ->]; reflexivity.
      - injection Em as _ <-; reflexivity. }
    subst l4.
    revert H.
    destruct (any_section_token_valid valid &&
              negb (is_identifier_char (lookahead L3))).
    + destruct (lookup_section_keyword kw (S (length w'))) as [[[name n] t]|]
        eqn:El.
      * destruct (valid t).
        { intros H; injection H as _ <-; cbn [result_symbol set_result] in Hs.
          apply lookup_section_keyword_some in El as [Hin _].
          repeat (destruct Hin as [Hin|Hin]; [injection Hin as _ _ <-;
                                              discriminate|]); destruct Hin. }
        all: cbv beta iota.
        all: destruct (if valid PARAMETRIC_MACRO_NAME then
                         try_scan_parametric_macro L3
                           (negb (in_scriptlet_context valid)) kw (S (length w'))
                       else (false, L3)) as [[] l6] eqn:Ep; [|discriminate].
        all: intros H; injection H as _ <-.
        all: destruct (valid PARAMETRIC_MACRO_NAME); [|discriminate].
        all: rewrite (try_scan_parametric_macro_true _ _ _ _ _ Ep) in Hs;
          discriminate.
      * cbv beta iota.
        destruct (if valid PARAMETRIC_MACRO_NAME then
                    try_scan_parametric_macro L3
                      (negb (in_scriptlet_context valid)) kw (S (length w'))
                  else (false, L3)) as [[] l6] eqn:Ep; [|discriminate].
        intros H; injection H as _ <-.
        destruct (valid PARAMETRIC_MACRO_NAME); [|discriminate].
        rewrite (try_scan_parametric_macro_true _ _ _ _ _ Ep) in Hs;
          discriminate.
    + cbv beta iota.
      destruct (if valid PARAMETRIC_MACRO_NAME then
                  try_scan_parametric_macro L3
                    (negb (in_scriptlet_context valid)) kw (S (length w'))
                else (false, L3)) as [[] l6] eqn:Ep; [|discriminate].
      intros H; injection H as _ <-.
      destruct (valid PARAMETRIC_MACRO_NAME); [|discriminate].
      rewrite (try_scan_parametric_macro_true _ _ _ _ _ Ep) in Hs;
        discriminate.
Qed.

Lemma scan_macro_or_content_not_cond (l : Lexer) (valid : ValidSymbols)
    (l' : Lexer) :
  scan_macro_or_content l valid = (true, l') ->
  is_cond_sym (result_symbol l') = false.
Proof.
  unfold scan_macro_or_content, scan_macro; cbv zeta; intros H.
  repeat match type of H with
         | context [if ?b then _ else _] => destruct b
         | context [let '(_, _) := ?x in _] => destruct x
         end; try discriminate; injection H as <-; reflexivity.
Qed.

(** X4: a conditional token returned by the main scan covers exactly [%]
    and one of the opener names [if], [ifarch], [ifnarch], [ifos], [ifnos]
    after leading whitespace, the name not being followed by an identifier
    character: the leading whitespace is skipped, so the token starts at
    the [%] (with no whitespace the start is left where it was), and it
    ends right after the name.  Its kind is an admissible variant of that
    opener. *)
Theorem conditional_token_shape (sc : Scanner) (l : Lexer)
    (valid : ValidSymbols) (sc' : Scanner) (l' : Lexer) :
  rpmspec_scan sc l valid = (true, sc', l') ->
  is_cond_sym (result_symbol l') = true ->
  exists ws k t w r,
    rest l = ws ++ "%"%char :: w ++ r /\
    forallb isspace ws = true /\
    In k COND_KEYWORDS /\ w = s2l (kw_name k) /\
    is_identifier_char (hd NUL r) = false /\
    (t = kw_top k \/ t = kw_subsection k \/ t = kw_scriptlet k \/
     t = kw_files k) /\ valid t = true /\
    result_symbol l' = tok_id t /\
    mark l' = pos l + length ws + S (length w) /\
    start l' = (if is_empty ws then start l else pos l + length ws).
Proof.
  intros H Hs.
  assert (After : forall l1,
    match scan_percent_tokens sc l1 valid with
    | inl (sc2, l2) => (true, sc2, l2)
    | inr l2 => let '(b, l3) := scan_macro_or_content l2 valid in (b, sc, l3)
    end = (true, sc', l') ->
    exists ws k t w r,
      rest l1 = ws ++ "%"%char :: w ++ r /\
      forallb isspace ws = true /\
      In k COND_KEYWORDS /\ w = s2l (kw_name k) /\
      is_identifier_char (hd NUL r) = false /\
      (t = kw_top k \/ t = kw_subsection k \/ t = kw_scriptlet k \/
       t = kw_files k) /\ valid t = true /\
      result_symbol l' = tok_id t /\
      mark l' = pos l1 + length ws + S (length w) /\
      start l' = (if is_empty ws then start l1 else pos l1 + length ws)).
  { intros l1 H1.
    destruct (scan_percent_tokens sc l1 valid) as [[sc2 l2]|l2] eqn:Ep.
    - injection H1 as _ <-.
      destruct (scan_percent_tokens_cond sc l1 valid sc2 l2 Ep Hs)
        as (ws & k & t & w & r & Hl & Hws & R).
      exists ws, k, t, w, r; split; [exact Hl|].
      split; [apply horizontal_isspace; exact Hws | exact R].
    - destruct (scan_macro_or_content l2 valid) as [b l3] eqn:Em.
      injection H1 as -> _ <-.
      rewrite (scan_macro_or_content_not_cond l2 valid l3 Em) in Hs;
        discriminate. }
  unfold rpmspec_scan in H; cbv zeta in H.
  destruct (negb (valid EXPAND_CODE) && negb (valid SCRIPT_CODE));
    [|exact (After l H)].
  unfold newline_filter in H.
  pose proof (newline_filter_f_cases (S (length (rest l))) valid l) as Hnf.
  destruct (newline_filter_f (S (length (rest l))) valid l) as [l1|l1].
  - injection H as _ <-; rewrite Hnf in Hs; vm_compute in Hs; discriminate.
  - destruct Hnf as (ws0 & Hl0 & Hws0 & Hp0 & Hs0).
    destruct (After l1 H)
      as (ws & k & t & w & r & Hl & Hws & Hin & Hw & Hr & Ht & Hv & Hres & Hm
          & Hst).
    exists (ws0 ++ ws), k, t, w, r.
    assert (Hst' : start l' = (if is_empty (ws0 ++ ws) then start l
                               else pos l + length (ws0 ++ ws)))
      by (rewrite Hst, Hs0, Hp0, length_app;
          destruct ws0, ws; cbn [is_empty app length]; lia).
    rewrite Hl0, Hl, <- app_assoc, forallb_app, Hws0, Hws, Hm, Hp0,
      length_app.
    rewrite length_app in Hst'.
    repeat split; auto; lia.
Qed.

Lemma newline_filter_f_skip (valid : ValidSymbols) (P : ascii -> bool)
    (HP : forall x, P x = true ->
          isspace x = true /\
          (valid NEWLINE = true -> chr_eq x nl = false /\ chr_eq x cr = false)) :
  forall ws r f l,
    rest l = ws ++ r -> forallb P ws = true -> (length ws < f)%nat ->
    newline_filter_f f valid l =
    newline_filter_f (f - length ws) valid
      (mkLexer r (pos l + length ws) (mark l)
         (if is_empty ws then start l else pos l + length ws)
         (result_symbol l)).
Proof.
  induction ws as [|c ws IH]; intros r f l Hl Hw Hf;
    destruct l as [rl p m s rs]; cbn [rest] in Hl; subst rl.
  - cbn [length is_empty pos mark start result_symbol app].
    rewrite Nat.sub_0_r, Nat.add_0_r; reflexivity.
  - cbn [forallb] in Hw; apply andb_prop in Hw as [Hc Hw].
    destruct (HP c Hc) as [Hs Hv].
    destruct f as [|f]; [cbn in Hf; lia|].
    cbn [newline_filter_f].
    change (lookahead (mkLexer ((c :: ws) ++ r) p m s rs)) with c.
    change (lex_advance true (mkLexer ((c :: ws) ++ r) p m s rs))
      with (mkLexer (ws ++ r) (S p) m (S p) rs).
    rewrite Hs.
    destruct (valid NEWLINE) eqn:Ev;
      [destruct (Hv eq_refl) as [-> ->] | destruct (chr_eq c nl), (chr_eq c cr)].
    all: rewrite (IH r f) by (first [reflexivity | assumption | cbn in Hf; lia]).
    all: cbn [pos mark start result_symbol length is_empty].
    all: replace (S f - S (length ws))%nat with (f - length ws)%nat by lia.
    all: replace (S p + length ws)%nat with (p + S (length ws))%nat by lia.
    all: destruct ws; cbn [is_empty length]; f_equal; try lia; f_equal; lia.
Qed.

(** X5: with NEWLINE admissible and neither content kind admissible, a
    newline after blanks other than line breaks is returned as a NEWLINE
    token of the newline alone ([\n], a lone [\r], or [\r\n]); the blanks
    are skipped and the scanner state is unchanged. *)
Theorem newline_token_shape (sc : Scanner) (l : Lexer)
    (valid : ValidSymbols) (ws : list ascii) (c : ascii) (r : list ascii) :
  valid NEWLINE = true -> valid EXPAND_CODE = false ->
  valid SCRIPT_CODE = false ->
  rest l = ws ++ c :: r ->
  forallb (fun x => isspace x && negb (chr_eq x nl) && negb (chr_eq x cr)) ws
    = true ->
  chr_eq c nl || chr_eq c cr = true ->
  let k := if chr_eq c cr && chr_eq (hd NUL r) nl then 2 else 1 in
  rpmspec_scan sc l valid =
  (true, sc,
   mkLexer (skipn (k - 1) r) (pos l + length ws + k) (pos l + length ws + k)
     (if is_empty ws then start l else pos l + length ws) (tok_id NEWLINE)).
Proof.
  intros Hn He Hs Hl Hw Hc; cbv zeta.
  unfold rpmspec_scan; rewrite He, Hs; cbn [negb andb].
  unfold newline_filter.
  rewrite (newline_filter_f_skip valid
             (fun x => isspace x && negb (chr_eq x nl) && negb (chr_eq x cr)))
    with (ws := ws) (r := c :: r).
  2:{ intros x Hx; apply andb_prop in Hx as [Hx H2];
      apply andb_prop in Hx as [H0 H1].
      split; [exact H0|]; intros _; split; apply negb_true_iff; assumption. }
  2-4: first [exact Hl | exact Hw | rewrite Hl, length_app; cbn [length]; lia].
  rewrite Hl, length_app; cbn [length].
  replace (S (length ws + S (length r)) - length ws)%nat
    with (S (S (length r))) by lia.
  apply orb_prop in Hc as [Hc|Hc]; apply chr_eq_true in Hc; subst c.
  - cbn [newline_filter_f].
    change (lookahead (mkLexer (nl :: r) (pos l + length ws) (mark l)
              (if is_empty ws then start l else pos l + length ws)
              (result_symbol l))) with nl.
    replace (isspace nl) with true by reflexivity.
    replace (chr_eq nl nl) with true by reflexivity.
    rewrite Hn.
    cbn [Nat.sub skipn]; unfold set_result, mark_end, advance, lex_advance;
      cbn [rest pos mark start]; replace (chr_eq nl cr) with false by reflexivity; cbn [andb Nat.sub skipn]; f_equal; f_equal; lia.
  - cbn [newline_filter_f].
    change (lookahead (mkLexer (cr :: r) (pos l + length ws) (mark l)
              (if is_empty ws then start l else pos l + length ws)
              (result_symbol l))) with cr.
    replace (isspace cr) with true by reflexivity.
    replace (chr_eq cr nl) with false by reflexivity.
    replace (chr_eq cr cr) with true by reflexivity.
    rewrite Hn; cbv zeta; cbn [andb].
    destruct r as [|c1 r].
    + cbn; unfold set_result, mark_end; cbn [rest pos mark start result_symbol]; f_equal; f_equal; lia.
    + change (lookahead (advance (mkLexer (cr :: c1 :: r) (pos l + length ws)
               (mark l) (if is_empty ws then start l else pos l + length ws)
               (result_symbol l)))) with c1.
      cbn [hd]; destruct (chr_eq c1 nl); cbn; unfold set_result, mark_end; cbn [rest pos mark start result_symbol]; repeat f_equal; try lia.
Qed.

(** X6: when neither NEWLINE nor a content kind is admissible, a leading
    run of whitespace (line breaks included) is skipped: the scan gives
    the same result as from the lexer placed after the run, with the token
    start moved past it. *)
Theorem blank_prefix_transparent (sc : Scanner) (l : Lexer)
    (valid : ValidSymbols) (ws r : list ascii) :
  valid NEWLINE = false -> valid EXPAND_CODE = false ->
  valid SCRIPT_CODE = false ->
  rest l = ws ++ r -> forallb isspace ws = true ->
  rpmspec_scan sc l valid =
  rpmspec_scan sc
    (mkLexer r (pos l + length ws) (mark l)
       (if is_empty ws then start l else pos l + length ws)
       (result_symbol l)) valid.
Proof.
  intros Hn He Hs Hl Hw.
  unfold rpmspec_scan; rewrite He, Hs; cbn [negb andb].
  unfold newline_filter.
  rewrite (newline_filter_f_skip valid isspace) with (ws := ws) (r := r).
  2:{ intros x Hx; split; [exact Hx|]; rewrite Hn; discriminate. }
  2-4: first [exact Hl | exact Hw | rewrite Hl, length_app; cbn [length]; lia].
  rewrite Hl, length_app; cbn [rest].
  replace (S (length ws + length r) - length ws)%nat with (S (length r)) by lia.
  reflexivity.
Qed.

Lemma digits_from_bound (id : list ascii) :
  forall n i, digits_from i n id = true -> n = O \/ (i + n <= length id)%nat.
Proof.
  induction n as [|n IH]; intros i H; [now left|right].
  cbn [digits_from] in H; apply andb_prop in H as [H1 H2].
  destruct (Nat.le_gt_cases (length id) i) as [Hle|Hgt].
  - rewrite nth_overflow in H1 by lia; discriminate.
  - destruct (IH (S i) H2); lia.
Qed.

Lemma strequal_long (lit : string) (id : list ascii) (len : nat) :
  (String.length lit < len)%nat -> strequal lit id len = false.
Proof.
  intros H; unfold strequal.
  destruct (Nat.eqb_spec len (String.length lit)); [lia|reflexivity].
Qed.

Lemma matches_keyword_array_long (id : list ascii) (len : nat)
    (kws : list string) :
  forallb (fun kw => String.length kw <? len) kws = true ->
  matches_keyword_array id len kws = false.
Proof.
  unfold matches_keyword_array; induction kws as [|kw kws IH]; intros H;
    [reflexivity|].
  cbn [forallb] in H; apply andb_prop in H as [H1 H2].
  cbn [existsb]; rewrite strequal_long by (apply Nat.ltb_lt; exact H1).
  apply IH, H2.
Qed.

Lemma keyword_lengths :
  forallb (fun kw => String.length kw <=? 22)
    (KEYWORDS ++ SUBSECTION_KEYWORDS ++ SCRIPTLET_KEYWORDS ++ ["files"%string])
  = true.
Proof. vm_compute; reflexivity. Qed.

Lemma is_keyword_long (id : list ascii) (len : nat) :
  (23 <= len)%nat -> is_keyword id len = false.
Proof.
  intros H.
  assert (HL : forall kws, forallb (fun kw => String.length kw <=? 22) kws = true ->
             forallb (fun kw => String.length kw <? len) kws = true).
  { intros kws; induction kws as [|kw kws IH]; [reflexivity|].
    cbn [forallb]; intros Hk; apply andb_prop in Hk as [H1 H2].
    apply Nat.leb_le in H1; rewrite IH by exact H2.
    replace (String.length kw <? len) with true; [reflexivity|].
    symmetry; apply Nat.ltb_lt; lia. }
  pose proof keyword_lengths as K.
  rewrite !forallb_app in K.
  apply andb_prop in K as [K1 K]; apply andb_prop in K as [K2 K];
    apply andb_prop in K as [K3 K4].
  unfold is_keyword.
  rewrite !matches_keyword_array_long by (apply HL; assumption).
  rewrite strequal_long by (cbn; lia); reflexivity.
Qed.

Lemma is_patch_legacy_long (id : list ascii) (len : nat) :
  (length id < len)%nat -> is_patch_legacy id len = false.
Proof.
  intros H; unfold is_patch_legacy.
  destruct (len <? 6) eqn:E; [reflexivity|].
  apply Nat.ltb_ge in E.
  destruct (negb (is_prefix (s2l "patch") id)); [reflexivity|].
  destruct (digits_from 5 (len - 5) id) eqn:D; [|reflexivity].
  apply digits_from_bound in D; lia.
Qed.

(** The identifier path of [scan_macro] for an identifier of any length:
    [char id_buf[64]] keeps the first 63 characters ([id_len <
    sizeof(id_buf) - 1]), the second loop counts the rest, so the checks
    [is_keyword], [is_patch_legacy] and [is_nil] receive [firstn 63] of
    the identifier (all of it when it has at most 63 characters) and its
    full length. *)
Lemma scan_macro_ident_any (c : ascii) (w r : list ascii) (l : Lexer)
    (valid : ValidSymbols) :
  rest l = c :: w ++ r -> is_identifier_start c = true ->
  forallb is_identifier_char w = true ->
  is_identifier_char (hd NUL r) = false ->
  valid SIMPLE_MACRO = true ->
  scan_macro l valid =
  (let id := firstn 63 (c :: w) in
   let len := S (length w) in
   let l2 := mkLexer r (pos l + len) (pos l) (start l) (result_symbol l) in
   if is_keyword id len then (false, l2)
   else if is_patch_legacy id len then (false, l2)
   else if is_nil id len then
     if valid SPECIAL_MACRO then
       (true, set_result (tok_id SPECIAL_MACRO) (mark_end l2))
     else (false, l2)
   else (true, set_result (tok_id SIMPLE_MACRO) (mark_end l2))).
Proof.
  intros Hl Hc Hw Hr Hv.
  destruct (identifier_start_not_special c Hc) as (H1 & H2 & H3 & H4 & H5).
  assert (Hid : is_identifier_char c = true)
    by (unfold is_identifier_char; now rewrite Hc).
  assert (Hla : lookahead l = c) by (unfold lookahead; now rewrite Hl).
  assert (Hall : forallb is_identifier_char (c :: w) = true)
    by (cbn [forallb]; now rewrite Hid, Hw).
  pose proof (firstn_skipn 63 (c :: w)) as Hfs.
  rewrite <- Hfs in Hall.
  rewrite forallb_app in Hall; apply andb_prop in Hall as [A1 A2].
  unfold scan_macro; rewrite Hla.
  rewrite H1, H2, H3, H4, H5, Hc, Hv; cbn [negb].
  rewrite (buffer_ident_app (firstn 63 (c :: w)) (skipn 63 (c :: w) ++ r) 63
             (mark_end l)).
  2:{ cbn [rest mark_end]; rewrite Hl, app_assoc, Hfs; reflexivity. }
  2:{ exact A1. }
  2:{ rewrite length_firstn; lia. }
  2:{ destruct (Nat.le_gt_cases 63 (length (c :: w))) as [Hle|Hgt].
      + left; rewrite length_firstn; lia.
      + right; rewrite skipn_all2 by lia; exact Hr. }
  rewrite (count_ident_rest_app (skipn 63 (c :: w)) r);
    cbn [rest pos mark start result_symbol mark_end]; auto.
  apply (f_equal (@length ascii)) in Hfs; rewrite length_app in Hfs.
  cbn [length] in Hfs.
  replace (pos l + length (firstn 63 (c :: w)) + length (skipn 63 (c :: w)))%nat
    with (pos l + S (length w))%nat by lia.
  replace (length (firstn 63 (c :: w)) + length (skipn 63 (c :: w)))%nat
    with (S (length w)) by lia.
  reflexivity.
Qed.

Lemma digits_from_app (pre ds : list ascii) :
  forallb isdigit ds = true ->
  digits_from (length pre) (length ds) (pre ++ ds) = true.
Proof.
  revert pre; induction ds as [|d ds IH]; intros pre H; [reflexivity|].
  cbn [forallb] in H; apply andb_prop in H as [Hd H].
  cbn [length digits_from].
  rewrite app_nth2 by lia; rewrite Nat.sub_diag; cbn [nth]; rewrite Hd.
  replace (S (length pre)) with (length (pre ++ [d]))
    by (rewrite length_app; cbn; lia).
  replace (pre ++ d :: ds) with ((pre ++ [d]) ++ ds)
    by (rewrite <- app_assoc; reflexivity).
  apply IH, H.
Qed.

Lemma isdigit_identifier_char (c : ascii) :
  isdigit c = true -> is_identifier_char c = true.
Proof. unfold is_identifier_char; intros ->; apply orb_true_r. Qed.

Lemma forallb_isdigit_identifier (ds : list ascii) :
  forallb isdigit ds = true -> forallb is_identifier_char ds = true.
Proof.
  induction ds as [|d ds IH]; cbn [forallb]; [reflexivity|].
  intros H; apply andb_prop in H as [Hd H].
  rewrite (isdigit_identifier_char d Hd), (IH H); reflexivity.
Qed.

(** X7: an identifier of 64 characters or more is always matched as a
    simple macro spanning the whole identifier, even when its first
    characters spell a keyword, [nil] or [patch] followed by digits; while
    [patch] followed by digits, 63 characters or fewer in all, is always
    declined.  The boundary is the 63 characters [scan_macro]'s buffer
    stores: past it [is_patch_legacy] meets the NUL at [id_buf[63]]. *)
Theorem long_identifier_simple_macro :
  (forall (c : ascii) (w r : list ascii) (l : Lexer) (valid : ValidSymbols),
     rest l = c :: w ++ r -> is_identifier_start c = true ->
     forallb is_identifier_char w = true ->
     is_identifier_char (hd NUL r) = false ->
     (63 <= length w)%nat ->
     valid SIMPLE_MACRO = true ->
     scan_macro l valid =
     (true, mkLexer r (pos l + S (length w)) (pos l + S (length w)) (start l)
              (tok_id SIMPLE_MACRO))) /\
  (forall (ds r : list ascii) (l : Lexer) (valid : ValidSymbols),
     rest l = s2l "patch" ++ ds ++ r -> ds <> [] ->
     forallb isdigit ds = true -> (length ds <= 58)%nat ->
     is_identifier_char (hd NUL r) = false ->
     fst (scan_macro l valid) = false).
Proof.
  split.
  - intros c w r l valid Hl Hc Hw Hr Hlen Hv.
    rewrite (scan_macro_ident_any c w r l valid Hl Hc Hw Hr Hv); cbv zeta.
    rewrite is_keyword_long by lia.
    rewrite is_patch_legacy_long by (rewrite length_firstn; cbn [length]; lia).
    unfold is_nil; rewrite strequal_long by (cbn; lia).
    reflexivity.
  - intros ds r l valid Hl Hne Hds Hlen Hr.
    assert (Hw : forallb is_identifier_char (s2l "atch" ++ ds) = true)
      by (rewrite forallb_app, (forallb_isdigit_identifier ds Hds); reflexivity).
    assert (Hl' : rest l = "p"%char :: (s2l "atch" ++ ds) ++ r)
      by (rewrite Hl, <- app_assoc; reflexivity).
    destruct (valid SIMPLE_MACRO) eqn:Hv.
    + rewrite (scan_macro_ident_any "p" (s2l "atch" ++ ds) r l valid Hl'
                 eq_refl Hw Hr Hv); cbv zeta.
      rewrite firstn_all2 by (cbn [length]; rewrite length_app; cbn; lia).
      destruct (is_keyword _ _); [reflexivity|].
      replace (is_patch_legacy ("p"%char :: s2l "atch" ++ ds)
                 (S (length (s2l "atch" ++ ds)))) with true;
        [reflexivity|].
      symmetry; unfold is_patch_legacy.
      rewrite length_app; cbn [length s2l].
      destruct ds as [|d ds']; [congruence|]; cbn [length].
      replace (S (4 + S (length ds')) <? 6) with false
        by (symmetry; apply Nat.ltb_ge; lia).
      cbn [is_prefix s2l Ascii.eqb negb andb].
      replace (S (4 + S (length ds')) - 5)%nat with (length (d :: ds'))
        by (cbn; lia).
      exact (digits_from_app (s2l "patch") (d :: ds') Hds).
    + destruct (identifier_start_not_special "p" eq_refl)
        as (H1 & H2 & H3 & H4 & H5).
      unfold scan_macro.
      replace (lookahead l) with "p"%char by (unfold lookahead; now rewrite Hl).
      rewrite H1, H2, H3, H4, H5, Hv; reflexivity.
Qed.

Lemma expand_loop_has_content (f : nat) :
  forall d l, fst (expand_loop f d true l) = true.
Proof.
  induction f as [|f IH]; intros d l; [reflexivity|].
  cbn [expand_loop].
  destruct (eof l); [reflexivity|]; cbv zeta.
  destruct (chr_eq (lookahead l) "%").
  - destruct (eof (advance (mark_end l))); [reflexivity|].
    destruct (_ || _ || _); [apply IH|].
    destruct (chr_eq _ "{"); [reflexivity|].
    destruct (isdigit _); apply IH.
  - destruct (chr_eq (lookahead l) "{"); [apply IH|].
    destruct (chr_eq (lookahead l) "}"); [|apply IH].
    destruct (d =? 0)%Z; [reflexivity|apply IH].
Qed.

Lemma shell_loop_has_content (f : nat) :
  forall d l, fst (shell_loop f d true l) = true.
Proof.
  induction f as [|f IH]; intros d l; [reflexivity|].
  cbn [shell_loop].
  destruct (eof l); [reflexivity|]; cbv zeta.
  destruct (chr_eq (lookahead l) "%").
  - destruct (eof (advance (mark_end l))); [reflexivity|].
    destruct (is_macro_start _); [reflexivity|apply IH].
  - destruct (chr_eq (lookahead l) "("); [apply IH|].
    destruct (chr_eq (lookahead l) ")"); [|apply IH].
    destruct (d =? 0)%Z; [reflexivity|apply IH].
Qed.

(** X13: the expand-block scanner reports no content exactly at the end of
    input, before a [}] or before [%{]. *)
Theorem expand_content_empty (l : Lexer) :
  fst (scan_expand_content l) = false <->
  rest l = [] \/ (exists r, rest l = "}"%char :: r) \/
  (exists r, rest l = "%"%char :: "{"%char :: r).
Proof.
  destruct l as [rl p m s rs]; unfold scan_expand_content; cbn [rest].
  destruct rl as [|c r].
  - split; [now left | reflexivity].
  - remember (length (c :: r)) as n eqn:En; cbn [expand_loop].
    change (eof (mkLexer (c :: r) p m s rs)) with false; cbv iota zeta.
    change (lookahead (mkLexer (c :: r) p m s rs)) with c.
    destruct (chr_eq c "%") eqn:Hp.
    + apply chr_eq_true in Hp; subst c.
      change (advance (mark_end (mkLexer ("%"%char :: r) p m s rs)))
        with (mkLexer r (S p) p s rs).
      destruct r as [|c1 r].
      * cbn; split; [discriminate|].
        intros [H|[[r H]|[r H]]]; discriminate.
      * change (eof (mkLexer (c1 :: r) (S p) p s rs)) with false; cbv iota.
        change (lookahead (mkLexer (c1 :: r) (S p) p s rs)) with c1.
        destruct (chr_eq c1 "%" || chr_eq c1 "#" || chr_eq c1 "*") eqn:H1.
        { rewrite expand_loop_has_content; split; [discriminate|].
          intros [H|[[r' H]|[r' H]]]; try discriminate.
          injection H as -> _; discriminate. }
        destruct (chr_eq c1 "{") eqn:H2.
        { apply chr_eq_true in H2; subst c1; cbn [fst].
          split; [intros _; right; right; now exists r | reflexivity]. }
        assert (Hn : forall r', "%"%char :: c1 :: r <> "%"%char :: "{"%char :: r')
          by (intros r' H; injection H as -> _; discriminate).
        destruct (isdigit c1); rewrite expand_loop_has_content;
          (split; [discriminate|]);
          intros [H|[[r' H]|[r' H]]]; try discriminate; exfalso; eapply Hn; exact H.
    + assert (Hq : forall r', c :: r <> "%"%char :: "{"%char :: r')
        by (intros r' H; injection H as -> _; discriminate).
      destruct (chr_eq c "{") eqn:Hb.
      { rewrite expand_loop_has_content; split; [discriminate|].
        intros [H|[[r' H]|[r' H]]]; try discriminate.
        - injection H as -> _; discriminate.
        - exfalso; eapply Hq; exact H. }
      destruct (chr_eq c "}") eqn:Hc.
      { apply chr_eq_true in Hc; subst c; cbn [Z.eqb fst].
        split; [intros _; right; left; now exists r | reflexivity]. }
      rewrite expand_loop_has_content; split; [discriminate|].
      intros [H|[[r' H]|[r' H]]]; try discriminate.
      * injection H as -> _; discriminate.
      * exfalso; eapply Hq; exact H.
Qed.

(** X14: the shell-block scanner reports no content exactly at the end of
    input, before a [)] or before a [%] followed by a macro introducer. *)
Theorem shell_content_empty (l : Lexer) :
  fst (scan_shell_content l) = false <->
  rest l = [] \/ (exists r, rest l = ")"%char :: r) \/
  (exists c r, rest l = "%"%char :: c :: r /\ is_macro_start c = true).
Proof.
  destruct l as [rl p m s rs]; unfold scan_shell_content; cbn [rest].
  destruct rl as [|c r].
  - split; [now left | reflexivity].
  - remember (length (c :: r)) as n eqn:En; cbn [shell_loop].
    change (eof (mkLexer (c :: r) p m s rs)) with false; cbv iota zeta.
    change (lookahead (mkLexer (c :: r) p m s rs)) with c.
    destruct (chr_eq c "%") eqn:Hp.
    + apply chr_eq_true in Hp; subst c.
      change (advance (mark_end (mkLexer ("%"%char :: r) p m s rs)))
        with (mkLexer r (S p) p s rs).
      destruct r as [|c1 r].
      * cbn; split; [discriminate|].
        intros [H|[[r H]|(c' & r' & H & _)]]; discriminate.
      * change (eof (mkLexer (c1 :: r) (S p) p s rs)) with false; cbv iota.
        change (lookahead (mkLexer (c1 :: r) (S p) p s rs)) with c1.
        destruct (is_macro_start c1) eqn:H1.
        { cbn [fst]; split; [intros _; right; right; now exists c1, r
                            | reflexivity]. }
        rewrite shell_loop_has_content; split; [discriminate|].
        intros [H|[[r' H]|(c' & r' & H & Hm)]]; try discriminate.
        injection H as <- _; congruence.
    + assert (Hq : forall c' r', c :: r = "%"%char :: c' :: r' -> False)
        by (intros c' r' H; injection H as -> _; discriminate).
      destruct (chr_eq c "(") eqn:Hb.
      { rewrite shell_loop_has_content; split; [discriminate|].
        intros [H|[[r' H]|(c' & r' & H & _)]]; try discriminate.
        - injection H as -> _; discriminate.
        - exfalso; eapply Hq; exact H. }
      destruct (chr_eq c ")") eqn:Hc.
      { apply chr_eq_true in Hc; subst c; cbn [Z.eqb fst].
        split; [intros _; right; left; now exists r | reflexivity]. }
      rewrite shell_loop_has_content; split; [discriminate|].
      intros [H|[[r' H]|(c' & r' & H & _)]]; try discriminate.
      * injection H as -> _; discriminate.
      * exfalso; eapply Hq; exact H.
Qed.

Lemma shell_loop_paren :
  forall p r f d d' h l,
    rest l = p ++ r -> forallb not_percent p = true ->
    paren_walk d p = Some d' ->
    shell_loop (length p + f) d h l =
    shell_loop f d' (h || negb (is_empty p))
      (mkLexer r (pos l + length p)
         (if is_empty p then mark l else pos l + length p) (start l)
         (result_symbol l)).
Proof.
  induction p as [|c p IH]; intros r f d d' h l Hl Hp Hw;
    destruct l as [rl ps m s rs]; cbn [rest] in Hl; subst rl.
  - cbn in Hw |- *; injection Hw as <-.
    rewrite orb_false_r, Nat.add_0_r; reflexivity.
  - cbn [forallb] in Hp; apply andb_prop in Hp as [Hc Hp].
    unfold not_percent in Hc; apply negb_true_iff in Hc.
    cbn [length plus app shell_loop].
    change (lookahead (mkLexer (c :: p ++ r) ps m s rs)) with c.
    change (eof (mkLexer (c :: p ++ r) ps m s rs)) with false; cbv iota zeta.
    rewrite Hc.
    change (mark_end (advance (mkLexer (c :: p ++ r) ps m s rs)))
      with (mkLexer (p ++ r) (S ps) (S ps) s rs).
    cbn [paren_walk] in Hw.
    destruct (chr_eq c "(").
    + rewrite (IH r f (d + 1)%Z d'); auto.
      cbn [pos mark start result_symbol negb].
      rewrite orb_true_r; destruct p; cbn [is_empty length];
        f_equal; f_equal; lia.
    + destruct (chr_eq c ")").
      * destruct (d =? 0)%Z; [discriminate|].
        rewrite (IH r f (d - 1)%Z d'); auto.
        cbn [pos mark start result_symbol negb].
        rewrite orb_true_r; destruct p; cbn [is_empty length];
          f_equal; f_equal; lia.
      * rewrite (IH r f d d'); auto.
        cbn [pos mark start result_symbol negb].
        rewrite orb_true_r; destruct p; cbn [is_empty length];
          f_equal; f_equal; lia.
Qed.

(** X15: on [%]-free text the shell-block scanner tracks parenthesis depth:
    it stops before the first [)] at depth 0 and otherwise runs to the end
    of input, nested pairs and unclosed [(] being content. *)
Theorem shell_content_paren_span :
  (forall p r p0, forallb not_percent p = true -> paren_walk 0 p = Some 0%Z ->
     scan_shell_content (lexer_at (p ++ ")"%char :: r) p0) =
     (negb (is_empty p),
      mkLexer (")"%char :: r) (p0 + length p) (p0 + length p) p0 0)) /\
  (forall p p0 d, forallb not_percent p = true -> paren_walk 0 p = Some d ->
     scan_shell_content (lexer_at p p0) =
     (negb (is_empty p), mkLexer [] (p0 + length p) (p0 + length p) p0 0)).
Proof.
  split.
  - intros p r p0 Hp Hw; unfold scan_shell_content; cbn [rest lexer_at].
    rewrite length_app; cbn [length].
    replace (S (length p + S (length r))) with (length p + S (S (length r)))%nat
      by lia.
    rewrite (shell_loop_paren p (")"%char :: r) _ 0 0) by (cbn [rest]; auto).
    cbn [pos mark start result_symbol lexer_at orb].
    destruct p; cbn [is_empty]; [rewrite Nat.add_0_r|]; reflexivity.
  - intros p p0 d Hp Hw; unfold scan_shell_content; cbn [rest lexer_at].
    rewrite <- Nat.add_1_r.
    rewrite (shell_loop_paren p [] 1 0 d) by (cbn [rest]; rewrite ?app_nil_r; auto).
    cbn [pos mark start result_symbol lexer_at orb].
    destruct p; cbn [is_empty]; [rewrite Nat.add_0_r|]; reflexivity.
Qed.

(** X16: on [%]-free text without a [}] at depth 0, the expand-block
    scanner runs to the end of input, unclosed [{] being content. *)
Theorem expand_content_to_eof (p : list ascii) (p0 : nat) (d : Z) :
  forallb not_percent p = true -> brace_walk 0 p = Some d ->
  scan_expand_content (lexer_at p p0) =
  (negb (is_empty p), mkLexer [] (p0 + length p) (p0 + length p) p0 0).
Proof.
  intros Hp Hw; unfold scan_expand_content; cbn [rest lexer_at].
  rewrite <- Nat.add_1_r.
  rewrite (expand_loop_text p [] 1 0 d) by (cbn [rest]; rewrite ?app_nil_r; auto).
  cbn [pos mark start result_symbol lexer_at orb].
  destruct p; cbn [is_empty]; [rewrite Nat.add_0_r|]; reflexivity.
Qed.

Lemma scan_percent_tokens_param (sc : Scanner) (l : Lexer)
    (valid : ValidSymbols) (sc' : Scanner) (l' : Lexer) :
  scan_percent_tokens sc l valid = inl (sc', l') ->
  result_symbol l' = tok_id PARAMETRIC_MACRO_NAME ->
  exists ws w r,
    rest l = ws ++ "%"%char :: w ++ r /\
    forallb is_horizontal_space ws = true /\
    is_identifier_start (hd NUL w) = true /\
    forallb is_identifier_char w = true /\
    is_horizontal_space (hd NUL r) = true /\
    valid PARAMETRIC_MACRO_NAME = true /\
    in_scriptlet_context valid = false /\
    is_keyword (firstn 63 w) (length w) = false /\
    is_files_keyword (firstn 63 w) (length w) = false /\
    is_patch_legacy (firstn 63 w) (length w) = false /\
    is_nil (firstn 63 w) (length w) = false /\
    sc' = sc /\
    mark l' = pos l + length ws + S (length w) /\
    start l' = (if is_empty ws then start l else pos l + length ws).
Proof.
  intros H Hs; unfold scan_percent_tokens in H; cbv zeta in H.
  destruct (any_conditional_valid valid || valid PARAMETRIC_MACRO_NAME ||
            any_section_token_valid valid); [|discriminate].
  destruct (span_split is_horizontal_space eq_refl (rest l))
    as (ws & xs & Hl & Hws & Hxs).
  assert (Hsk : skip_leading_whitespace l =
                mkLexer xs (pos l + length ws) (mark l)
                  (if true && (0 <? length ws) then pos l + length ws
                   else start l) (result_symbol l))
    by (apply advance_while_app; auto).
  rewrite Hsk in H.
  set (L1 := mkLexer xs (pos l + length ws) (mark l)
               (if true && (0 <? length ws) then pos l + length ws
                else start l) (result_symbol l)) in H.
  destruct (chr_eq (lookahead L1) "%") eqn:Hp; [|discriminate].
  destruct xs as [|c0 xs]; [discriminate|].
  unfold L1, lookahead, chr_eq in Hp; cbn [rest] in Hp.
  apply Ascii.eqb_eq in Hp; subst c0.
  destruct (consume_percent_and_identifier (mark_end L1) 64)
    as [[[ok kw] len] l3] eqn:Ec.
  clear Hsk.
  destruct ok; [|discriminate].
  destruct xs as [|c xs].
  { rewrite consume_percent_fail in Ec; [discriminate | reflexivity |
      reflexivity]. }
  destruct (is_identifier_start c) eqn:Hc.
  2:{ rewrite consume_percent_fail in Ec; [discriminate | reflexivity |
      exact Hc]. }
  destruct (span_split is_identifier_char eq_refl xs)
    as (w' & r & -> & Hw' & Hr).
  rewrite (consume_percent_and_identifier_app c w' r) in Ec by
    first [reflexivity | assumption].
  remember (firstn 63 (c :: w')) as kw0 eqn:Ekw.
  injection Ec as <- <- <-; rename kw0 into kw.
  set (L3 := mkLexer r (pos l + length ws + S (S (length w')))
               (pos l + length ws)
               (if 0 <? length ws then pos l + length ws else start l)
               (result_symbol l)) in H.
  destruct (if any_conditional_valid valid && is_cond_keyword kw (S (length w'))
            then try_scan_conditional sc L3 valid kw (S (length w'))
            else (false, sc, L3)) as [[matched sc1] l4] eqn:Em.
  destruct matched; cbv beta iota in H.
  - exfalso; injection H as <- <-.
    destruct (any_conditional_valid valid && is_cond_keyword kw (S (length w')));
      [|discriminate].
    destruct (try_scan_conditional_in_emit COND_KEYWORDS sc L3 valid kw
                (S (length w')) sc1 l4 Em)
      as (k & t & Hin & Heq & Ht & Hv & Hres & _ & _ & Hm).
    pose proof (cond_sym_of k t Hin Ht) as Hcs.
    rewrite <- Hres, Hs in Hcs; vm_compute in Hcs; discriminate.
  - assert (Hl4 : sc1 = sc /\ l4 = L3).
    { destruct (any_conditional_valid valid && is_cond_keyword kw (S (length w'))).
      - apply try_scan_conditional_in_false in Em; exact Em.
      - injection Em as <- <-; split; reflexivity. }
    destruct Hl4 as [-> ->].
    assert (Param : forall l6 : Lexer,
      (if valid PARAMETRIC_MACRO_NAME then
         try_scan_parametric_macro L3 (negb (in_scriptlet_context valid)) kw
           (S (length w'))
       else (false, L3)) = (true, l6) ->
      exists ws0 w r0,
        rest l = ws0 ++ "%"%char :: w ++ r0 /\
        forallb is_horizontal_space ws0 = true /\
        is_identifier_start (hd NUL w) = true /\
        forallb is_identifier_char w = true /\
        is_horizontal_space (hd NUL r0) = true /\
        valid PARAMETRIC_MACRO_NAME = true /\
        in_scriptlet_context valid = false /\
        is_keyword (firstn 63 w) (length w) = false /\
        is_files_keyword (firstn 63 w) (length w) = false /\
        is_patch_legacy (firstn 63 w) (length w) = false /\
        is_nil (firstn 63 w) (length w) = false /\
        sc = sc /\
        mark l6 = pos l + length ws0 + S (length w) /\
        start l6 = (if is_empty ws0 then start l else pos l + length ws0)).
    { intros l6 Ep.
      destruct (valid PARAMETRIC_MACRO_NAME) eqn:Epv; [|discriminate].
      unfold try_scan_parametric_macro in Ep.
      destruct (in_scriptlet_context valid) eqn:Esc; [discriminate|].
      cbn [negb] in Ep.
      destruct (is_keyword kw (S (length w'))) eqn:K1; [discriminate|].
      destruct (is_files_keyword kw (S (length w'))) eqn:K2; [discriminate|].
      destruct (is_patch_legacy kw (S (length w'))) eqn:K3; [discriminate|].
      destruct (is_nil kw (S (length w'))) eqn:K4; [discriminate|].
      cbn [orb] in Ep.
      destruct (is_horizontal_space (lookahead L3)) eqn:Hh; [|discriminate].
      cbn [negb] in Ep; injection Ep as <-.
      exists ws, (c :: w'), r.
      cbn [hd length forallb]; rewrite <- Ekw.
      assert (Hid : is_identifier_char c = true)
        by (unfold is_identifier_char; now rewrite Hc).
      rewrite Hid, Hw'.
      assert (Hh' : is_horizontal_space (hd NUL r) = true)
        by (unfold L3, lookahead in Hh; cbn [rest] in Hh; destruct r; exact Hh).
      assert (Hm : mark (set_result (tok_id PARAMETRIC_MACRO_NAME) (mark_end L3))
                   = pos l + length ws + S (S (length w')))
        by (unfold set_result, mark_end, L3; cbn [mark pos]; lia).
      assert (Hst : start (set_result (tok_id PARAMETRIC_MACRO_NAME) (mark_end L3))
                    = (if is_empty ws then start l else pos l + length ws))
        by (unfold set_result, mark_end, L3; cbn [start]; destruct ws; reflexivity).
      repeat split; auto. }
    revert H.
    destruct (any_section_token_valid valid &&
              negb (is_identifier_char (lookahead L3))).
    + destruct (lookup_section_keyword kw (S (length w'))) as [[[name n] t]|]
        eqn:El.
      * destruct (valid t).
        { intros H; exfalso; injection H as _ <-; cbn [result_symbol set_result] in Hs.
          apply lookup_section_keyword_some in El as [Hin _].
          repeat (destruct Hin as [Hin|Hin]; [injection Hin as _ _ <-;
                                              discriminate|]); destruct Hin. }
        all: cbv beta iota.
        all: destruct (if valid PARAMETRIC_MACRO_NAME then
                         try_scan_parametric_macro L3
                           (negb (in_scriptlet_context valid)) kw (S (length w'))
                       else (false, L3)) as [[] l6] eqn:Ep; [|discriminate].
        all: intros H; injection H as <- <-.
        all: destruct (Param l6 eq_refl) as (ws0 & w & r0 & R);
          exists ws0, w, r0; exact R.
      * cbv beta iota.
        destruct (if valid PARAMETRIC_MACRO_NAME then
                    try_scan_parametric_macro L3
                      (negb (in_scriptlet_context valid)) kw (S (length w'))
                  else (false, L3)) as [[] l6] eqn:Ep; [|discriminate].
        intros H; injection H as <- <-.
        destruct (Param l6 eq_refl) as (ws0 & w & r0 & R);
          exists ws0, w, r0; exact R.
    + cbv beta iota.
      destruct (if valid PARAMETRIC_MACRO_NAME then
                  try_scan_parametric_macro L3
                    (negb (in_scriptlet_context valid)) kw (S (length w'))
                else (false, L3)) as [[] l6] eqn:Ep; [|discriminate].
      intros H; injection H as <- <-.
      destruct (Param l6 eq_refl) as (ws0 & w & r0 & R);
        exists ws0, w, r0; exact R.
Qed.

Lemma scan_macro_or_content_not_param (l : Lexer) (valid : ValidSymbols)
    (l' : Lexer) :
  scan_macro_or_content l valid = (true, l') ->
  result_symbol l' <> tok_id PARAMETRIC_MACRO_NAME.
Proof.
  unfold scan_macro_or_content, scan_macro; cbv zeta; intros H.
  repeat match type of H with
         | context [if ?b then _ else _] => destruct b
         | context [let '(_, _) := ?x in _] => destruct x
         end; try discriminate; injection H as <-; discriminate.
Qed.

(** X11: a parametric macro name returned by the main scan is [%] and an
    identifier after leading whitespace, followed by a space or tab; the
    kind is admissible, no scriptlet conditional is admissible, the name
    is no keyword, files directive, legacy patch name or [nil].  The
    leading whitespace is skipped, so the token starts at the [%] (with
    no whitespace the start is left where it was) and ends right after
    the identifier; the scanner state is unchanged. *)
Theorem parametric_macro_token_shape (sc : Scanner) (l : Lexer)
    (valid : ValidSymbols) (sc' : Scanner) (l' : Lexer) :
  rpmspec_scan sc l valid = (true, sc', l') ->
  result_symbol l' = tok_id PARAMETRIC_MACRO_NAME ->
  exists ws w r,
    rest l = ws ++ "%"%char :: w ++ r /\
    forallb isspace ws = true /\
    is_identifier_start (hd NUL w) = true /\
    forallb is_identifier_char w = true /\
    is_horizontal_space (hd NUL r) = true /\
    valid PARAMETRIC_MACRO_NAME = true /\
    in_scriptlet_context valid = false /\
    is_keyword (firstn 63 w) (length w) = false /\
    is_files_keyword (firstn 63 w) (length w) = false /\
    is_patch_legacy (firstn 63 w) (length w) = false /\
    is_nil (firstn 63 w) (length w) = false /\
    sc' = sc /\
    mark l' = pos l + length ws + S (length w) /\
    start l' = (if is_empty ws then start l else pos l + length ws).
Proof.
  intros H Hs.
  assert (After : forall l1,
    match scan_percent_tokens sc l1 valid with
    | inl (sc2, l2) => (true, sc2, l2)
    | inr l2 => let '(b, l3) := scan_macro_or_content l2 valid in (b, sc, l3)
    end = (true, sc', l') ->
    exists ws w r,
      rest l1 = ws ++ "%"%char :: w ++ r /\
      forallb isspace ws = true /\
      is_identifier_start (hd NUL w) = true /\
      forallb is_identifier_char w = true /\
      is_horizontal_space (hd NUL r) = true /\
      valid PARAMETRIC_MACRO_NAME = true /\
      in_scriptlet_context valid = false /\
      is_keyword (firstn 63 w) (length w) = false /\
      is_files_keyword (firstn 63 w) (length w) = false /\
      is_patch_legacy (firstn 63 w) (length w) = false /\
      is_nil (firstn 63 w) (length w) = false /\
      sc' = sc /\
      mark l' = pos l1 + length ws + S (length w) /\
      start l' = (if is_empty ws then start l1 else pos l1 + length ws)).
  { intros l1 H1.
    destruct (scan_percent_tokens sc l1 valid) as [[sc2 l2]|l2] eqn:Ep.
    - injection H1 as <- <-.
      destruct (scan_percent_tokens_param sc l1 valid sc2 l2 Ep Hs)
        as (ws & w & r & Hl & Hws & R).
      exists ws, w, r; split; [exact Hl|].
      split; [apply horizontal_isspace; exact Hws | exact R].
    - destruct (scan_macro_or_content l2 valid) as [b l3] eqn:Em.
      injection H1 as -> _ <-.
      exfalso; exact (scan_macro_or_content_not_param l2 valid l3 Em Hs). }
  unfold rpmspec_scan in H; cbv zeta in H.
  destruct (negb (valid EXPAND_CODE) && negb (valid SCRIPT_CODE));
    [|exact (After l H)].
  unfold newline_filter in H.
  pose proof (newline_filter_f_cases (S (length (rest l))) valid l) as Hnf.
  destruct (newline_filter_f (S (length (rest l))) valid l) as [l1|l1].
  - injection H as _ <-; rewrite Hnf in Hs; vm_compute in Hs; discriminate.
  - destruct Hnf as (ws0 & Hl0 & Hws0 & Hp0 & Hs0).
    destruct (After l1 H) as (ws & w & r & Hl & Hws & R).
    exists (ws0 ++ ws), w, r.
    destruct R as (R1 & R2 & R3 & R4 & R5 & R6 & R7 & R8 & R9 & R10 & R11
                   & R12).
    assert (Hst' : start l' = (if is_empty (ws0 ++ ws) then start l
                               else pos l + length (ws0 ++ ws)))
      by (rewrite R12, Hs0, Hp0, length_app;
          destruct ws0, ws; cbn [is_empty app length]; lia).
    rewrite Hl0, Hl, <- app_assoc, forallb_app, Hws0, Hws, R11, Hp0, length_app.
    rewrite length_app in Hst'.
    repeat split; auto; lia.
Qed.

(** X8: the macro matcher's one-character and digit cases: [%] gives an
    escaped percent of one character (or declines), [**] a special macro
    of two characters, a lone [*] or [#] one of one character, a run of
    digits one spanning the whole run; with the special-macro kind not
    admissible, [*], [#] and digits are declined without consuming. *)
Theorem special_macro_spans (l : Lexer) (valid : ValidSymbols) :
  (forall r, rest l = "%"%char :: r ->
     scan_macro l valid =
     if valid ESCAPED_PERCENT then
       (true, mkLexer r (S (pos l)) (S (pos l)) (start l)
                (tok_id ESCAPED_PERCENT))
     else (false, mark_end l)) /\
  (forall r, rest l = "*"%char :: "*"%char :: r -> valid SPECIAL_MACRO = true ->
     scan_macro l valid =
     (true, mkLexer r (S (S (pos l))) (S (S (pos l))) (start l)
              (tok_id SPECIAL_MACRO))) /\
  (forall c r, rest l = c :: r ->
     chr_eq c "*" && negb (chr_eq (hd NUL r) "*") || chr_eq c "#" = true ->
     valid SPECIAL_MACRO = true ->
     scan_macro l valid =
     (true, mkLexer r (S (pos l)) (S (pos l)) (start l)
              (tok_id SPECIAL_MACRO))) /\
  (forall ds r, rest l = ds ++ r -> ds <> [] -> forallb isdigit ds = true ->
     isdigit (hd NUL r) = false -> valid SPECIAL_MACRO = true ->
     scan_macro l valid =
     (true, mkLexer r (pos l + length ds) (pos l + length ds) (start l)
              (tok_id SPECIAL_MACRO))) /\
  (forall c r, rest l = c :: r ->
     chr_eq c "*" || chr_eq c "#" || isdigit c = true ->
     valid SPECIAL_MACRO = false ->
     scan_macro l valid = (false, mark_end l)).
Proof.
  destruct l as [rl p m s rs]; cbn [rest pos start].
  split; [|split; [|split; [|split]]].
  - intros r ->; unfold scan_macro.
    change (lookahead (mkLexer ("%"%char :: r) p m s rs)) with "%"%char.
    replace (chr_eq "%" "%") with true by reflexivity.
    destruct (valid ESCAPED_PERCENT); reflexivity.
  - intros r -> Hv; unfold scan_macro.
    change (lookahead (mkLexer ("*"%char :: "*"%char :: r) p m s rs))
      with "*"%char.
    rewrite Hv; reflexivity.
  - intros c r -> Hc Hv; unfold scan_macro.
    change (lookahead (mkLexer (c :: r) p m s rs)) with c.
    apply orb_prop in Hc as [Hc|Hc].
    + apply andb_prop in Hc as [Hc Hn]; apply chr_eq_true in Hc; subst c.
      replace (chr_eq "*" "%") with false by reflexivity.
      replace (chr_eq "*" "!") with false by reflexivity.
      replace (chr_eq "*" "*") with true by reflexivity.
      rewrite Hv; cbn [negb]; cbv zeta.
      change (lookahead (advance (mark_end (mkLexer ("*"%char :: r) p m s rs))))
        with (hd NUL r).
      destruct r as [|c1 r].
      * reflexivity.
      * cbn [hd] in Hn |- *; apply negb_true_iff in Hn; rewrite Hn; reflexivity.
    + apply chr_eq_true in Hc; subst c.
      rewrite Hv; reflexivity.
  - intros ds r -> Hne Hds Hr Hv.
    destruct ds as [|c ds]; [congruence|].
    unfold scan_macro.
    change (lookahead (mkLexer ((c :: ds) ++ r) p m s rs)) with c.
    cbn [forallb] in Hds; apply andb_prop in Hds as [Hc Hds'].
    assert (Hs : chr_eq c "%" = false /\ chr_eq c "!" = false /\
                 chr_eq c "*" = false /\ chr_eq c "#" = false)
      by (destruct c as [[] [] [] [] [] [] [] []]; vm_compute in Hc |- *;
          first [discriminate | repeat split]).
    destruct Hs as (H1 & H2 & H3 & H4); rewrite H1, H2, H3, H4, Hc, Hv.
    cbn [negb].
    rewrite (advance_while_app isdigit eq_refl false (c :: ds) r);
      [| reflexivity | cbn [forallb]; now rewrite Hc, Hds' | exact Hr].
    reflexivity.
  - intros c r -> Hc Hv; unfold scan_macro.
    change (lookahead (mkLexer (c :: r) p m s rs)) with c.
    assert (Hs : chr_eq c "%" = false /\ chr_eq c "!" = false)
      by (destruct c as [[] [] [] [] [] [] [] []]; vm_compute in Hc |- *;
          first [discriminate | repeat split]).
    destruct Hs as [H1 H2]; rewrite H1, H2, Hv; cbn [negb].
    destruct (chr_eq c "*"); [reflexivity|].
    destruct (chr_eq c "#"); [reflexivity|].
    cbn [orb] in Hc; rewrite Hc; reflexivity.
Qed.

Lemma scan_macro_bang_decline (l : Lexer) (valid : ValidSymbols)
    (r : list ascii) :
  rest l = "!"%char :: r ->
  is_identifier_start (hd NUL r) = false \/ valid NEGATED_MACRO = false ->
  fst (scan_macro l valid) = false.
Proof.
  intros Hl H; destruct l as [rl p m s rs]; cbn [rest] in Hl; subst rl.
  unfold scan_macro.
  change (lookahead (mkLexer ("!"%char :: r) p m s rs)) with "!"%char.
  replace (chr_eq "!" "%") with false by reflexivity.
  replace (chr_eq "!" "!") with true by reflexivity.
  destruct (valid NEGATED_MACRO) eqn:Hv; [|reflexivity].
  destruct H as [H|H]; [|discriminate].
  cbn [negb]; cbv zeta.
  change (lookahead (advance (mark_end (mkLexer ("!"%char :: r) p m s rs))))
    with (hd NUL r).
  rewrite H; cbn [negb].
  destruct (chr_eq (hd NUL r) "?"); reflexivity.
Qed.

Lemma scan_macro_reserved (c : ascii) (w r : list ascii) (l : Lexer)
    (valid : ValidSymbols) :
  rest l = c :: w ++ r -> is_identifier_start c = true ->
  forallb is_identifier_char w = true ->
  is_identifier_char (hd NUL r) = false ->
  is_keyword (firstn 63 (c :: w)) (S (length w)) = true ->
  fst (scan_macro l valid) = false.
Proof.
  intros Hl Hc Hw Hr Hk.
  destruct (valid SIMPLE_MACRO) eqn:Hv.
  - rewrite (scan_macro_ident_any c w r l valid Hl Hc Hw Hr Hv); cbv zeta.
    rewrite Hk; reflexivity.
  - destruct (identifier_start_not_special c Hc) as (H1 & H2 & H3 & H4 & H5).
    unfold scan_macro.
    replace (lookahead l) with c by (unfold lookahead; now rewrite Hl).
    rewrite H1, H2, H3, H4, H5, Hc, Hv; reflexivity.
Qed.

Lemma scan_macro_reserved_name (name : string) (r : list ascii) (l : Lexer)
    (valid : ValidSymbols) :
  reserved_name_ok name = true ->
  rest l = s2l name ++ r -> is_identifier_char (hd NUL r) = false ->
  fst (scan_macro l valid) = false.
Proof.
  unfold reserved_name_ok; intros Hn Hl Hr.
  destruct (s2l name) as [|c w]; [discriminate|].
  apply andb_prop in Hn as [Hn Hk]; apply andb_prop in Hn as [Hc Hw].
  exact (scan_macro_reserved c w r l valid Hl Hc Hw Hr Hk).
Qed.

Lemma directive_names_reserved :
  forallb (fun k => reserved_name_ok (kw_name k)) COND_KEYWORDS = true /\
  forallb (fun e => let '(name, _, _) := e in reserved_name_ok name)
    SECTION_KEYWORDS_MAP = true.
Proof. split; vm_compute; reflexivity. Qed.

(** X12: serialization always writes two bytes, each 0 or 1; restoring and
    serializing again normalizes the first two bytes (non-zero becomes 1)
    and gives two zero bytes for a buffer shorter than two; bytes after
    the first two are ignored. *)
Theorem serialize_normal_form :
  (forall sc, length (rpmspec_serialize sc) = 2%nat /\
     Forall (fun b => b = 0%Z \/ b = 1%Z) (rpmspec_serialize sc)) /\
  (forall buf, rpmspec_serialize (rpmspec_deserialize buf) =
     match buf with
     | x :: y :: _ => [b2byte (negb (x =? 0)%Z); b2byte (negb (y =? 0)%Z)]
     | _ => [0%Z; 0%Z]
     end) /\
  (forall x y t, rpmspec_deserialize (x :: y :: t) = rpmspec_deserialize [x; y]).
Proof.
  split; [|split].
  - intros [[] []]; cbn; split; try reflexivity;
      repeat apply Forall_cons; try apply Forall_nil;
      first [now left | now right].
  - intros [|x [|y t]]; reflexivity.
  - intros x y t; reflexivity.
Qed.

(** X1: every token the main scan returns is of a kind the parser marked
    admissible. *)
Theorem rpmspec_scan_token_admissible (sc : Scanner) (l : Lexer)
    (valid : ValidSymbols) (sc' : Scanner) (l' : Lexer) :
  rpmspec_scan sc l valid = (true, sc', l') ->
  exists t, valid t = true /\ result_symbol l' = tok_id t.
Proof.
  intros H; pose proof (rpmspec_scan_ok sc l valid) as Ok; rewrite H in Ok.
  destruct Ok as (_ & Hb & _); destruct (Hb eq_refl) as [Ha _]; exact Ha.
Qed.

(** X2: the main scan only moves forward through the input, and a returned
    token is non-empty: its end mark lies after its start and not beyond
    the lexer position. *)
Theorem rpmspec_scan_token_extent (sc : Scanner) (l : Lexer)
    (valid : ValidSymbols) (b : bool) (sc' : Scanner) (l' : Lexer) :
  (start l <= pos l)%nat ->
  rpmspec_scan sc l valid = (b, sc', l') ->
  ((pos l <= pos l')%nat /\ rest l' = skipn (pos l' - pos l) (rest l)) /\
  (b = true -> (start l' < mark l')%nat /\ (mark l' <= pos l')%nat).
Proof.
  intros Hpre H; pose proof (rpmspec_scan_ok sc l valid) as Ok; rewrite H in Ok.
  destruct Ok as (Hf & Hb & _); split; [exact Hf|].
  intros ->; destruct (Hb eq_refl) as [_ Ht]; exact (Ht Hpre).
Qed.

(** X3: the main scan leaves the scanner state unchanged unless it returns
    a conditional token. *)
Theorem rpmspec_scan_state_preserved (sc : Scanner) (l : Lexer)
    (valid : ValidSymbols) (b : bool) (sc' : Scanner) (l' : Lexer) :
  rpmspec_scan sc l valid = (b, sc', l') ->
  sc' = sc \/ (b = true /\ is_cond_sym (result_symbol l') = true).
Proof.
  intros H; pose proof (rpmspec_scan_ok sc l valid) as Ok; rewrite H in Ok.
  destruct Ok as (_ & _ & Hs); exact Hs.
Qed.

(** X9: [!] followed by an identifier gives a negated macro spanning [!]
    and the whole identifier; [!] followed by anything that does not start
    an identifier (such as [?]), or with the negated kind not admissible,
    is declined. *)
Theorem negated_macro_spans (l : Lexer) (valid : ValidSymbols) :
  (forall w r, rest l = "!"%char :: w ++ r -> valid NEGATED_MACRO = true ->
     is_identifier_start (hd NUL w) = true ->
     forallb is_identifier_char w = true ->
     is_identifier_char (hd NUL r) = false ->
     scan_macro l valid =
     (true, mkLexer r (pos l + S (length w)) (pos l + S (length w)) (start l)
              (tok_id NEGATED_MACRO))) /\
  (forall r, rest l = "!"%char :: r ->
     is_identifier_start (hd NUL r) = false \/ valid NEGATED_MACRO = false ->
     fst (scan_macro l valid) = false).
Proof.
  split.
  - intros w r Hl Hv Hs Hw Hr.
    apply (scan_macro_bang w r l valid Hl Hv); auto.
    intros ->; discriminate.
  - intros r Hl H; exact (scan_macro_bang_decline l valid r Hl H).
Qed.

(** X10: the macro matcher never turns a conditional opener name or a
    section name of the section table into a macro token: each such name
    has at most 22 characters, so [scan_macro]'s 63-character buffer holds
    it whole, and [is_keyword] reserves every one of them. *)
Theorem directive_names_not_macros (l : Lexer) (valid : ValidSymbols)
    (r : list ascii) :
  (forall k, In k COND_KEYWORDS -> rest l = s2l (kw_name k) ++ r ->
     is_identifier_char (hd NUL r) = false ->
     fst (scan_macro l valid) = false) /\
  (forall name n t, In (name, n, t) SECTION_KEYWORDS_MAP ->
     rest l = s2l name ++ r -> is_identifier_char (hd NUL r) = false ->
     fst (scan_macro l valid) = false).
Proof.
  destruct directive_names_reserved as [Hc Hs].
  split.
  - intros k Hin Hl Hr.
    rewrite forallb_forall in Hc.
    exact (scan_macro_reserved_name (kw_name k) r l valid (Hc k Hin) Hl Hr).
  - intros name n t Hin Hl Hr.
    rewrite forallb_forall in Hs.
    exact (scan_macro_reserved_name name r l valid (Hs _ Hin) Hl Hr).
Qed.

(** * Instances of the properties *)

Lemma conditional_choice_priority_witness :
  In (mkCondKeyword "if" TOP_LEVEL_IF SUBSECTION_IF SCRIPTLET_IF FILES_IF)
    COND_KEYWORDS /\
  reachable rpmspec_create /\
  fst (fst (select_conditional_token_type rpmspec_create
              (lexer_at nested_body 3)
              (cond_tokens_of
                 (mkCondKeyword "if" TOP_LEVEL_IF SUBSECTION_IF SCRIPTLET_IF
                    FILES_IF) (valid_of [TOP_LEVEL_IF; SUBSECTION_IF])))) =
  spec_conditional_choice
    (cond_tokens_of
       (mkCondKeyword "if" TOP_LEVEL_IF SUBSECTION_IF SCRIPTLET_IF FILES_IF)
       (valid_of [TOP_LEVEL_IF; SUBSECTION_IF]))
    (fst (conditional_body_has_section (lexer_at nested_body 3))).
Proof.
  split; [left; reflexivity|]; split; [constructor|].
  apply conditional_choice_priority; [left; reflexivity | constructor].
Defined.

Lemma lookahead_cache_single_use_witness :
  (files_valid (cond_tokens_of
     (mkCondKeyword "if" TOP_LEVEL_IF SUBSECTION_IF SCRIPTLET_IF FILES_IF)
     (valid_of [TOP_LEVEL_IF; SUBSECTION_IF])) = false /\
   top_valid (cond_tokens_of
     (mkCondKeyword "if" TOP_LEVEL_IF SUBSECTION_IF SCRIPTLET_IF FILES_IF)
     (valid_of [TOP_LEVEL_IF; SUBSECTION_IF])) = true /\
   lookahead_cache_valid (snd (fst (select_conditional_token_type
     (mkScanner true true) (lexer_at nested_body 3)
     (cond_tokens_of
        (mkCondKeyword "if" TOP_LEVEL_IF SUBSECTION_IF SCRIPTLET_IF FILES_IF)
        (valid_of [TOP_LEVEL_IF; SUBSECTION_IF]))))) = false) /\
  (reachable rpmspec_create /\
   exclusive_context (cond_tokens_of
     (mkCondKeyword "if" TOP_LEVEL_IF SUBSECTION_IF SCRIPTLET_IF FILES_IF)
     (valid_of [SCRIPTLET_IF])) = true /\
   lookahead_cache_valid (snd (fst (select_conditional_token_type
     rpmspec_create (lexer_at nested_body 3)
     (cond_tokens_of
        (mkCondKeyword "if" TOP_LEVEL_IF SUBSECTION_IF SCRIPTLET_IF FILES_IF)
        (valid_of [SCRIPTLET_IF]))))) = false) /\
  lookahead_cache_valid (snd (fst (rpmspec_scan rpmspec_create
    (lexer_at (s2l "%if A") 0) (valid_of [TOP_LEVEL_IF; SUBSECTION_IF])))) =
    false.
Proof.
  destruct lookahead_cache_single_use as (H1 & H2 & H3).
  split; [split; [reflexivity | split; [reflexivity|]] |].
  { apply H1; reflexivity. }
  split; [split; [constructor | split; [reflexivity|]] |].
  { apply H2; [constructor | reflexivity]. }
  apply H3; constructor.
Defined.

Lemma serialize_roundtrip_witness :
  (length ([] : list Z) < 2)%nat /\
  rpmspec_deserialize [] = mkScanner false false.
Proof.
  split; [cbn; lia|].
  apply (proj2 serialize_roundtrip); cbn; lia.
Defined.

Lemma macro_matcher_examples_witness :
  is_identifier_char (hd NUL [" "%char]) = false /\
  valid_of [SIMPLE_MACRO; SPECIAL_MACRO] SIMPLE_MACRO = true /\
  valid_of [SIMPLE_MACRO; SPECIAL_MACRO] SPECIAL_MACRO = true /\
  scan_macro (lexer_at (s2l "nil" ++ [" "%char]) 5)
    (valid_of [SIMPLE_MACRO; SPECIAL_MACRO]) =
  (true, mkLexer [" "%char] (5 + 3) (5 + 3) 5 (tok_id SPECIAL_MACRO)).
Proof.
  split; [reflexivity|]; split; [reflexivity|]; split; [reflexivity|].
  destruct macro_matcher_examples as (_ & _ & _ & H & _).
  apply H; reflexivity.
Defined.

Lemma expand_content_boundaries_witness :
  forallb not_percent (s2l " a {b} c") = true /\
  brace_walk 0 (s2l " a {b} c") = Some 0%Z /\
  scan_expand_content (lexer_at (s2l " a {b} c" ++ ["}"%char]) 9) =
  (negb (is_empty (s2l " a {b} c")),
   mkLexer ["}"%char] (9 + length (s2l " a {b} c"))
     (9 + length (s2l " a {b} c")) 9 0).
Proof.
  split; [reflexivity|]; split; [reflexivity|].
  apply (proj1 expand_content_boundaries); reflexivity.
Defined.

Lemma shell_percent_boundary_witness :
  forallb shell_plain (s2l "echo ${var") = true /\
  is_macro_start "." = false /\
  scan_shell_content (lexer_at (s2l "echo ${var" ++ "%"%char :: "."%char ::
                                s2l "*})") 0) =
  shell_loop (S (length ("."%char :: s2l "*})"))) 0 true
    (mkLexer ("."%char :: s2l "*})") (S (0 + length (s2l "echo ${var")))
       (S (0 + length (s2l "echo ${var"))) 0 0).
Proof.
  split; [reflexivity|]; split; [reflexivity|].
  destruct shell_percent_boundary as (_ & _ & H & _).
  apply H; reflexivity.
Defined.

Lemma newline_peek_terminator_witness :
  (fun n => n =? 34) 34 = true /\
  rest (lexer_at (nl :: s2l "%global x") 0) = nl :: [] ++ s2l "%global x" /\
  RpmBash.directive_ahead (s2l "%global x") = true /\
  exists l',
    RpmBash.rpmbash_scan unit 34 (fun p l v => (false, p, l)) tt
      (lexer_at (nl :: s2l "%global x") 0) (fun n => n =? 34) =
    (true, tt, l') /\ mark l' = 1 /\ start l' = 0 /\ result_symbol l' = 34.
Proof.
  split; [reflexivity|]; split; [reflexivity|]; split; [reflexivity|].
  apply (proj1 (newline_peek_terminator unit 34 (fun p l v => (false, p, l))
                  tt (lexer_at (nl :: s2l "%global x") 0) (fun n => n =? 34)
                  [] (s2l "%global x") eq_refl eq_refl eq_refl eq_refl)).
  reflexivity.
Defined.


Lemma lookahead_cap_and_eof_witness :
  cbhs_reach (cbhs_init (lexer_at [] 0)) (cbhs_init (lexer_at [] 0)) /\
  cbhs_guard (cbhs_init (lexer_at [] 0)) = false /\
  cbhs_run (lexer_at [] 0) = (false, cbhs_init (lexer_at [] 0)).
Proof.
  split; [constructor|]; split; [reflexivity|].
  apply (proj1 lookahead_cap_and_eof); [constructor | reflexivity].
Defined.

Lemma section_token_boundary_witness :
  In ("conf"%string, 4, SECTION_CONF) SECTION_KEYWORDS_MAP /\
  rpmspec_scan rpmspec_create (lexer_at (s2l "%configure --prefix") 0)
    (valid_of [SECTION_CONF; PARAMETRIC_MACRO_NAME]) =
    (true, rpmspec_create,
     mkLexer (s2l " --prefix") 10 10 0 (tok_id PARAMETRIC_MACRO_NAME)) /\
  is_section_sym (tok_id PARAMETRIC_MACRO_NAME) = false.
Proof.
  assert (Hs : rpmspec_scan rpmspec_create
                 (lexer_at (s2l "%configure --prefix") 0)
                 (valid_of [SECTION_CONF; PARAMETRIC_MACRO_NAME]) =
               (true, rpmspec_create,
                mkLexer (s2l " --prefix") 10 10 0
                  (tok_id PARAMETRIC_MACRO_NAME)))
    by (vm_compute; reflexivity).
  split; [right; right; left; reflexivity|]; split; [exact Hs|].
  destruct section_token_boundary as (_ & H & _).
  exact (H rpmspec_create (lexer_at (s2l "%configure --prefix") 0)
           (valid_of [SECTION_CONF; PARAMETRIC_MACRO_NAME]) "conf"%string 4
           SECTION_CONF (s2l "igure") (s2l " --prefix") rpmspec_create
           (mkLexer (s2l " --prefix") 10 10 0 (tok_id PARAMETRIC_MACRO_NAME))
           ltac:(right; right; left; reflexivity) ltac:(discriminate)
           eq_refl eq_refl Hs).
Defined.

Lemma rpmspec_scan_token_admissible_witness :
  rpmspec_scan rpmspec_create (lexer_at (s2l "%if x") 0)
    (valid_of [TOP_LEVEL_IF]) =
    (true, rpmspec_create, mkLexer (s2l " x") 3 3 0 (tok_id TOP_LEVEL_IF)) /\
  exists t, valid_of [TOP_LEVEL_IF] t = true /\
            result_symbol (mkLexer (s2l " x") 3 3 0 (tok_id TOP_LEVEL_IF))
            = tok_id t.
Proof.
  assert (H : rpmspec_scan rpmspec_create (lexer_at (s2l "%if x") 0)
                (valid_of [TOP_LEVEL_IF]) =
              (true, rpmspec_create,
               mkLexer (s2l " x") 3 3 0 (tok_id TOP_LEVEL_IF)))
    by (vm_compute; reflexivity).
  split; [exact H|].
  exact (rpmspec_scan_token_admissible _ _ _ _ _ H).
Defined.

Lemma rpmspec_scan_token_extent_witness :
  (start (lexer_at (s2l "%if x") 0) <= pos (lexer_at (s2l "%if x") 0))%nat /\
  rpmspec_scan rpmspec_create (lexer_at (s2l "%if x") 0)
    (valid_of [TOP_LEVEL_IF]) =
    (true, rpmspec_create, mkLexer (s2l " x") 3 3 0 (tok_id TOP_LEVEL_IF)) /\
  (start (mkLexer (s2l " x") 3 3 0 (tok_id TOP_LEVEL_IF)) <
   mark (mkLexer (s2l " x") 3 3 0 (tok_id TOP_LEVEL_IF)))%nat.
Proof.
  assert (H : rpmspec_scan rpmspec_create (lexer_at (s2l "%if x") 0)
                (valid_of [TOP_LEVEL_IF]) =
              (true, rpmspec_create,
               mkLexer (s2l " x") 3 3 0 (tok_id TOP_LEVEL_IF)))
    by (vm_compute; reflexivity).
  assert (Hp : (start (lexer_at (s2l "%if x") 0) <=
                pos (lexer_at (s2l "%if x") 0))%nat) by (cbn; lia).
  split; [exact Hp|]; split; [exact H|].
  exact (proj1 (proj2 (rpmspec_scan_token_extent _ _ _ _ _ _ Hp H) eq_refl)).
Defined.

Lemma rpmspec_scan_state_preserved_witness :
  rpmspec_scan rpmspec_create (lexer_at (s2l "%gobuild -o") 0)
    (valid_of [PARAMETRIC_MACRO_NAME]) =
    (true, rpmspec_create,
     mkLexer (s2l " -o") 8 8 0 (tok_id PARAMETRIC_MACRO_NAME)) /\
  (rpmspec_create = rpmspec_create \/
   (true = true /\
    is_cond_sym (result_symbol (mkLexer (s2l " -o") 8 8 0
                                  (tok_id PARAMETRIC_MACRO_NAME))) = true)).
Proof.
  assert (H : rpmspec_scan rpmspec_create (lexer_at (s2l "%gobuild -o") 0)
                (valid_of [PARAMETRIC_MACRO_NAME]) =
              (true, rpmspec_create,
               mkLexer (s2l " -o") 8 8 0 (tok_id PARAMETRIC_MACRO_NAME)))
    by (vm_compute; reflexivity).
  split; [exact H|].
  exact (rpmspec_scan_state_preserved _ _ _ _ _ _ H).
Defined.

Lemma conditional_token_shape_witness :
  rpmspec_scan rpmspec_create (lexer_at (s2l "  %if x") 0)
    (valid_of [TOP_LEVEL_IF]) =
    (true, rpmspec_create, mkLexer (s2l " x") 5 5 2 (tok_id TOP_LEVEL_IF)) /\
  is_cond_sym (tok_id TOP_LEVEL_IF) = true /\
  exists ws k t w r,
    s2l "  %if x" = ws ++ "%"%char :: w ++ r /\
    forallb isspace ws = true /\
    In k COND_KEYWORDS /\ w = s2l (kw_name k) /\
    is_identifier_char (hd NUL r) = false /\
    (t = kw_top k \/ t = kw_subsection k \/ t = kw_scriptlet k \/
     t = kw_files k) /\ valid_of [TOP_LEVEL_IF] t = true /\
    tok_id TOP_LEVEL_IF = tok_id t /\
    5 = 0 + length ws + S (length w) /\
    2 = (if is_empty ws then 0 else 0 + length ws).
Proof.
  assert (H : rpmspec_scan rpmspec_create (lexer_at (s2l "  %if x") 0)
                (valid_of [TOP_LEVEL_IF]) =
              (true, rpmspec_create,
               mkLexer (s2l " x") 5 5 2 (tok_id TOP_LEVEL_IF)))
    by (vm_compute; reflexivity).
  assert (Hc : is_cond_sym (tok_id TOP_LEVEL_IF) = true) by reflexivity.
  split; [exact H|]; split; [exact Hc|].
  exact (conditional_token_shape _ _ _ _ _ H Hc).
Defined.

Lemma newline_token_shape_witness :
  rpmspec_scan rpmspec_create (lexer_at (s2l "  " ++ cr :: nl :: s2l "x") 0)
    (valid_of [NEWLINE]) =
  (true, rpmspec_create,
   mkLexer (skipn (2 - 1) (nl :: s2l "x")) (0 + 2 + 2) (0 + 2 + 2)
     (0 + 2) (tok_id NEWLINE)).
Proof.
  exact (newline_token_shape rpmspec_create
           (lexer_at (s2l "  " ++ cr :: nl :: s2l "x") 0) (valid_of [NEWLINE])
           (s2l "  ") cr (nl :: s2l "x") eq_refl eq_refl eq_refl eq_refl
           eq_refl eq_refl).
Defined.

Lemma blank_prefix_transparent_witness :
  rpmspec_scan rpmspec_create (lexer_at (s2l " " ++ nl :: s2l " %if x") 0)
    (valid_of [TOP_LEVEL_IF]) =
  rpmspec_scan rpmspec_create (mkLexer (s2l "%if x") 3 0 3 0)
    (valid_of [TOP_LEVEL_IF]).
Proof.
  exact (blank_prefix_transparent rpmspec_create
           (lexer_at (s2l " " ++ nl :: s2l " %if x") 0) (valid_of [TOP_LEVEL_IF])
           (s2l " " ++ nl :: s2l " ") (s2l "%if x") eq_refl eq_refl eq_refl
           eq_refl eq_refl).
Defined.

Lemma long_identifier_simple_macro_witness :
  scan_macro (lexer_at ("p"%char :: s2l "atch" ++ repeat "0"%char 59 ++ [" "%char]) 0)
    (valid_of [SIMPLE_MACRO]) =
  (true, mkLexer [" "%char] (0 + S 63) (0 + S 63) 0 (tok_id SIMPLE_MACRO)) /\
  fst (scan_macro (lexer_at (s2l "patch" ++ repeat "0"%char 58 ++ [" "%char]) 0)
         (valid_of [SIMPLE_MACRO])) = false.
Proof.
  split.
  - exact (proj1 long_identifier_simple_macro "p"%char
             (s2l "atch" ++ repeat "0"%char 59) [" "%char]
             (lexer_at ("p"%char :: s2l "atch" ++ repeat "0"%char 59
                        ++ [" "%char]) 0)
             (valid_of [SIMPLE_MACRO]) ltac:(reflexivity) eq_refl eq_refl eq_refl
             ltac:(cbn; lia) eq_refl).
  - exact (proj2 long_identifier_simple_macro (repeat "0"%char 58) [" "%char]
             (lexer_at (s2l "patch" ++ repeat "0"%char 58 ++ [" "%char]) 0)
             (valid_of [SIMPLE_MACRO]) eq_refl ltac:(discriminate) eq_refl
             ltac:(cbn; lia) eq_refl).
Defined.

Lemma special_macro_spans_witness :
  scan_macro (lexer_at (s2l "12 x") 0) (valid_of [SPECIAL_MACRO]) =
  (true, mkLexer (s2l " x") (0 + 2) (0 + 2) 0 (tok_id SPECIAL_MACRO)).
Proof.
  destruct (special_macro_spans (lexer_at (s2l "12 x") 0)
              (valid_of [SPECIAL_MACRO])) as (_ & _ & _ & H & _).
  exact (H (s2l "12") (s2l " x") eq_refl ltac:(discriminate) eq_refl eq_refl
           eq_refl).
Defined.

Lemma negated_macro_spans_witness :
  scan_macro (lexer_at (s2l "!foo bar") 0) (valid_of [NEGATED_MACRO]) =
  (true, mkLexer (s2l " bar") (0 + S 3) (0 + S 3) 0 (tok_id NEGATED_MACRO)).
Proof.
  destruct (negated_macro_spans (lexer_at (s2l "!foo bar") 0)
              (valid_of [NEGATED_MACRO])) as [H _].
  exact (H (s2l "foo") (s2l " bar") eq_refl eq_refl eq_refl eq_refl eq_refl).
Defined.

Lemma directive_names_not_macros_witness :
  fst (scan_macro (lexer_at (s2l "ifarch x") 0) (valid_of [SIMPLE_MACRO]))
  = false.
Proof.
  destruct (directive_names_not_macros (lexer_at (s2l "ifarch x") 0)
              (valid_of [SIMPLE_MACRO]) (s2l " x")) as [H _].
  exact (H (mkCondKeyword "ifarch" TOP_LEVEL_IFARCH SUBSECTION_IFARCH
              SCRIPTLET_IFARCH FILES_IFARCH)
           ltac:(right; left; reflexivity) eq_refl eq_refl).
Defined.

Lemma parametric_macro_token_shape_witness :
  rpmspec_scan rpmspec_create (lexer_at (s2l " %gobuild -o") 0)
    (valid_of [PARAMETRIC_MACRO_NAME]) =
    (true, rpmspec_create,
     mkLexer (s2l " -o") 9 9 1 (tok_id PARAMETRIC_MACRO_NAME)) /\
  exists ws w r,
    s2l " %gobuild -o" = ws ++ "%"%char :: w ++ r /\
    forallb isspace ws = true /\
    is_identifier_start (hd NUL w) = true /\
    forallb is_identifier_char w = true /\
    is_horizontal_space (hd NUL r) = true /\
    valid_of [PARAMETRIC_MACRO_NAME] PARAMETRIC_MACRO_NAME = true /\
    in_scriptlet_context (valid_of [PARAMETRIC_MACRO_NAME]) = false /\
    is_keyword (firstn 63 w) (length w) = false /\
    is_files_keyword (firstn 63 w) (length w) = false /\
    is_patch_legacy (firstn 63 w) (length w) = false /\
    is_nil (firstn 63 w) (length w) = false /\
    rpmspec_create = rpmspec_create /\
    9 = 0 + length ws + S (length w) /\
    1 = (if is_empty ws then 0 else 0 + length ws).
Proof.
  assert (H : rpmspec_scan rpmspec_create (lexer_at (s2l " %gobuild -o") 0)
                (valid_of [PARAMETRIC_MACRO_NAME]) =
              (true, rpmspec_create,
               mkLexer (s2l " -o") 9 9 1 (tok_id PARAMETRIC_MACRO_NAME)))
    by (vm_compute; reflexivity).
  split; [exact H|].
  exact (parametric_macro_token_shape _ _ _ _ _ H eq_refl).
Defined.

Lemma shell_content_paren_span_witness :
  scan_shell_content (lexer_at (s2l "f(a (b)) x" ++ ")"%char :: s2l " y") 0) =
  (negb (is_empty (s2l "f(a (b)) x")),
   mkLexer (")"%char :: s2l " y") (0 + 10) (0 + 10) 0 0).
Proof.
  exact (proj1 shell_content_paren_span (s2l "f(a (b)) x") (s2l " y") 0
           eq_refl eq_refl).
Defined.

Lemma expand_content_to_eof_witness :
  scan_expand_content (lexer_at (s2l "a {b") 4) =
  (true, mkLexer [] (4 + 4) (4 + 4) 4 0).
Proof.
  exact (expand_content_to_eof (s2l "a {b") 4 1 eq_refl eq_refl).
Defined.
